(** * austin-wizard: owner-name heuristics, retrying fetch and export loop

    A shallow embedding of the TypeScript sources

      - [lib/utils.ts]  (ZIP codes, CSV text, owner classification,
                         person-name parsing, dedup key, display forms
                         of names and addresses, histogram median),
      - [lib/api.ts]    (fetchJSON / fetchJSONWithRetry),
      - [App.tsx]       (the Export Center: startExport, CSVBuilder,
                         chunkArray, postNDJSON; the ZIP table built at
                         start-up; the Data Lab tables of top owners and
                         top ZIPs),

    together with the properties the specification states about them
    and further properties read off the code.

    Conventions of the embedding.

    - A JavaScript string is a [list ascii] of code units: the model
      covers the strings whose code units are below 256.  On them the
      character classes ([\s], [\d], [\b] word characters), [trim],
      [toLowerCase] and the matching of ASCII literals under the [i]
      flag are those of ECMAScript.  [toUpperCase] is that of ECMAScript
      except on the three code units 181, 223 and 255, whose upper-case
      forms are not one code unit below 256 and which the model leaves
      alone ([upper_exact] tells them apart); a statement that depends
      on the upper-case form of such a character says so.
    - [null] / [undefined] arguments are [None].
    - JavaScript numbers are exact rationals ([Q]) or naturals where the
      source only counts; the delays of the retry loop, computed in
      binary64 from a random number, are taken from the environment. *)

From Stdlib Require Import List Ascii String Bool Arith NArith ZArith QArith Lia.
From Stdlib Require Import DecimalString Sorted.
Import ListNotations.

Local Close Scope Q_scope.
Local Close Scope Z_scope.
Local Open Scope nat_scope.
Local Open Scope list_scope.
Local Open Scope bool_scope.

(* ================================================================== *)
(** ** JavaScript string primitives *)
(* ================================================================== *)

Module Str.

Definition jsstring := list ascii.

(** String literals. *)
Definition str (s : string) : jsstring := list_ascii_of_string s.

Definition code (c : ascii) : N := N_of_ascii c.

Definition is_lower (c : ascii) : bool := (97 <=? code c)%N && (code c <=? 122)%N.
Definition is_upper (c : ascii) : bool := (65 <=? code c)%N && (code c <=? 90)%N.
Definition is_letter (c : ascii) : bool := is_lower c || is_upper c.
(** [\d] *)
Definition is_digit (c : ascii) : bool := (48 <=? code c)%N && (code c <=? 57)%N.
(** [\s] and the characters removed by [trim]: TAB, LF, VT, FF, CR, SPACE
    and the no-break space. *)
Definition is_space (c : ascii) : bool :=
  ((9 <=? code c)%N && (code c <=? 13)%N) || (code c =? 32)%N || (code c =? 160)%N.
(** [\w], the word characters that [\b] looks at. *)
Definition is_word (c : ascii) : bool :=
  is_letter c || is_digit c || (code c =? 95)%N.

(** The letters above 127 that have the other case 32 code units away:
    224..254 without the division sign, 192..222 without the
    multiplication sign. *)
Definition is_lower_latin1 (c : ascii) : bool :=
  (224 <=? code c)%N && (code c <=? 254)%N && negb (code c =? 247)%N.
Definition is_upper_latin1 (c : ascii) : bool :=
  (192 <=? code c)%N && (code c <=? 222)%N && negb (code c =? 215)%N.

Definition upper_char (c : ascii) : ascii :=
  if is_lower c || is_lower_latin1 c then ascii_of_N (code c - 32) else c.
Definition lower_char (c : ascii) : ascii :=
  if is_upper c || is_upper_latin1 c then ascii_of_N (code c + 32) else c.

(** The code units on which [upper_char] is [toUpperCase]: all but the
    micro sign (181), the sharp s (223, which becomes two letters) and
    the y with diaeresis (255). *)
Definition upper_exact (c : ascii) : bool :=
  negb ((code c =? 181)%N || (code c =? 223)%N || (code c =? 255)%N).

(** [s.toUpperCase()], [s.toLowerCase()] *)
Definition toUpperCase (s : jsstring) : jsstring := map upper_char s.
Definition toLowerCase (s : jsstring) : jsstring := map lower_char s.

(** [u] starts with [t]. *)
Fixpoint starts_with (t u : jsstring) : bool :=
  match t, u with
  | [], _ => true
  | _ :: _, [] => false
  | a :: t', b :: u' => Ascii.eqb a b && starts_with t' u'
  end.

(** [u.includes(t)] *)
Fixpoint includes (u t : jsstring) : bool :=
  starts_with t u ||
  match u with
  | [] => false
  | _ :: u' => includes u' t
  end.

(** Case-insensitive prefix test, as a regex literal under the [i] flag. *)
Definition starts_with_ci (t u : jsstring) : bool :=
  starts_with (toUpperCase t) (toUpperCase u).

(** Case-insensitive equality, as [/^(lit)$/i]. *)
Definition eq_ci (t u : jsstring) : bool :=
  if list_eq_dec ascii_dec (toUpperCase t) (toUpperCase u) then true else false.

Fixpoint drop_while (p : ascii -> bool) (s : jsstring) : jsstring :=
  match s with
  | [] => []
  | c :: s' => if p c then drop_while p s' else s
  end.

Definition drop_while_end (p : ascii -> bool) (s : jsstring) : jsstring :=
  rev (drop_while p (rev s)).

(** [s.trim()] *)
Definition trim (s : jsstring) : jsstring :=
  drop_while_end is_space (drop_while is_space s).

(** [s.replace(/[class]+/g, r)]: every maximal run of characters of the
    class [p] becomes one copy of [r]. *)
Fixpoint replace_runs_from (p : ascii -> bool) (r : jsstring) (in_run : bool)
         (s : jsstring) : jsstring :=
  match s with
  | [] => []
  | c :: s' =>
      if p c then (if in_run then [] else r) ++ replace_runs_from p r true s'
      else c :: replace_runs_from p r false s'
  end.

Definition replace_runs (p : ascii -> bool) (r : jsstring) (s : jsstring) : jsstring :=
  replace_runs_from p r false s.

(** [s.replace(/[class]/g, "")] *)
Definition remove_all (p : ascii -> bool) (s : jsstring) : jsstring :=
  filter (fun c => negb (p c)) s.

(** [s.split(sep)] for a one-character separator: the pieces between the
    separators, empty pieces included ([cur] is the piece being read,
    reversed). *)
Fixpoint split_from (sep : ascii) (cur : jsstring) (s : jsstring) : list jsstring :=
  match s with
  | [] => [rev cur]
  | c :: s' =>
      if Ascii.eqb c sep then rev cur :: split_from sep [] s'
      else split_from sep (c :: cur) s'
  end.

Definition split (sep : ascii) (s : jsstring) : list jsstring := split_from sep [] s.

(** [xs.filter(Boolean)] on strings: the empty string is the only falsy one. *)
Definition nonempty (s : jsstring) : bool :=
  match s with [] => false | _ => true end.

Definition filter_Boolean (xs : list jsstring) : list jsstring := filter nonempty xs.

(** [s.split(/\s+/).filter(Boolean)]: the maximal runs of non-space
    characters. *)
Fixpoint words_from (cur : jsstring) (s : jsstring) : list jsstring :=
  match s with
  | [] => match cur with [] => [] | _ => [rev cur] end
  | c :: s' =>
      if is_space c
      then match cur with [] => words_from [] s' | _ => rev cur :: words_from [] s' end
      else words_from (c :: cur) s'
  end.

Definition split_ws (s : jsstring) : list jsstring := words_from [] s.

(** [xs.join(sep)] *)
Fixpoint join (sep : jsstring) (xs : list jsstring) : jsstring :=
  match xs with
  | [] => []
  | [x] => x
  | x :: xs' => x ++ sep ++ join sep xs'
  end.

(** [/[class]/.test(s)] *)
Definition test_any (p : ascii -> bool) (s : jsstring) : bool := existsb p s.

(** A string of letters only. *)
Definition letters (w : jsstring) : Prop := forallb is_letter w = true.

End Str.

(* ================================================================== *)
(** ** lib/utils.ts *)
(* ================================================================== *)

Module Utils.
Import Str.

Definition BIZ_LIKE_TOKENS : list jsstring :=
  map str
    [" LLC"; "INC"; " CORP"; " CORPORATION"; " LTD"; " LP"; " L.P"; " LLP"; " PLLC"; " CO ";
     " COMPANY"; " HOLDINGS"; " HLDGS"; " PARTNERS"; " PARTNERSHIP"; " TRUST"; " TR";
     " INVESTMENTS"; " PROPERTIES"; " MGMT"; " MANAGEMENT"; " ENTERPRISE"; " FOUNDATION"]%string.

Inductive owner_type := business | residential.

Definition classifyOwner (name : option jsstring) : owner_type :=
  match name with
  | None => residential
  | Some n =>
      if negb (nonempty n) then residential
      else
        let u := toUpperCase n in
        if existsb (fun t => includes u t) BIZ_LIKE_TOKENS then business else residential
  end.

(** *** isLikelyPersonName *)

Definition negative : list jsstring :=
  map str
    ["UNKNOWN"; "UNKNOWN OWNER"; "SEE DEED"; "VACANT"; "MULTIPLE"; "DECEASED"; "C/O"; "%C/O%";
     "ATTN"; "PO BOX"; "P O BOX"; "TRUSTEE"; "ESTATE"; "BANK"; "ASSOCIATION"; "HOA";
     "REMAINDER"; "REMAINDERMAN"; "UNIT#"; "LOT#"]%string.

(** The class of [/[.,()\-\/]+/]. *)
Definition is_punct (c : ascii) : bool :=
  existsb (Ascii.eqb c) (str ".,()-/").

(** [/^(LOT|BLK|UNIT|STE|APT|#)$/i] *)
Definition address_tokens : list jsstring :=
  map str ["LOT"; "BLK"; "UNIT"; "STE"; "APT"; "#"]%string.

Definition is_address_token (p : jsstring) : bool :=
  existsb (fun t => eq_ci t p) address_tokens.

Definition isLikelyPersonName (raw : option jsstring) : bool :=
  match raw with
  | None => false
  | Some r =>
      if negb (nonempty r) then false
      else
        let s := trim r in
        if negb (nonempty s) then false
        else
          let u := toUpperCase s in
          if existsb (fun n => includes u n) negative then false
          else if existsb (fun t => includes u (trim t)) BIZ_LIKE_TOKENS then false
          else
            let cleaned :=
              trim (replace_runs is_space (str " ") (replace_runs is_punct (str " ") s)) in
            let parts := filter_Boolean (split " " cleaned) in
            if List.length parts <? 2 then false
            else if existsb (fun p => test_any is_digit p || is_address_token p) parts then false
            else
              let shortTokens := filter (fun p => List.length p <=? 2) parts in
              if List.length parts - 1 <=? List.length shortTokens then false
              else true
  end.

(** *** splitPersonNames *)

Record PersonName := mkPerson {
  first : jsstring;
  middle : option jsstring;
  last : jsstring;
  full : jsstring
}.

(** Length of the longest prefix of [s] inside the class [p]. *)
Fixpoint span_len (p : ascii -> bool) (s : jsstring) : nat :=
  match s with
  | [] => 0
  | c :: s' => if p c then S (span_len p s') else 0
  end.

(** One match attempt of
    [/\s+&\s+|\s+AND\s+|\s*\/\s*|;|\|/i] at the head of [s]: the length
    of the match, the alternatives tried from left to right.  The
    quantifiers are greedy and the character after a [\s] run is never a
    space, so the run is taken whole. *)
Definition match_sep (s : jsstring) : option nat :=
  let n := span_len is_space s in
  let r := skipn n s in
  let after k := span_len is_space (skipn k r) in
  if (0 <? n) && starts_with (str "&") r && (0 <? after 1) then Some (n + 1 + after 1)
  else if (0 <? n) && starts_with_ci (str "AND") r && (0 <? after 3) then Some (n + 3 + after 3)
  else if starts_with (str "/") r then Some (n + 1 + after 1)
  else if starts_with (str ";") s then Some 1
  else if starts_with (str "|") s then Some 1
  else None.

(** [s.replace(/\s+&\s+|\s+AND\s+|\s*\/\s*|;|\|/gi, "|")]: scan from the
    left; [skip] counts the characters of the current match that are
    still to be passed over. *)
Fixpoint replace_sep_from (skip : nat) (s : jsstring) : jsstring :=
  match s with
  | [] => []
  | c :: s' =>
      match skip with
      | S k => replace_sep_from k s'
      | 0 =>
          match match_sep s with
          | Some n => "|"%char :: replace_sep_from (n - 1) s'
          | None => c :: replace_sep_from 0 s'
          end
      end
  end.

Definition replace_sep (s : jsstring) : jsstring := replace_sep_from 0 s.

(** [/^(MR|MRS|MS|DR|MISS)\.?/i], first match removed: at the start of
    the string the first alternative that is a prefix wins, then an
    optional dot. *)
Definition titles : list jsstring := map str ["MR"; "MRS"; "MS"; "DR"; "MISS"]%string.

Definition strip_title (s : jsstring) : jsstring :=
  match find (fun t => starts_with_ci t s) titles with
  | Some t =>
      match skipn (List.length t) s with
      | "."%char :: r => r
      | r => r
      end
  | None => s
  end.

(** [/\b(JR|SR|II|III|IV|V|MD|ESQ|PHD)\.?$/i], first match removed: the
    leftmost position after a word boundary from which the rest of the
    string is one of the suffixes, with or without a final dot. *)
Definition suffixes : list jsstring :=
  map str ["JR"; "SR"; "II"; "III"; "IV"; "V"; "MD"; "ESQ"; "PHD"]%string.

Definition is_suffix_tail (s : jsstring) : bool :=
  existsb (fun t => eq_ci t s || eq_ci (t ++ str ".") s) suffixes.

Fixpoint strip_suffix_from (prev_word : bool) (s : jsstring) : jsstring :=
  match s with
  | [] => []
  | c :: s' =>
      if negb prev_word && is_suffix_tail s then []
      else c :: strip_suffix_from (is_word c) s'
  end.

Definition strip_suffix (s : jsstring) : jsstring := strip_suffix_from false s.

(** [/^(DE|DA|DEL|LA|VAN|VON|MC|MAC|O')$/i] *)
Definition particles : list jsstring :=
  map str ["DE"; "DA"; "DEL"; "LA"; "VAN"; "VON"; "MC"; "MAC"; "O'"]%string.

Definition is_particle (t : jsstring) : bool :=
  existsb (fun p => eq_ci p t) particles.

(** [part.replace(/^\(+|\)+$/g, "")] *)
Definition strip_parens (s : jsstring) : jsstring :=
  drop_while_end (Ascii.eqb ")") (drop_while (Ascii.eqb "(") s).

(** 'LAST, FIRST [MIDDLE]' becomes 'FIRST MIDDLE LAST'. *)
Definition reorder_comma (part : jsstring) : jsstring :=
  if test_any (Ascii.eqb ",") part then
    let pieces := filter_Boolean (map trim (split "," part)) in
    match pieces with
    | lastp :: (_ :: _) as rest => join (str " ") rest ++ str " " ++ lastp
    | _ => part
    end
  else part.

(** The segments of the owner string, after the separators are
    normalized. *)
Definition segments (s : jsstring) : list jsstring :=
  filter_Boolean (map trim (split "|" (replace_sep s))).

(** The text of a segment that [isLikelyPersonName] is asked about. *)
Definition candidate (part : jsstring) : jsstring :=
  trim (strip_parens (reorder_comma part)).

(** [tokens.slice(1, -k).join(" ")] *)
Definition slice_1_minus (k : nat) (tokens : list jsstring) : list jsstring :=
  firstn (List.length tokens - k - 1) (skipn 1 tokens).

(** [tokens.slice(-2)] *)
Definition last_two (tokens : list jsstring) : list jsstring :=
  skipn (List.length tokens - 2) tokens.

(** [middle || undefined] *)
Definition or_undefined (m : jsstring) : option jsstring :=
  match m with [] => None | _ => Some m end.

(** The part of the loop body after the person test. *)
Definition parse_person (cand : jsstring) : option PersonName :=
  let part := trim (strip_suffix (strip_title cand)) in
  let tokens := split_ws part in
  match tokens with
  | [] => None
  | [t0] => Some (mkPerson t0 None [] part)
  | [t0; t1] => Some (mkPerson t0 None t1 part)
  | t0 :: _ =>
      let secondLast := nth (List.length tokens - 2) tokens [] in
      if is_particle secondLast then
        Some (mkPerson t0 (or_undefined (join (str " ") (slice_1_minus 2 tokens)))
                       (join (str " ") (last_two tokens)) part)
      else
        Some (mkPerson t0 (or_undefined (join (str " ") (slice_1_minus 1 tokens)))
                       (nth (List.length tokens - 1) tokens []) part)
  end.

(** The [for (let part of parts)] loop. *)
Fixpoint split_loop (parts : list jsstring) : list PersonName :=
  match parts with
  | [] => []
  | part :: rest =>
      let cand := candidate part in
      if negb (isLikelyPersonName (Some cand)) then split_loop rest
      else
        match parse_person cand with
        | None => split_loop rest
        | Some p => p :: split_loop rest
        end
  end.

Definition splitPersonNames (raw : option jsstring) : list PersonName :=
  match raw with
  | None => []
  | Some r =>
      if negb (nonempty r) then []
      else
        let s := trim r in
        if negb (nonempty s) then []
        else split_loop (segments s)
  end.

(** *** normalizeOwnerKey *)

(** The class of [/[^a-z0-9\s']/gi] is the complement of these. *)
Definition is_key_char (c : ascii) : bool :=
  is_letter c || is_digit c || is_space c || Ascii.eqb c "'".

Definition normalizeOwnerKey (raw : option jsstring) : jsstring :=
  match raw with
  | None => []
  | Some r =>
      if negb (nonempty r) then []
      else
        match splitPersonNames raw with
        | [] => []
        | p :: _ =>
            let key := toLowerCase (trim (first p ++ str " " ++ last p)) in
            replace_runs is_space (str " ") (remove_all (fun c => negb (is_key_char c)) key)
        end
  end.

(** *** zip5 *)

Definition zip5 (v : option jsstring) : option jsstring :=
  match v with
  | None => None
  | Some s =>
      let only := remove_all (fun c => negb (is_digit c)) s in
      if List.length only <? 5 then None
      else
        let five := firstn 5 only in
        if List.length five =? 5 then Some five else None
  end.

(** *** approxMedianFromBins *)

Record bin := mkBin { label : jsstring; count : Q }.
Record range := mkRange { lo : option Q; hi : option Q }.

(** [x || 0] on a number. *)
Definition or_zero (x : Q) : Q := if Qeq_bool x 0 then 0%Q else x.

(** [x ?? d] *)
Definition nullish (x : option Q) (d : Q) : Q :=
  match x with Some v => v | None => d end.

(** [ranges[i] || {}] *)
Definition range_at (ranges : list range) (i : nat) : range :=
  nth i ranges (mkRange None None).

(** The value returned from inside the loop for the bucket [r]. *)
Definition bucket_value (r : range) : Q :=
  let l := nullish (lo r) 0%Q in
  let h := nullish (hi r) l in
  if Qle_bool h l then l else ((l + h) / 2)%Q.

(** The [for] loop, entered at index [i] with [cum] accumulated. *)
Fixpoint median_loop (ranges : list range) (half : Q) (i : nat) (cum : Q)
         (bins : list bin) : Q :=
  match bins with
  | [] => 0%Q
  | b :: bs =>
      let cum' := (cum + or_zero (count b))%Q in
      if Qle_bool half cum' then bucket_value (range_at ranges i)
      else median_loop ranges half (S i) cum' bs
  end.

Definition total_count (bins : list bin) : Q :=
  fold_left (fun s b => (s + or_zero (count b))%Q) bins 0%Q.

Definition approxMedianFromBins (bins : list bin) (ranges : list range) : Q :=
  let total := total_count bins in
  if Qeq_bool total 0 then 0%Q
  else median_loop ranges (total / 2)%Q 0 0%Q bins.

(** The count accumulated by the loop when it has added bucket [i]. *)
Definition cum_count (bins : list bin) (i : nat) : Q := total_count (firstn (S i) bins).

(** Bucket [i] is the first one whose cumulative count is at least half
    of the total. *)
Definition first_half_bucket (bins : list bin) (i : nat) : Prop :=
  i < List.length bins /\
  (forall j, j < i -> (cum_count bins j < total_count bins / 2)%Q) /\
  (total_count bins / 2 <= cum_count bins i)%Q.

(** The midpoint of a bucket, or its lower bound when it has no upper
    bound. *)
Definition midpoint_or_lower (r : range) : Q :=
  match hi r with
  | Some h => ((nullish (lo r) 0 + h) / 2)%Q
  | None => nullish (lo r) 0%Q
  end.

(** The statement about [approxMedianFromBins] without a condition on
    the total. *)
Definition median_is_first_half_bucket : Prop :=
  forall bins ranges i,
    first_half_bucket bins i ->
    (approxMedianFromBins bins ranges == midpoint_or_lower (range_at ranges i))%Q.

(** *** Vocabulary of the statements about names *)

(** A non-empty string of letters. *)
Definition is_alpha_word (w : jsstring) : bool := nonempty w && forallb is_letter w.

(** A non-empty string of lower-case letters. *)
Definition is_lower_word (w : jsstring) : bool := nonempty w && forallb is_lower w.

(** No entry of the negative list occurs in the upper-case form. *)
Definition no_negative_token (s : jsstring) : bool :=
  negb (existsb (fun n => includes (toUpperCase s) n) negative).

(** No business token, without the spaces around it, occurs in the
    upper-case form. *)
Definition no_business_token (s : jsstring) : bool :=
  negb (existsb (fun t => includes (toUpperCase s) (trim t)) BIZ_LIKE_TOKENS).

(** The word does not begin with a title. *)
Definition no_title (w : jsstring) : bool :=
  negb (existsb (fun t => starts_with_ci t w) titles).

(** Two words with one space between them. *)
Definition two_words (w1 w2 : jsstring) : jsstring := w1 ++ str " " ++ w2.

(** The statement about [isLikelyPersonName] on two alphabetic tokens,
    without a condition on the length or the kind of the tokens. *)
Definition every_two_token_name_is_a_person : Prop :=
  forall w1 w2,
    is_alpha_word w1 = true -> is_alpha_word w2 = true ->
    no_negative_token (two_words w1 w2) = true ->
    no_business_token (two_words w1 w2) = true ->
    isLikelyPersonName (Some (two_words w1 w2)) = true /\
    classifyOwner (Some (two_words w1 w2)) = residential.

(** How many of the tokens of a person the last name takes: none of a
    single token, one of two, and of three or more the last two when
    the last but one is a particle (de, da, del, la, van, von, mc, mac,
    o') and the last one otherwise. *)
Definition last_name_size (tokens : list jsstring) : nat :=
  match tokens with
  | [] => 0
  | [_] => 0
  | [_; _] => 1
  | _ :: _ => if is_particle (nth (List.length tokens - 2) tokens []) then 2 else 1
  end.

(** The statement about [classifyOwner] with the tokens as they are
    named (LLC, INC, CORP, TRUST, HOLDINGS, ...), that is without the
    spaces the table puts around them: a name that contains one,
    whatever the case of its letters, is a business. *)
Definition named_token_means_business : Prop :=
  forall name t,
    In t (map trim BIZ_LIKE_TOKENS) ->
    includes (toUpperCase name) t = true ->
    classifyOwner (Some name) = business.

(** The statement that every output of [normalizeOwnerKey] is a fixed
    point of it. *)
Definition normalizeOwnerKey_idempotent : Prop :=
  forall raw,
    normalizeOwnerKey (Some (normalizeOwnerKey raw)) = normalizeOwnerKey raw.

(** *** normalizeAddress, normalizeOwnerName *)

(** The class [\t\n\r]. *)
Definition is_tab_nl_cr (c : ascii) : bool :=
  (code c =? 9)%N || (code c =? 10)%N || (code c =? 13)%N.

Definition normalizeAddress (raw : option jsstring) : jsstring :=
  match raw with
  | None => []
  | Some r =>
      if negb (nonempty r) then []
      else
        let s := trim r in
        let s := replace_runs is_tab_nl_cr (str " ") s in
        trim (replace_runs is_space (str " ") s)
  end.

(** The punctuation [normalizeOwnerName] takes out: the double quote
    and the characters of # $ % ^ & * + = < > ( ) [ ] { } : ; ~ and the
    back quote. *)
Definition noise_chars : jsstring :=
  "034"%char :: str "#$%^&*+=<>()[]{}:;~`".

Definition is_noise (c : ascii) : bool := existsb (Ascii.eqb c) noise_chars.

(** [t.length > 0 ? t[0].toUpperCase() + t.slice(1) : t] *)
Definition capitalize (t : jsstring) : jsstring :=
  match t with
  | [] => []
  | c :: r => upper_char c :: r
  end.

Definition normalizeOwnerName (raw : option jsstring) : jsstring :=
  match raw with
  | None => []
  | Some r =>
      if negb (nonempty r) then []
      else
        let s := trim r in
        let s := replace_runs is_noise (str " ") s in
        let s := trim (replace_runs is_space (str " ") s) in
        let s := toLowerCase s in
        join (str " ") (map capitalize (split " " s))
  end.

(** *** The CSV field escape of exportCSV (and of CSVBuilder.esc) *)

Definition dquote : ascii := "034"%char.
Definition newline : ascii := "010"%char.

(** Every double quote of [s] doubled. *)
Definition double_quotes (s : jsstring) : jsstring :=
  flat_map (fun c => if Ascii.eqb c dquote then [dquote; dquote] else [c]) s.

(** The characters that make a field need quoting. *)
Definition is_csv_special (c : ascii) : bool :=
  Ascii.eqb c dquote || Ascii.eqb c "," || Ascii.eqb c newline.

(** [esc(v)], for a value that is a string or null. *)
Definition esc (v : option jsstring) : jsstring :=
  match v with
  | None => []
  | Some v =>
      let s := double_quotes v in
      if test_any is_csv_special s then dquote :: s ++ [dquote] else s
  end.

(** A row object: the value of a column as a string, or null. *)
Definition record := jsstring -> option jsstring.

(** [headers.map((h) => esc(r[h])).join(",")] *)
Definition csv_record_line (headers : list jsstring) (r : record) : jsstring :=
  join (str ",") (map (fun h => esc (r h)) headers).

(** The text [exportCSV] delivers; [None] when there are no rows, and
    nothing is delivered. *)
Definition exportCSV (rows : list record) (headers : list jsstring) : option jsstring :=
  match rows with
  | [] => None
  | _ => Some (join [newline] (join (str ",") headers :: map (csv_record_line headers) rows))
  end.

(** *** Vocabulary of the statements about words and keys *)

(** A word: not empty and without white space. *)
Definition word_ok (w : jsstring) : Prop :=
  w <> [] /\ forallb (fun c => negb (is_space c)) w = true.

Definition all_space (s : jsstring) : Prop := forallb is_space s = true.

(** The string begins and ends outside white space, or is empty. *)
Definition ends_ok (m : jsstring) : Prop :=
  match m with [] => True | c :: _ => is_space c = false end /\
  match rev m with [] => True | c :: _ => is_space c = false end.

(** A word in lower case with its first character in upper case. *)
Definition title_case (w : jsstring) : jsstring := capitalize (toLowerCase w).

(** The words of the name, the punctuation taken out counting as
    white space. *)
Definition name_words (r : jsstring) : list jsstring :=
  split_ws (replace_runs is_noise (str " ") (trim r)).

(** The characters of a key: the space, lower-case letters, digits and
    the apostrophe. *)
Definition key_ok (c : ascii) : bool :=
  Ascii.eqb c " " || is_lower c || is_digit c || Ascii.eqb c "'".

(** No two spaces in a row ([prev_space]: the character before the
    string is a space). *)
Fixpoint single_spaced (prev_space : bool) (s : jsstring) : bool :=
  match s with
  | [] => true
  | c :: s' =>
      if Ascii.eqb c " " then negb prev_space && single_spaced true s'
      else single_spaced false s'
  end.

(** 'LAST, FIRST' *)
Definition last_comma_first (w1 w2 : jsstring) : jsstring := w2 ++ str ", " ++ w1.

End Utils.

(* ================================================================== *)
(** ** lib/api.ts *)
(* ================================================================== *)

Module Api.
Import Str.

(** A thrown value: an [Error] or a [DOMException], by name and message. *)
Record js_error := mkError { err_name : jsstring; err_message : jsstring }.

(** [new Error(m)] *)
Definition Error (m : jsstring) : js_error := mkError (str "Error") m.

(** [new DOMException("Aborted", "AbortError")] *)
Definition AbortError : js_error := mkError (str "AbortError") (str "Aborted").

(** What [fetch] rejects with when its signal is aborted. *)
Definition fetch_aborted : js_error :=
  mkError (str "AbortError") (str "The operation was aborted.").

Inductive result (A : Type) : Type :=
| Return (a : A)
| Throw (e : js_error).
Arguments Return {A} a.
Arguments Throw {A} e.

(** [res.ok] *)
Definition ok (status : nat) : bool := (200 <=? status) && (status <=? 299).

(** The decimal numeral of a status code, as in a template literal. *)
Definition decimal (n : nat) : jsstring := str (NilEmpty.string_of_uint (Nat.to_uint n)).

(** [String(e?.message || e)] *)
Definition error_text (e : js_error) : jsstring :=
  if nonempty (err_message e) then err_message e else err_name e.

(** [/HTTP (429|5\d\d)/] matched at the head of [m] ... *)
Definition match_transient (m : jsstring) : bool :=
  starts_with (str "HTTP 429") m
  || (starts_with (str "HTTP 5") m
      && match skipn 6 m with
         | a :: b :: _ => is_digit a && is_digit b
         | _ => false
         end).

(** ... and [.test], which looks for a match at every position. *)
Fixpoint test_transient (m : jsstring) : bool :=
  match_transient m ||
  match m with
  | [] => false
  | _ :: m' => test_transient m'
  end.

(** When the caller's signal is aborted: while request number [k] is in
    flight, or while the loop waits after the failure of request [k]. *)
Inductive abort_point :=
| DuringRequest (k : nat)
| DuringWait (k : nat).

Section Fetch.

(** Decoded payloads, and the message of the error object a payload
    carries ([json.error?.message || json.error || "ArcGIS error"]
    when [json?.error] is truthy). *)
Variable J : Type.
Variable embedded_error : J -> option jsstring.

(** What the transport answers to a request. *)
Inductive reply :=
| Rejected (e : js_error)
| Response (status : nat) (json : J).

(** The part of [fetchJSON] after [await fetch(...)]. *)
Definition fetchJSON (r : reply) : result J :=
  match r with
  | Rejected e => Throw e
  | Response status json =>
      if negb (ok status) then Throw (Error (str "HTTP " ++ decimal status))
      else
        match embedded_error json with
        | Some m => Throw (Error m)
        | None => Return json
        end
  end.

(** The world a call of [fetchJSONWithRetry] runs in: the reply to the
    [n]-th request it issues, the moment its signal is aborted ([None]:
    no signal, or never aborted), and the delays the engine computes.
    [delay_ms base attempt] is the value of
    [Math.round(base * Math.pow(1.7, attempt) * (0.7 + Math.random() * 0.6))]
    at that point of the run: binary64 arithmetic on a random number and
    on a power the engine approximates, so the model takes the value
    from the world and says nothing about its size. *)
Record network := mkNetwork {
  reply_of : nat -> reply;
  abort : option abort_point;
  delay_ms : Q -> nat -> Z
}.

Variable net : network.

(** [fetchJSON(url, body, signal)] for request number [n]: a request
    whose signal is aborted rejects.  How [fetchJSON] builds the URL and
    the options only decides what is sent. *)
Definition request (n : nat) : result J :=
  match abort net with
  | Some (DuringRequest k) => if k <=? n then Throw fetch_aborted else fetchJSON (reply_of net n)
  | Some (DuringWait k) => if k <? n then Throw fetch_aborted else fetchJSON (reply_of net n)
  | None => fetchJSON (reply_of net n)
  end.

(** [signal?.aborted], read after request number [n] has failed. *)
Definition aborted_after (n : nat) : bool :=
  match abort net with
  | Some (DuringRequest k) => k <=? n
  | Some (DuringWait k) => k <? n
  | None => false
  end.

(** The abort event fires before the timer of the wait that follows
    request number [n]. *)
Definition aborted_in_wait (n : nat) : bool :=
  match abort net with
  | Some (DuringWait k) => k =? n
  | _ => false
  end.

Record run := mkRun {
  outcome : result J;
  (** calls of [fetchJSON] *)
  attempts : nat;
  (** the delays waited for, in order *)
  delays : list Z
}.

Section Retry.

Variable retries : nat.
Variable baseDelayMs : Q.

(** The [while (true)] loop: [attempt] is the loop variable, [calls]
    the number of requests issued so far, [waited] the delays so far.
    [None] when [fuel] iterations do not finish it. *)
Fixpoint retry_loop (fuel : nat) (attempt calls : nat) (waited : list Z) : option run :=
  match fuel with
  | 0 => None
  | S fuel' =>
      match request calls with
      | Return json => Some (mkRun (Return json) (S calls) waited)
      | Throw e =>
          let retriable := test_transient (error_text e) in
          if negb retriable || (retries <=? attempt) || aborted_after calls
          then Some (mkRun (Throw e) (S calls) waited)
          else
            let delay := delay_ms net baseDelayMs attempt in
            if aborted_in_wait calls
            then Some (mkRun (Throw AbortError) (S calls) (waited ++ [delay]))
            else retry_loop fuel' (S attempt) (S calls) (waited ++ [delay])
      end
  end.

Definition fetchJSONWithRetry : option run := retry_loop (S retries) 0 0 [].

End Retry.
End Fetch.

(** Sample delays in milliseconds, one per attempt. *)
Definition sample_delays (base : Q) (attempt : nat) : Z :=
  nth attempt [550; 935; 1589; 2702; 4594]%Z 0%Z.

(** Two sample worlds: two 503 answers and then a success; 503 for
    ever, with the signal aborted during the second wait. *)
Definition flaky_network : network nat :=
  mkNetwork nat (fun n => if n <? 2 then Response nat 503 0 else Response nat 200 42)
            None sample_delays.

Definition cancelled_network : network nat :=
  mkNetwork nat (fun _ => Response nat 503 0) (Some (DuringWait 1)) sample_delays.

(** The same, with the signal aborted while the second request is in
    flight. *)
Definition cancelled_request_network : network nat :=
  mkNetwork nat (fun _ => Response nat 503 0) (Some (DuringRequest 1)) sample_delays.

End Api.

(* ================================================================== *)
(** ** App.tsx: the Export Center *)
(* ================================================================== *)

Module ExportCenter.
Import Str Utils Api.

Inductive OwnerScope := both | only (t : owner_type).
Inductive ExportMode := single | perZip.

Record ZipRow := mkZipRow { zip : jsstring; zcount : nat }.

(** The lines [appendLog] is called with (the time stamp in front of a
    line is left out). *)
Inductive log_line :=
| LogEstimated (zips : nat) (expected : nat)
| LogNoPrecount
| LogStarting (z : jsstring)
| LogFinished (z : jsstring) (rows : nat)
| LogComplete
| LogCancelled
| LogError (msg : jsstring).

(** The React state of the Export Center, and [abortRef.current !== null]. *)
Record rstate := mkState {
  exportRunning : bool;
  exportError : option jsstring;
  exportLog : list log_line;
  exportTotalRows : nat;
  exportTotalExpected : option nat;
  perZipProgress : list (jsstring * (nat * nat));
  abortRef : bool
}.

Definition initial_state : rstate := mkState false None [] 0 None [] false.

Definition setExportRunning (b : bool) (s : rstate) : rstate :=
  mkState b (exportError s) (exportLog s) (exportTotalRows s) (exportTotalExpected s)
          (perZipProgress s) (abortRef s).
Definition setExportError (e : option jsstring) (s : rstate) : rstate :=
  mkState (exportRunning s) e (exportLog s) (exportTotalRows s) (exportTotalExpected s)
          (perZipProgress s) (abortRef s).
Definition setExportLog (f : list log_line -> list log_line) (s : rstate) : rstate :=
  mkState (exportRunning s) (exportError s) (f (exportLog s)) (exportTotalRows s)
          (exportTotalExpected s) (perZipProgress s) (abortRef s).
Definition setExportTotalRows (f : nat -> nat) (s : rstate) : rstate :=
  mkState (exportRunning s) (exportError s) (exportLog s) (f (exportTotalRows s))
          (exportTotalExpected s) (perZipProgress s) (abortRef s).
Definition setExportTotalExpected (n : option nat) (s : rstate) : rstate :=
  mkState (exportRunning s) (exportError s) (exportLog s) (exportTotalRows s) n
          (perZipProgress s) (abortRef s).
Definition setPerZipProgress
           (f : list (jsstring * (nat * nat)) -> list (jsstring * (nat * nat)))
           (s : rstate) : rstate :=
  mkState (exportRunning s) (exportError s) (exportLog s) (exportTotalRows s)
          (exportTotalExpected s) (f (perZipProgress s)) (abortRef s).
Definition setAbortRef (b : bool) (s : rstate) : rstate :=
  mkState (exportRunning s) (exportError s) (exportLog s) (exportTotalRows s)
          (exportTotalExpected s) (perZipProgress s) b.

(** [{ ...p, [k]: v }] on an object used as a map. *)
Fixpoint assoc_set {V : Type} (k : jsstring) (v : V) (m : list (jsstring * V))
  : list (jsstring * V) :=
  match m with
  | [] => [(k, v)]
  | (k', v') :: m' =>
      if list_eq_dec ascii_dec k k' then (k, v) :: m' else (k', v') :: assoc_set k v m'
  end.

(** [[...l, line].slice(-500)] *)
Definition appendLog (line : log_line) (s : rstate) : rstate :=
  setExportLog (fun l => let l' := l ++ [line] in skipn (List.length l' - 500) l') s.

(** [chunkArray(arr, size)]; [None] when the loop does not end
    ([size = 0] on a non-empty array). *)
Fixpoint chunk_from {T : Type} (fuel size : nat) (arr : list T) : list (list T) :=
  match fuel, arr with
  | _, [] => []
  | 0, _ => []
  | S fuel', _ => firstn size arr :: chunk_from fuel' size (skipn size arr)
  end.

Definition chunkArray {T : Type} (arr : list T) (size : nat) : option (list (list T)) :=
  match arr, size with
  | [], _ => Some []
  | _, 0 => None
  | _, _ => Some (chunk_from (List.length arr) size arr)
  end.

(** How a piece of the job ends: normally, by a throw, or not within
    the steps allowed. *)
Inductive outcome (A : Type) : Type :=
| Done (a : A)
| Raise (e : js_error)
| OutOfFuel.
Arguments Done {A} a.
Arguments Raise {A} e.
Arguments OutOfFuel {A}.

Section Job.

(** The attributes of a feature of the parcels layer. *)
Variable Attrs : Type.
Variable py_owner_name : Attrs -> option jsstring.
Variable situs_zip : Attrs -> option jsstring.

(** A feature's attributes with the two computed fields. *)
Record Row := mkRow {
  attributes : Attrs;
  _zip5 : option jsstring;
  _owner_type : owner_type
}.

Definition enrich (a : Attrs) : Row :=
  mkRow a (zip5 (situs_zip a)) (classifyOwner (py_owner_name a)).

(** One CSV line of a row under the builder's headers: the projection
    to the selected columns, [formatUSD] and [CSVBuilder.esc]. *)
Variable csv_line : list jsstring -> Row -> jsstring.

Definition ownerPasses (type : OwnerScope) (name : option jsstring) : bool :=
  match type with
  | both => true
  | only business =>
      match classifyOwner name with business => true | residential => false end
  | only residential =>
      match classifyOwner name with residential => true | business => false end
  end.

(** [CSVBuilder]: the headers and the parts pushed so far. *)
Record CSVBuilder := mkCSV { headers : list jsstring; parts : list jsstring }.

Definition newCSVBuilder (hs : list jsstring) : CSVBuilder :=
  mkCSV hs [join (str ",") hs ++ str (String "010" "")].

Definition appendRows (b : CSVBuilder) (objs : list Row) : CSVBuilder :=
  match objs with
  | [] => b
  | _ =>
      mkCSV (headers b)
            (parts b ++ [join (str (String "010" "")) (map (csv_line (headers b)) objs)
                         ++ str (String "010" "")])
  end.

(** What the user has chosen in the Export Center. *)
Record job := mkJob {
  exportZipList : list ZipRow;
  ownerScope : OwnerScope;
  exportMode : ExportMode;
  filePrefix : jsstring;
  throttleMs : nat;
  webhookUrl : jsstring;
  webhookBatchSize : nat;
  pageSize : nat;
  (** [computedColumnKeys] as labels, and the same with the ZIP column
      in front when it is not selected *)
  columnHeaders : list jsstring;
  singleHeaders : list jsstring
}.

(** The body of a request to the parcels layer. *)
Inductive query :=
| CountQuery (z : jsstring)
| PageQuery (z : jsstring) (resultOffset resultRecordCount : nat).

(** The decoded answer: [Number(res.count || 0)] and [res.features || []]. *)
Record payload := mkPayload { p_count : nat; p_features : list Attrs }.

(** The webhook's answer to a POST. *)
Inductive post_answer :=
| PostRejected (e : js_error)
| PostStatus (status : nat).

(** What the job does to the outside, in order. *)
Inductive event :=
| EvQuery (q : query)
| EvPost (batch : list Row) (a : post_answer)
| EvSleep (ms : nat)
| EvDownload (filename : jsstring) (content : list jsstring).

(** The outside of a job: the outcome of its [n]-th call of
    [fetchJSONWithRetry] (retries included), the answer to its [n]-th
    webhook POST, and the await during which the user presses Cancel
    ([None]: never).  An operation awaited while or after the signal is
    aborted rejects with an [AbortError]. *)
Record service := mkService {
  query_result : nat -> result payload;
  post_reply : nat -> post_answer;
  cancel_at : option nat
}.

Record world := mkWorld {
  ui : rstate;
  (** awaits so far *)
  clock : nat;
  n_queries : nat;
  n_posts : nat;
  trace : list event
}.

Definition on_ui (f : rstate -> rstate) (w : world) : world :=
  mkWorld (f (ui w)) (clock w) (n_queries w) (n_posts w) (trace w).

Definition M (A : Type) : Type := world -> outcome A * world.

Definition ret {A} (a : A) : M A := fun w => (Done a, w).
Definition throw {A} (e : js_error) : M A := fun w => (Raise e, w).
Definition out_of_fuel {A} : M A := fun w => (OutOfFuel, w).

Definition bind {A B} (m : M A) (k : A -> M B) : M B :=
  fun w =>
    match m w with
    | (Done a, w') => k a w'
    | (Raise e, w') => (Raise e, w')
    | (OutOfFuel, w') => (OutOfFuel, w')
    end.

Notation "x <- m ;; k" := (bind m (fun x => k))
  (at level 61, m at next level, right associativity).
Notation "m ;;; k" := (bind m (fun _ => k))
  (at level 61, right associativity).

(** [try { m } catch (e) { h e }] *)
Definition try_catch {A} (m : M A) (h : js_error -> M A) : M A :=
  fun w =>
    match m w with
    | (Raise e, w') => h e w'
    | r => r
    end.

(** [try { m } finally { f }], for an [f] that cannot throw. *)
Definition try_finally {A} (m : M A) (f : world -> world) : M A :=
  fun w =>
    match m w with
    | (OutOfFuel, w') => (OutOfFuel, w')
    | (r, w') => (r, f w')
    end.

Definition update (f : rstate -> rstate) : M unit := fun w => (Done tt, on_ui f w).

Variable srv : service.

(** [ctrl.signal.aborted] *)
Definition signal_aborted : M bool :=
  fun w =>
    (Done (match cancel_at srv with Some c => c <? clock w | None => false end), w).

(** One await: the clock advances; the answer is whether the signal is
    aborted by the end of it. *)
Definition await (ev : event) : M bool :=
  fun w =>
    (Done (match cancel_at srv with Some c => c <=? clock w | None => false end),
     mkWorld (ui w) (S (clock w)) (n_queries w) (n_posts w) (trace w ++ [ev])).

Definition next_query : M nat :=
  fun w => (Done (n_queries w), mkWorld (ui w) (clock w) (S (n_queries w)) (n_posts w) (trace w)).

Definition next_post : M nat :=
  fun w => (Done (n_posts w), mkWorld (ui w) (clock w) (n_queries w) (S (n_posts w)) (trace w)).

(** [await fetchJSONWithRetry(CONFIG.parcelsLayer + "/query", q, ctrl.signal)] *)
Definition fetchJSONWithRetry (q : query) : M payload :=
  n <- next_query ;;
  aborted <- await (EvQuery q) ;;
  if aborted : bool then throw AbortError
  else
    match query_result srv n with
    | Return p => ret p
    | Throw e => throw e
    end.

(** The answer a POST gets: none when the signal is aborted. *)
Definition answer_of (n : nat) (w : world) : post_answer :=
  match cancel_at srv with
  | Some c => if c <=? clock w then PostRejected AbortError else post_reply srv n
  | None => post_reply srv n
  end.

(** [await postNDJSON(url, objects, signal)] *)
Definition postNDJSON (objects : list Row) : M unit :=
  n <- next_post ;;
  a <- (fun w => (Done (answer_of n w), w)) ;;
  await (EvPost objects a) ;;;
  match a with
  | PostRejected e => throw e
  | PostStatus status =>
      if negb (ok status) then throw (Error (str "Webhook HTTP " ++ decimal status))
      else ret tt
  end.

(** [await sleep(ms, signal)] *)
Definition sleep (ms : nat) : M unit :=
  aborted <- await (EvSleep ms) ;;
  if aborted : bool then throw AbortError else ret tt.

(** [builder.download(filename)] *)
Definition download (b : CSVBuilder) (filename : jsstring) : M unit :=
  fun w =>
    (Done tt,
     mkWorld (ui w) (clock w) (n_queries w) (n_posts w)
             (trace w ++ [EvDownload filename (parts b)])).

Variable jb : job.

(** The [for (const b of batches) await postNDJSON(...)] loop. *)
Fixpoint post_batches (batches : list (list Row)) : M unit :=
  match batches with
  | [] => ret tt
  | b :: rest => postNDJSON b ;;; post_batches rest
  end.

(** The precount: [totals] is the object filled in the loop. *)
Fixpoint precount_loop (zs : list ZipRow) (totals : list (jsstring * nat))
  : M (list (jsstring * nat)) :=
  match zs with
  | [] => ret totals
  | z :: rest =>
      countRes <- fetchJSONWithRetry (CountQuery (zip z)) ;;
      precount_loop rest (assoc_set (zip z) (p_count countRes) totals)
  end.

Definition precount : M unit :=
  try_catch
    (totals <- precount_loop (exportZipList jb) [] ;;
     let expected := fold_left (fun a kv => a + snd kv) totals 0 in
     update (setExportTotalExpected (Some expected)) ;;;
     update (appendLog (LogEstimated (List.length (exportZipList jb)) expected)))
    (fun _ => update (appendLog LogNoPrecount)).

(** The builder rows of a page go to: the single one or the one of
    this ZIP. *)
Record builders := mkBuilders {
  singleBuilder : option CSVBuilder;
  perZipBuilder : option CSVBuilder
}.

Definition append_page (bs : builders) (rows : list Row) : builders :=
  match exportMode jb with
  | single => mkBuilders (option_map (fun b => appendRows b rows) (singleBuilder bs))
                         (perZipBuilder bs)
  | perZip => mkBuilders (singleBuilder bs)
                         (option_map (fun b => appendRows b rows) (perZipBuilder bs))
  end.

(** The [while (true)] loop over the pages of one ZIP; it gives back the
    builders and [processedForZip]. *)
Fixpoint page_loop (fuel : nat) (z : ZipRow) (zipTotal : nat)
         (offset processedForZip : nat) (bs : builders) : M (builders * nat) :=
  match fuel with
  | 0 => out_of_fuel
  | S fuel' =>
      aborted <- signal_aborted ;;
      if aborted : bool then throw AbortError
      else
        res <- fetchJSONWithRetry (PageQuery (zip z) offset (pageSize jb)) ;;
        let feats := p_features res in
        match feats with
        | [] => ret (bs, processedForZip)
        | _ =>
            let mapped0 := map enrich feats in
            let mapped :=
              match ownerScope jb with
              | both => mapped0
              | _ => filter (fun r => ownerPasses (ownerScope jb)
                                        (py_owner_name (attributes r))) mapped0
              end in
            let bs' := append_page bs mapped in
            (if nonempty (webhookUrl jb) then
               match chunkArray mapped (webhookBatchSize jb) with
               | Some batches => post_batches batches
               | None => out_of_fuel
               end
             else ret tt) ;;;
            let offset' := offset + List.length feats in
            let processed' := processedForZip + List.length feats in
            update (setPerZipProgress
                      (assoc_set (zip z)
                         (Nat.min processed' (if zipTotal =? 0 then processed' else zipTotal),
                          zipTotal))) ;;;
            update (setExportTotalRows (fun n => n + List.length feats)) ;;;
            (if 0 <? throttleMs jb then sleep (throttleMs jb) else ret tt) ;;;
            page_loop fuel' z zipTotal offset' processed' bs'
        end
  end.

(** The body of [for (const z of exportZipList)]. *)
Definition export_zip (fuel : nat) (z : ZipRow) (single_b : option CSVBuilder)
  : M (option CSVBuilder) :=
  aborted <- signal_aborted ;;
  if aborted : bool then throw AbortError
  else
    update (appendLog (LogStarting (zip z))) ;;;
    update (setPerZipProgress (assoc_set (zip z) (0, zcount z))) ;;;
    let perZip_b :=
      match exportMode jb with
      | perZip => Some (newCSVBuilder (columnHeaders jb))
      | single => None
      end in
    zipTotal <- try_catch
                  (cRes <- fetchJSONWithRetry (CountQuery (zip z)) ;; ret (p_count cRes))
                  (fun _ => ret (zcount z)) ;;
    update (setPerZipProgress (assoc_set (zip z) (0, zipTotal))) ;;;
    r <- page_loop fuel z zipTotal 0 0 (mkBuilders single_b perZip_b) ;;
    let '(bs, processedForZip) := r in
    match exportMode jb, perZipBuilder bs with
    | perZip, Some b => download b (filePrefix jb ++ str "_" ++ zip z ++ str ".csv")
    | _, _ => ret tt
    end ;;;
    update (appendLog (LogFinished (zip z) processedForZip)) ;;;
    ret (singleBuilder bs).

Fixpoint export_loop (fuel : nat) (zs : list ZipRow) (single_b : option CSVBuilder)
  : M (option CSVBuilder) :=
  match zs with
  | [] => ret single_b
  | z :: rest =>
      single_b' <- export_zip fuel z single_b ;;
      export_loop fuel rest single_b'
  end.

Definition scope_suffix : jsstring :=
  match ownerScope jb with
  | both => str "all"
  | only business => str "business"
  | only residential => str "residential"
  end.

(** The second [try] block. *)
Definition export_all (fuel : nat) (single_b : option CSVBuilder) : M unit :=
  single_b' <- export_loop fuel (exportZipList jb) single_b ;;
  match exportMode jb, single_b' with
  | single, Some b =>
      download b (filePrefix jb ++ str "_" ++ scope_suffix ++ str "_multi_zips.csv")
  | _, _ => ret tt
  end ;;;
  update (appendLog LogComplete).

(** Its [catch (e)] block. *)
Definition on_error (e : js_error) : M unit :=
  if list_eq_dec ascii_dec (err_name e) (str "AbortError") then
    update (appendLog LogCancelled)
  else
    let msg := error_text e in
    update (setExportError (Some msg)) ;;;
    update (appendLog (LogError msg)).

(** The statements of [startExport] up to the creation of the
    [AbortController]. *)
Definition startExport_enter (s : rstate) : rstate :=
  setAbortRef true
    (setExportTotalExpected None
       (setPerZipProgress (fun _ => [])
          (setExportTotalRows (fun _ => 0)
             (setExportLog (fun _ => [])
                (setExportRunning true
                   (setExportError None s)))))).

(** Its [finally] block. *)
Definition startExport_finally (s : rstate) : rstate :=
  setAbortRef false (setExportRunning false s).

Definition no_zips_message : jsstring :=
  str "No ZIPs to export. Choose a scope or provide custom ZIPs.".

Definition startExport (fuel : nat) : M unit :=
  match exportZipList jb with
  | [] => update (setExportError (Some no_zips_message))
  | _ =>
      update startExport_enter ;;;
      let single_b :=
        match exportMode jb with
        | single => Some (newCSVBuilder (singleHeaders jb))
        | perZip => None
        end in
      precount ;;;
      try_finally (try_catch (export_all fuel single_b) on_error)
                  (on_ui startExport_finally)
  end.

End Job.

Arguments attributes {Attrs} r.
Arguments ui {Attrs} w.
Arguments clock {Attrs} w.
Arguments n_queries {Attrs} w.
Arguments n_posts {Attrs} w.
Arguments trace {Attrs} w.
Arguments on_ui {Attrs} f w.
Arguments EvQuery {Attrs} q.
Arguments EvPost {Attrs} batch a.
Arguments EvSleep {Attrs} ms.
Arguments EvDownload {Attrs} filename content.
Arguments query_result {Attrs} s n.
Arguments post_reply {Attrs} s n.
Arguments cancel_at {Attrs} s.
Arguments p_count {Attrs} p.
Arguments p_features {Attrs} p.
Arguments ret {Attrs A} a w.
Arguments throw {Attrs A} e w.
Arguments out_of_fuel {Attrs A} w.
Arguments bind {Attrs A B} m k w.
Arguments try_catch {Attrs A} m h w.
Arguments try_finally {Attrs A} m f w.
Arguments update {Attrs} f w.
Arguments signal_aborted {Attrs} srv w.
Arguments await {Attrs} srv ev w.
Arguments next_query {Attrs} w.
Arguments next_post {Attrs} w.
Arguments fetchJSONWithRetry {Attrs} srv q w.
Arguments answer_of {Attrs} srv n w.
Arguments postNDJSON {Attrs} srv objects w.
Arguments sleep {Attrs} srv ms w.
Arguments download {Attrs} b filename w.
Arguments post_batches {Attrs} srv batches w.
Arguments precount_loop {Attrs} srv zs totals w.
Arguments precount {Attrs} srv jb w.
Arguments on_error {Attrs} e w.

(** The world before anything has happened. *)
Definition initial_world {Attrs : Type} : world Attrs := mkWorld Attrs initial_state 0 0 0 [].

(** The message of the failure [postNDJSON] throws for a status. *)
Definition webhook_error (status : nat) : js_error :=
  Error (str "Webhook HTTP " ++ decimal status).

(** *** Vocabulary of the statements about a job *)

Section Traces.

Context {Attrs : Type}.

(** In the events [new] a POST answered with a non-success status is
    the last event, and the piece of the job that made them ends by
    throwing the failure of that status. *)
Definition failed_post_last {A : Type} (new : list (event Attrs)) (r : outcome A) : Prop :=
  forall pre b status post,
    new = pre ++ EvPost b (PostStatus status) :: post ->
    ok status = false ->
    post = [] /\ r = Raise (webhook_error status).

(** No POST among the events. *)
Definition quiet (new : list (event Attrs)) : Prop :=
  forall b a, ~ In (EvPost b a) new.

Definition posts_fatal {A : Type} (m : M Attrs A) : Prop :=
  forall w, exists new,
    trace (snd (m w)) = trace w ++ new /\ failed_post_last new (fst (m w)).

Definition no_posts {A : Type} (m : M Attrs A) : Prop :=
  forall w, exists new, trace (snd (m w)) = trace w ++ new /\ quiet new.

End Traces.

(** A sample job: two ZIPs into one file, a webhook with batches of
    two rows; the first page of the first ZIP has three rows, and the
    webhook answers 200 to the first POST and 500 to the second. *)
Definition sample_job : job :=
  mkJob [mkZipRow (str "78701") 3; mkZipRow (str "78702") 0] both single (str "parcels")
        0 (str "https://hook.example") 2 500 [str "Owner"] [str "ZIP"; str "Owner"].

Definition sample_service : service nat :=
  mkService nat
    (fun n => Return (mkPayload nat 3 (if n =? 3 then [1; 2; 3] else [])))
    (fun n => if n =? 0 then PostStatus 200 else PostStatus 500)
    None.

Definition sample_owner (a : nat) : option jsstring := Some (str "John Smith").
Definition sample_zip (a : nat) : option jsstring := Some (str "78701-1234").
Definition sample_line (hs : list jsstring) (r : Row nat) : jsstring := str "x".

(** *** Vocabulary of the invariants of a job *)

Section Invariants.

Context {Attrs : Type}.

(** Every run of the piece [m] takes a world to one related to it by [T]. *)
Definition keeps {A : Type} (T : world Attrs -> world Attrs -> Prop) (m : M Attrs A) : Prop :=
  forall w, T w (snd (m w)).

(** The events added between two worlds are all of the kind [ev_ok]. *)
Definition adds_only (ev_ok : event Attrs -> Prop) (w w' : world Attrs) : Prop :=
  exists new, trace w' = trace w ++ new /\ Forall ev_ok new.

(** The property [P] of the page state is kept. *)
Definition ui_keeps (P : rstate -> Prop) (w w' : world Attrs) : Prop :=
  P (ui w) -> P (ui w').

Definition not_download (ev : event Attrs) : Prop :=
  match ev with EvDownload _ _ => False | _ => True end.

Definition not_post (ev : event Attrs) : Prop :=
  match ev with EvPost _ _ => False | _ => True end.

(** The world ends with an awaited operation, not with a delivery. *)
Definition ends_in_await (w : world Attrs) : Prop :=
  exists pre ev, trace w = pre ++ [ev] /\ not_download ev.

(** Awaits are not undone and the error shown is not touched. *)
Definition steady (w w' : world Attrs) : Prop :=
  clock w <= clock w' /\ exportError (ui w') = exportError (ui w).

(** The piece ended by throwing the [AbortError] of the cancellation. *)
Definition is_stop {A : Type} (r : outcome A) : Prop := r = Raise AbortError.

(** The piece ended normally. *)
Definition is_done {A : Type} (r : outcome A) : Prop :=
  match r with Done _ => True | _ => False end.

Variable srv : service Attrs.

(** A piece cancelled while it runs awaits nothing after the operation
    in flight, and ends. *)
Definition halts {A : Type} (m : M Attrs A) : Prop :=
  forall w c, cancel_at srv = Some c -> clock w <= c -> c < clock (snd (m w)) ->
              clock (snd (m w)) = S c /\ ends_in_await (snd (m w)) /\
              (is_stop (fst (m w)) \/ is_done (fst (m w))).

(** ... and it ends by throwing the [AbortError]. *)
Definition aborts {A : Type} (m : M Attrs A) : Prop :=
  forall w c, cancel_at srv = Some c -> clock w <= c -> c < clock (snd (m w)) ->
              clock (snd (m w)) = S c /\ ends_in_await (snd (m w)) /\ is_stop (fst (m w)).

(** A piece started after the cancellation does nothing to the outside. *)
Definition refuses {A : Type} (m : M Attrs A) : Prop :=
  forall w c, cancel_at srv = Some c -> c < clock w ->
              clock (snd (m w)) = clock w /\ trace (snd (m w)) = trace w /\
              is_stop (fst (m w)).

(** A piece that awaits nothing, delivers nothing and ends normally. *)
Definition silent {A : Type} (m : M Attrs A) : Prop :=
  forall w, clock (snd (m w)) = clock w /\ trace (snd (m w)) = trace w /\
            is_done (fst (m w)).

(** A run of the piece [m] that ends normally ends with a value that
    satisfies [Q]. *)
Definition returns {A : Type} (Q : A -> Prop) (m : M Attrs A) : Prop :=
  forall w, match fst (m w) with Done a => Q a | _ => True end.

End Invariants.

(** An entry of [perZipProgress] shows no more rows done than the
    total, unless the total is zero. *)
Definition progress_ok (e : jsstring * (nat * nat)) : Prop :=
  snd (snd e) = 0 \/ fst (snd e) <= snd (snd e).

Definition panel_ok (s : rstate) : Prop :=
  List.length (exportLog s) <= 500 /\ Forall progress_ok (perZipProgress s).

Section Batches.

Context {Attrs : Type}.
Variable py_owner_name : Attrs -> option jsstring.
Variable situs_zip : Attrs -> option jsstring.
Variable jb : job.

(** The rows of a page that go to the file and to the webhook. *)
Definition exported_row (r : Row Attrs) : Prop :=
  r = enrich Attrs py_owner_name situs_zip (attributes r) /\
  ownerPasses (ownerScope jb) (py_owner_name (attributes r)) = true.

Definition good_batch (b : list (Row Attrs)) : Prop :=
  b <> [] /\ List.length b <= webhookBatchSize jb /\
  nonempty (webhookUrl jb) = true /\ Forall exported_row b.

Definition post_ok (ev : event Attrs) : Prop :=
  match ev with EvPost b _ => good_batch b | _ => True end.

Variable csv_line : list jsstring -> Row Attrs -> jsstring.

(** The builder made with the headers [hs] after the pages [pages] were
    appended to it, in order. *)
Definition built_from (hs : list jsstring) (pages : list (list (Row Attrs))) : CSVBuilder :=
  fold_left (appendRows Attrs csv_line) pages (newCSVBuilder hs).

(** The single builder of a job, when there is one, holds pages of
    exported rows only. *)
Definition scoped_builder (ob : option CSVBuilder) : Prop :=
  forall b, ob = Some b ->
            exists pages,
              b = built_from (singleHeaders jb) pages /\
              Forall (Forall exported_row) pages.

End Batches.

(** [Number(countRes.count || 0)] of the outcome of a count query that
    was answered. *)
Definition count_of {Attrs : Type} (r : result (payload Attrs)) : nat :=
  match r with Return p => p_count p | Throw _ => 0 end.

(** A sample service whose user presses Cancel during the fourth
    awaited operation. *)
Definition cancelling_service : service nat :=
  mkService nat
    (fun n => Return (mkPayload nat 3 (if n =? 3 then [1; 2; 3] else [])))
    (fun n => PostStatus 200)
    (Some 4).

(** A sample service that answers every query and accepts every POST. *)
Definition willing_service : service nat :=
  mkService nat
    (fun n => Return (mkPayload nat 3 (if n =? 3 then [1; 2; 3] else [])))
    (fun n => PostStatus 200)
    None.

(** A sample service whose layer fails to answer the second query. *)
Definition failing_service : service nat :=
  mkService nat
    (fun n => if n =? 1 then Throw (Error (str "HTTP 500")) else Return (mkPayload nat 3 []))
    (fun n => PostStatus 200)
    None.

(** The fields of a sample row: its owner under the header "Owner". *)
Definition sample_fields (r : Row nat) : record :=
  fun h => if list_eq_dec ascii_dec h (str "Owner") then sample_owner (attributes r) else None.

(** *** The Start and Cancel buttons

    An export takes time: between the statements before the first
    [await] of [startExport] and its [finally] block the user can press
    buttons, and React renders the page again at times of its own.  A
    button's [disabled] attribute is the [exportRunning] of the last
    render, so a page carries that value beside the state.  [inflight]
    counts the calls of [startExport] that are between their first
    statement and their [finally] block. *)

Record panel := mkPanel { state : rstate; shown_running : bool; inflight : nat }.

Definition initial_panel : panel := mkPanel initial_state false 0.

Inductive action :=
| ClickStart (no_zips : bool)  (** the Start Export button; [no_zips] tells
                                   whether [exportZipList] is empty then *)
| ClickCancel                  (** the Cancel button *)
| Render                       (** React renders the page again *)
| JobSettles.                  (** the [finally] block of a running export *)

(** A call of [startExport], up to its first [await]: it does not read
    [exportRunning]. *)
Definition call_startExport (no_zips : bool) (p : panel) : panel :=
  if no_zips
  then mkPanel (setExportError (Some no_zips_message) (state p)) (shown_running p) (inflight p)
  else mkPanel (startExport_enter (state p)) (shown_running p) (S (inflight p)).

(** [<button disabled={exportRunning} onClick={startExport}>],
    [<button disabled={!exportRunning} onClick={cancelExport}>]: a
    button rendered disabled gives no click. *)
Definition step (p : panel) (a : action) : panel :=
  match a with
  | ClickStart no_zips => if shown_running p then p else call_startExport no_zips p
  | ClickCancel => p
  | Render => mkPanel (state p) (exportRunning (state p)) (inflight p)
  | JobSettles =>
      match inflight p with
      | 0 => p
      | S n => mkPanel (startExport_finally (state p)) (shown_running p) n
      end
  end.

Definition run_panel (p : panel) (acts : list action) : panel := fold_left step acts p.

(** The flag [exportRunning] tells whether a call of [startExport] is
    in flight. *)
Definition coherent (p : panel) : Prop :=
  inflight p = if exportRunning (state p) then 1 else 0.

(** The Start button is not behind the state: it is rendered disabled
    if [exportRunning] is true.  So it is on a page rendered after the
    flag last became true. *)
Definition up_to_date (p : panel) : bool :=
  shown_running p || negb (exportRunning (state p)).

(** Every click on Start in the run [acts] from [p] is made on a page
    that is up to date. *)
Fixpoint clicks_up_to_date (p : panel) (acts : list action) : bool :=
  match acts with
  | [] => true
  | a :: rest =>
      match a with ClickStart _ => up_to_date p | _ => true end
      && clicks_up_to_date (step p a) rest
  end.

(** The statement that at most one job is in flight, whatever the user
    clicks and whenever the page is rendered. *)
Definition one_job_at_a_time : Prop :=
  forall acts, inflight (run_panel initial_panel acts) <= 1.

End ExportCenter.

(* ================================================================== *)
(** ** App.tsx: counts per ZIP and the owner leaderboard *)
(* ================================================================== *)

Module DataLab.
Import Str Utils ExportCenter.

(** [m.get(k)] on a [Map] with string keys (or [m[k]] on an object whose
    keys are not names of [Object.prototype]), the entries in the order
    of insertion; [m.set(k, v)] is [assoc_set k v m]. *)
Fixpoint assoc_get {V : Type} (m : list (jsstring * V)) (k : jsstring) : option V :=
  match m with
  | [] => None
  | (k', v) :: m' => if list_eq_dec ascii_dec k k' then Some v else assoc_get m' k
  end.

Definition nmap := list (jsstring * nat).

(** [m.get(k) || 0] *)
Definition get_or_zero (m : nmap) (k : jsstring) : nat :=
  match assoc_get m k with Some v => v | None => 0 end.

(** [m.set(k, (m.get(k) || 0) + v)] *)
Definition map_add (m : nmap) (k : jsstring) (v : nat) : nmap :=
  assoc_set k (get_or_zero m k + v) m.

(** One row of a grouped statistics answer: the value of the grouping
    field, which may be null, and the statistic, a count or a sum of
    whole numbers. *)
Record group := mkGroup { g_key : option jsstring; g_value : nat }.

(** The bootstrap loop over the parcel counts grouped by [situs_zip]:
    [statsMap[z] = (statsMap[z] || 0) + count] for the rows whose ZIP
    has five digits. *)
Fixpoint zip_stats_from (statsMap : nmap) (features : list group) : nmap :=
  match features with
  | [] => statsMap
  | f :: rest =>
      match zip5 (g_key f) with
      | None => zip_stats_from statsMap rest
      | Some z => zip_stats_from (map_add statsMap z (g_value f)) rest
      end
  end.

Definition zip_stats (features : list group) : nmap := zip_stats_from [] features.

(** [feats.map((zip) => ({ zip, count: statsMap[zip] ?? 0 }))] *)
Definition zip_rows (feats : list jsstring) (statsMap : nmap) : list ZipRow :=
  map (fun z => mkZipRow z (get_or_zero statsMap z)) feats.

(** The Top ZIPs table of the Data Lab: [agg] maps a ZIP to its
    [{ parcels, total }]. *)
Definition zagg := list (jsstring * (nat * nat)).

(** [agg.get(z) || { parcels: 0, total: 0 }] *)
Definition agg_get (agg : zagg) (z : jsstring) : nat * nat :=
  match assoc_get agg z with Some cur => cur | None => (0, 0) end.

(** [for (const r of rawZ) { ...; cur.parcels += r.value; agg.set(z, cur) }] *)
Fixpoint agg_parcels (agg : zagg) (rawZ : list group) : zagg :=
  match rawZ with
  | [] => agg
  | r :: rest =>
      match zip5 (g_key r) with
      | None => agg_parcels agg rest
      | Some z =>
          let cur := agg_get agg z in
          agg_parcels (assoc_set z (fst cur + g_value r, snd cur) agg) rest
      end
  end.

(** [for (const r of rawZSum) { ...; cur.total += r.value; agg.set(z, cur) }] *)
Fixpoint agg_total (agg : zagg) (rawZSum : list group) : zagg :=
  match rawZSum with
  | [] => agg
  | r :: rest =>
      match zip5 (g_key r) with
      | None => agg_total agg rest
      | Some z =>
          let cur := agg_get agg z in
          agg_total (assoc_set z (fst cur, snd cur + g_value r) agg) rest
      end
  end.

Record zip_leader := mkZipLeader { zl_zip : jsstring; zl_parcels : nat; zl_total : nat }.

(** [arr], before the sort. *)
Definition zip_leaders (rawZ rawZSum : list group) : list zip_leader :=
  map (fun e => mkZipLeader (fst e) (fst (snd e)) (snd (snd e)))
      (agg_total (agg_parcels [] rawZ) rawZSum).

(** The key an owner is grouped under in the leaderboard:
    [normalizeOwnerKey(name) || name.toLowerCase()] for
    [name = t.key || ""]. *)
Definition owner_name (k : option jsstring) : jsstring :=
  match k with Some n => n | None => [] end.

Definition owner_key (k : option jsstring) : jsstring :=
  let name := owner_name k in
  let key := normalizeOwnerKey (Some name) in
  if nonempty key then key else toLowerCase name.

(** The two loops that fill [countMap] (or [valueMap]) and
    [displayMap]. *)
Fixpoint tally_from (m : nmap) (rows : list group) : nmap :=
  match rows with
  | [] => m
  | t :: rest => tally_from (map_add m (owner_key (g_key t)) (g_value t)) rest
  end.

Definition tally (rows : list group) : nmap := tally_from [] rows.

Definition smap := list (jsstring * jsstring).

(** [if (!displayMap.has(key)) displayMap.set(key, name)] *)
Definition display_put (m : smap) (k name : jsstring) : smap :=
  match assoc_get m k with
  | Some _ => m
  | None => assoc_set k name m
  end.

Fixpoint display_from (m : smap) (rows : list group) : smap :=
  match rows with
  | [] => m
  | t :: rest => display_from (display_put m (owner_key (g_key t)) (owner_name (g_key t))) rest
  end.

(** [Array.from(new Set(keys))]: the keys without repetition, in the
    order of first occurrence. *)
Fixpoint dedupe_from (seen : list jsstring) (ks : list jsstring) : list jsstring :=
  match ks with
  | [] => []
  | k :: rest =>
      if existsb (fun x => if list_eq_dec ascii_dec k x then true else false) seen
      then dedupe_from seen rest
      else k :: dedupe_from (k :: seen) rest
  end.

Definition dedupe (ks : list jsstring) : list jsstring := dedupe_from [] ks.

Record leader := mkLeader {
  owner_key_of : jsstring;
  owner : jsstring;
  parcels : nat;
  total : nat
}.

(** [displayMap.get(key) || key] *)
Definition display_name (d : smap) (k : jsstring) : jsstring :=
  match assoc_get d k with
  | Some n => if nonempty n then n else k
  | None => k
  end.

(** [mergedAgg], before the sort: the entries of the two maps merged
    by key, and under the residential scope only those whose displayed
    name looks like a person. *)
Definition merge_leaderboards (topCount topValue : list group) : list leader :=
  let countMap := tally topCount in
  let valueMap := tally topValue in
  let displayMap := display_from (display_from [] topCount) topValue in
  map (fun key => mkLeader key (display_name displayMap key)
                           (get_or_zero countMap key) (get_or_zero valueMap key))
      (dedupe (map fst countMap ++ map fst valueMap)).

Definition scoped_leaderboard (labOwnerScope : OwnerScope) (topCount topValue : list group)
  : list leader :=
  let mergedAgg := merge_leaderboards topCount topValue in
  match labOwnerScope with
  | only residential => filter (fun m => isLikelyPersonName (Some (owner m))) mergedAgg
  | _ => mergedAgg
  end.

(** The sum of a list of numbers. *)
Definition sum (xs : list nat) : nat := fold_right Nat.add 0 xs.

(** The row belongs to the five-digit ZIP [z]. *)
Definition has_zip (z : jsstring) (f : group) : bool :=
  match zip5 (g_key f) with
  | Some z' => if list_eq_dec ascii_dec z z' then true else false
  | None => false
  end.

(** The row is grouped under the owner key [k]. *)
Definition has_owner_key (k : jsstring) (t : group) : bool :=
  if list_eq_dec ascii_dec k (owner_key (g_key t)) then true else false.

(** The statistic of the rows that satisfy [p], added up. *)
Definition sum_where (p : group -> bool) (rows : list group) : nat :=
  sum (map g_value (filter p rows)).

(** The order of [Array.prototype.sort()] on strings: by code units. *)
Fixpoint str_leb (a b : jsstring) : bool :=
  match a, b with
  | [], _ => true
  | _ :: _, [] => false
  | x :: a', y :: b' => (code x <? code y)%N || ((code x =? code y)%N && str_leb a' b')
  end.

Fixpoint insert_sorted (x : jsstring) (l : list jsstring) : list jsstring :=
  match l with
  | [] => [x]
  | y :: l' => if str_leb x y then x :: l else y :: insert_sorted x l'
  end.

(** [xs.sort()] *)
Definition sort_strings (xs : list jsstring) : list jsstring :=
  fold_right insert_sorted [] xs.

(** [codes.map(cleanZip).filter(Boolean)] *)
Definition clean_zips (codes : list (option jsstring)) : list jsstring :=
  flat_map (fun c => match zip5 c with Some z => [z] | None => [] end) codes.

(** The list of ZIPs of the bootstrap:
    [Array.from(new Set(feats)).sort()]. *)
Definition zip_list (codes : list (option jsstring)) : list jsstring :=
  sort_strings (dedupe (clean_zips codes)).

(** [enriched]: the ZIP table the page starts from. *)
Definition bootstrap_zips (codes : list (option jsstring)) (features : list group)
  : list ZipRow :=
  zip_rows (zip_list codes) (zip_stats features).

Definition str_le (a b : jsstring) : Prop := str_leb a b = true.

(** The name shown for the key [k]: that of the first row under it, or
    the key itself when that name is empty. *)
Definition shown_name (k : jsstring) (rows : list group) : jsstring :=
  match find (has_owner_key k) rows with
  | Some t => if nonempty (owner_name (g_key t)) then owner_name (g_key t) else k
  | None => k
  end.

End DataLab.


(* ================================================================== *)
(** * Properties *)
(* ================================================================== *)

(** ** Facts about the string primitives *)

Module StrFacts.
Import Str.

Lemma starts_with_refl_app (t rest : jsstring) : starts_with t (t ++ rest) = true.
Proof.
  induction t as [|a t IH]; simpl; [reflexivity|].
  now rewrite Ascii.eqb_refl.
Qed.

Lemma includes_starts_with (u t : jsstring) :
  starts_with t u = true -> includes u t = true.
Proof. intros H. destruct u; simpl; now rewrite H. Qed.

Lemma includes_app (pre t post : jsstring) : includes (pre ++ t ++ post) t = true.
Proof.
  induction pre as [|c pre IH]; simpl.
  - apply includes_starts_with, starts_with_refl_app.
  - rewrite IH. apply orb_true_r.
Qed.

Lemma starts_with_split (t u : jsstring) :
  starts_with t u = true -> exists rest, u = t ++ rest.
Proof.
  revert u; induction t as [|a t IH]; intros u H; simpl in *.
  - now exists u.
  - destruct u as [|b u]; [discriminate|].
    apply andb_true_iff in H as [Hab Ht].
    apply Ascii.eqb_eq in Hab; subst b.
    destruct (IH _ Ht) as [rest ->]. now exists rest.
Qed.

Lemma includes_split (u t : jsstring) :
  includes u t = true -> exists pre post, u = pre ++ t ++ post.
Proof.
  induction u as [|c u IH]; simpl; intros H.
  - rewrite orb_false_r in H. destruct (starts_with_split _ _ H) as [rest E].
    exists [], rest. exact E.
  - apply orb_true_iff in H as [H|H].
    + destruct (starts_with_split _ _ H) as [rest E]. exists [], rest. exact E.
    + destruct (IH H) as (pre & post & ->). now exists (c :: pre), post.
Qed.

Lemma includes_nil_l (t : jsstring) : includes [] t = true -> t = [].
Proof. destruct t; simpl; [reflexivity | discriminate]. Qed.

Lemma toUpperCase_app (a b : jsstring) :
  toUpperCase (a ++ b) = toUpperCase a ++ toUpperCase b.
Proof. apply map_app. Qed.

(** *** Character classes *)

Ltac ascii_cases c :=
  destruct c as [[] [] [] [] [] [] [] []]; vm_compute;
  first [ reflexivity | discriminate | intros; first [ reflexivity | discriminate ] ].

Lemma letter_not_space (c : ascii) : is_letter c = true -> is_space c = false.
Proof. ascii_cases c. Qed.

Lemma letter_not_digit (c : ascii) : is_letter c = true -> is_digit c = false.
Proof. ascii_cases c. Qed.

Lemma letter_is_word (c : ascii) : is_letter c = true -> is_word c = true.
Proof. ascii_cases c. Qed.

Lemma lower_is_letter (c : ascii) : is_lower c = true -> is_letter c = true.
Proof. unfold is_letter. now intros ->. Qed.

Lemma lower_char_lower (c : ascii) : is_lower c = true -> lower_char c = c.
Proof. ascii_cases c. Qed.

Lemma letter_neq (c d : ascii) : is_letter c = true -> is_letter d = false -> Ascii.eqb c d = false.
Proof.
  intros Hc Hd. apply Ascii.eqb_neq. intros ->. congruence.
Qed.

Lemma upper_char_letter (c : ascii) : is_letter c = true -> is_letter (upper_char c) = true.
Proof. ascii_cases c. Qed.

Lemma upper_char_space (c : ascii) : is_space c = true -> upper_char c = c.
Proof. ascii_cases c. Qed.

(** *** Strings of letters *)

Lemma letters_cons (c : ascii) (w : jsstring) :
  letters (c :: w) <-> is_letter c = true /\ letters w.
Proof. unfold letters. simpl. apply andb_true_iff. Qed.

Lemma letters_app (a b : jsstring) : letters (a ++ b) <-> letters a /\ letters b.
Proof. unfold letters. rewrite forallb_app. apply andb_true_iff. Qed.

Lemma letters_In (w : jsstring) (c : ascii) : letters w -> In c w -> is_letter c = true.
Proof. unfold letters. rewrite forallb_forall. auto. Qed.

Lemma letters_toUpperCase (w : jsstring) : letters w -> letters (toUpperCase w).
Proof.
  induction w as [|c w IH]; [trivial|].
  cbn [toUpperCase map]. rewrite !letters_cons. intros [Hc Hw].
  split; [now apply upper_char_letter | now apply IH].
Qed.

Lemma letters_last (w : jsstring) :
  letters w -> w <> [] -> exists w' c, w = w' ++ [c] /\ is_letter c = true.
Proof.
  intros Hl Hne. destruct (exists_last Hne) as (w' & c & ->).
  exists w', c. split; [reflexivity|].
  apply letters_app in Hl as [_ Hc]. now apply letters_cons in Hc.
Qed.

(** *** drop_while, trim *)

Lemma drop_while_head (p : ascii -> bool) (c : ascii) (s : jsstring) :
  p c = false -> drop_while p (c :: s) = c :: s.
Proof. intros H. simpl. now rewrite H. Qed.

Lemma drop_while_end_last (p : ascii -> bool) (s : jsstring) (c : ascii) :
  p c = false -> drop_while_end p (s ++ [c]) = s ++ [c].
Proof.
  intros H. unfold drop_while_end. rewrite rev_app_distr. simpl. rewrite H.
  simpl. now rewrite rev_involutive.
Qed.

(** A string that neither begins nor ends with a character of the class
    is not changed by dropping the class at both ends. *)
Lemma drop_both_id (p q : ascii -> bool) (c d : ascii) (s : jsstring) :
  p c = false -> q d = false ->
  drop_while_end q (drop_while p (c :: s ++ [d])) = c :: s ++ [d].
Proof.
  intros Hc Hd. rewrite drop_while_head by assumption.
  change (c :: s ++ [d]) with ((c :: s) ++ [d]). now apply drop_while_end_last.
Qed.

Lemma trim_id (c d : ascii) (s : jsstring) :
  is_space c = false -> is_space d = false -> trim (c :: s ++ [d]) = c :: s ++ [d].
Proof. apply drop_both_id. Qed.

(** *** replace_runs, remove_all *)

Lemma replace_runs_from_clean (p : ascii -> bool) (r : jsstring) (w : jsstring) :
  forallb (fun c => negb (p c)) w = true ->
  forall b rest,
    replace_runs_from p r b (w ++ rest)
    = w ++ replace_runs_from p r (match w with [] => b | _ => false end) rest.
Proof.
  induction w as [|c w IH]; intros Hw b rest; [reflexivity|].
  simpl in Hw. apply andb_true_iff in Hw as [Hc Hw].
  apply negb_true_iff in Hc. cbn [app replace_runs_from]. rewrite Hc.
  rewrite (IH Hw). f_equal. f_equal. now destruct w.
Qed.

Lemma replace_runs_from_clean_all (p : ascii -> bool) (r : jsstring) (w : jsstring) (b : bool) :
  forallb (fun c => negb (p c)) w = true -> replace_runs_from p r b w = w.
Proof.
  intros Hw. rewrite <- (app_nil_r w) at 1.
  rewrite (replace_runs_from_clean p r w Hw). simpl. apply app_nil_r.
Qed.

Lemma remove_all_clean (p : ascii -> bool) (w : jsstring) :
  forallb (fun c => negb (p c)) w = true -> remove_all p w = w.
Proof.
  unfold remove_all. induction w as [|c w IH]; [reflexivity|].
  simpl. intros H. apply andb_true_iff in H as [Hc Hw]. rewrite Hc. f_equal. now apply IH.
Qed.

(** *** split, words *)

Lemma split_from_clean (sep : ascii) (w : jsstring) :
  forallb (fun c => negb (Ascii.eqb c sep)) w = true ->
  forall cur rest, split_from sep cur (w ++ rest) = split_from sep (rev w ++ cur) rest.
Proof.
  induction w as [|c w IH]; intros Hw cur rest; [reflexivity|].
  simpl in Hw. apply andb_true_iff in Hw as [Hc Hw]. apply negb_true_iff in Hc.
  cbn [app split_from]. rewrite Hc, (IH Hw). simpl. now rewrite <- app_assoc.
Qed.

Lemma split_clean (sep : ascii) (w : jsstring) :
  forallb (fun c => negb (Ascii.eqb c sep)) w = true -> split sep w = [w].
Proof.
  intros Hw. unfold split. rewrite <- (app_nil_r w) at 1.
  rewrite (split_from_clean sep w Hw). simpl. now rewrite app_nil_r, rev_involutive.
Qed.

Lemma split_two (sep : ascii) (w1 w2 : jsstring) :
  forallb (fun c => negb (Ascii.eqb c sep)) w1 = true ->
  forallb (fun c => negb (Ascii.eqb c sep)) w2 = true ->
  split sep (w1 ++ sep :: w2) = [w1; w2].
Proof.
  intros H1 H2. unfold split. rewrite (split_from_clean sep w1 H1).
  cbn [split_from]. rewrite Ascii.eqb_refl, app_nil_r, rev_involutive.
  f_equal. apply (split_clean sep w2 H2).
Qed.

Lemma words_from_clean (w : jsstring) :
  forallb (fun c => negb (is_space c)) w = true ->
  forall cur rest, words_from cur (w ++ rest) = words_from (rev w ++ cur) rest.
Proof.
  induction w as [|c w IH]; intros Hw cur rest; [reflexivity|].
  simpl in Hw. apply andb_true_iff in Hw as [Hc Hw]. apply negb_true_iff in Hc.
  cbn [app words_from]. rewrite Hc, (IH Hw). simpl. now rewrite <- app_assoc.
Qed.

Lemma split_ws_two (w1 w2 : jsstring) (sp : ascii) :
  forallb (fun c => negb (is_space c)) w1 = true ->
  forallb (fun c => negb (is_space c)) w2 = true ->
  w1 <> [] -> w2 <> [] -> is_space sp = true ->
  split_ws (w1 ++ sp :: w2) = [w1; w2].
Proof.
  intros H1 H2 N1 N2 Hsp. unfold split_ws. rewrite (words_from_clean w1 H1).
  cbn [words_from]. rewrite Hsp, app_nil_r.
  destruct (rev w1) eqn:E.
  { apply (f_equal (@rev _)) in E. rewrite rev_involutive in E. contradiction. }
  rewrite <- E, rev_involutive. f_equal.
  rewrite <- (app_nil_r w2) at 1. rewrite (words_from_clean w2 H2). cbn [words_from].
  rewrite app_nil_r.
  destruct (rev w2) eqn:E2.
  { apply (f_equal (@rev _)) in E2. rewrite rev_involutive in E2. contradiction. }
  now rewrite <- E2, rev_involutive.
Qed.

(** *** starts_with, includes *)

Lemma starts_with_cut (t a b : jsstring) (c : ascii) :
  ~ In c t -> starts_with t (a ++ c :: b) = true -> starts_with t a = true.
Proof.
  revert a. induction t as [|x t IH]; intros a Hc H; [reflexivity|].
  destruct a as [|y a]; cbn [app starts_with] in *.
  - apply andb_true_iff in H as [H _]. apply Ascii.eqb_eq in H. subst x.
    exfalso. apply Hc. now left.
  - apply andb_true_iff in H as [H1 H2]. rewrite H1. simpl.
    apply (IH a); [|exact H2]. intros Hin. apply Hc. now right.
Qed.

Lemma includes_weaken (u t pre post : jsstring) :
  includes u (pre ++ t ++ post) = true -> includes u t = true.
Proof.
  intros H. apply includes_split in H as (a & b & ->).
  rewrite <- !app_assoc. rewrite app_assoc. apply includes_app.
Qed.

Lemma map_length_eq (f : ascii -> ascii) (a b : jsstring) :
  map f a = map f b -> List.length a = List.length b.
Proof. intros H. apply (f_equal (@List.length _)) in H. now rewrite !length_map in H. Qed.

Lemma eq_ci_length (t u : jsstring) : eq_ci t u = true -> List.length u = List.length t.
Proof.
  unfold eq_ci. destruct (list_eq_dec _ _ _) as [E|]; [|discriminate].
  intros _. symmetry. now apply (map_length_eq upper_char).
Qed.

End StrFacts.

(** ** classifyOwner *)

Module ClassifyProps.
Import Str Utils StrFacts.

Lemma BIZ_LIKE_TOKENS_nonempty (t : jsstring) : In t BIZ_LIKE_TOKENS -> t <> [].
Proof.
  unfold BIZ_LIKE_TOKENS; simpl.
  intros H; repeat (destruct H as [<-|H]; [discriminate|]). destruct H.
Qed.

(** A name whose upper-case form has an entry of the token table as a
    substring is a business. *)
Lemma classifyOwner_token (name t : jsstring) :
  In t BIZ_LIKE_TOKENS ->
  includes (toUpperCase name) t = true ->
  classifyOwner (Some name) = business.
Proof.
  intros Hin Hinc. unfold classifyOwner.
  destruct name as [|c name].
  - apply includes_nil_l in Hinc. now apply BIZ_LIKE_TOKENS_nonempty in Hin.
  - cbn [nonempty negb].
    replace (existsb _ BIZ_LIKE_TOKENS) with true; [reflexivity|].
    symmetry. apply existsb_exists. now exists t.
Qed.

(** C8. [classifyOwner] always answers: [residential] for an absent or
    empty name, and [business] for every name that contains, whatever the
    case of its letters, an entry of the business-token table as the
    table writes it, most entries with a space in front (for instance
    "ACME LLC" and "Smith Family TRUST"); and for no other name. *)
Theorem classifyOwner_total_business :
  (forall name, classifyOwner name = business \/ classifyOwner name = residential) /\
  classifyOwner None = residential /\
  classifyOwner (Some []) = residential /\
  (forall name t, In t BIZ_LIKE_TOKENS -> includes (toUpperCase name) t = true ->
                  classifyOwner (Some name) = business) /\
  (forall pre x post t, In t BIZ_LIKE_TOKENS -> toUpperCase x = t ->
                        classifyOwner (Some (pre ++ x ++ post)) = business) /\
  classifyOwner (Some (str "ACME LLC")) = business /\
  classifyOwner (Some (str "Smith Family TRUST")) = business /\
  classifyOwner (Some (str "acme holdings")) = business /\
  (forall name,
      classifyOwner (Some name) = business <->
      exists t, In t BIZ_LIKE_TOKENS /\ includes (toUpperCase name) t = true).
Proof.
  split; [|split; [|split; [|split; [|split; [|split; [|split; [|split]]]]]]];
    try reflexivity.
  - intros name. destruct (classifyOwner name); auto.
  - apply classifyOwner_token.
  - intros pre x post t Hin <-. apply classifyOwner_token with (t := toUpperCase x); [exact Hin|].
    rewrite !toUpperCase_app. apply includes_app.
  - intros name. split.
    + unfold classifyOwner. destruct (negb (nonempty name)); [discriminate|]. cbv zeta.
      destruct (existsb _ BIZ_LIKE_TOKENS) eqn:E; [|discriminate]. intros _.
      apply existsb_exists in E. exact E.
    + intros (t & Hin & Hinc). now apply (classifyOwner_token name t).
Qed.

Lemma classifyOwner_total_business_witness :
  In (str " LLC") BIZ_LIKE_TOKENS /\
  includes (toUpperCase (str "Acme llc")) (str " LLC") = true /\
  classifyOwner (Some (str "Acme llc")) = business.
Proof.
  split; [simpl; tauto|]. split; [reflexivity|].
  apply (proj1 (proj2 (proj2 (proj2 classifyOwner_total_business)))
           (str "Acme llc") (str " LLC")); [simpl; tauto | reflexivity].
Defined.

(** "ACME,LLC" contains the token LLC and is residential: the table
    has the token with a space in front, and here a comma comes before
    it. *)
Lemma named_token_means_business_fails : ~ named_token_means_business.
Proof.
  intros H. specialize (H (str "ACME,LLC") (str "LLC")).
  assert (Hin : In (str "LLC") (map trim BIZ_LIKE_TOKENS)) by (vm_compute; tauto).
  specialize (H Hin eq_refl). vm_compute in H. discriminate.
Qed.

(** So are a name that is the token alone and a name that begins with
    it; with the space in front the same tokens make a business. *)
Example classifyOwner_bare_tokens :
  classifyOwner (Some (str "LLC")) = residential /\
  classifyOwner (Some (str "TRUST OF JOHN SMITH")) = residential /\
  classifyOwner (Some (str "HOLDINGS GROUP")) = residential /\
  classifyOwner (Some (str "ACME LLC")) = business /\
  classifyOwner (Some (str "THE TRUST OF JOHN SMITH")) = business.
Proof. repeat split; reflexivity. Qed.

(** C10. The entry "INC" of the token table has no space around it, so
    every name whose upper-case form contains the letters INC anywhere,
    inside a longer word too, is classified as a business. *)
Theorem classifyOwner_INC_anywhere (name : jsstring) :
  includes (toUpperCase name) (str "INC") = true ->
  classifyOwner (Some name) = business.
Proof.
  apply classifyOwner_token. unfold BIZ_LIKE_TOKENS; simpl; tauto.
Qed.

Lemma classifyOwner_INC_anywhere_witness :
  includes (toUpperCase (str "PRINCE WILLIAM")) (str "INC") = true /\
  classifyOwner (Some (str "PRINCE WILLIAM")) = business.
Proof.
  split; [reflexivity|].
  apply (classifyOwner_INC_anywhere (str "PRINCE WILLIAM")). reflexivity.
Defined.

End ClassifyProps.

(** ** approxMedianFromBins *)

Module MedianProps.
Import Str Utils.
Local Open Scope Q_scope.

Lemma median_loop_first (ranges : list range) (half : Q) :
  forall (bins : list bin) (i0 : nat) (cum0 : Q) (i : nat),
    (i < List.length bins)%nat ->
    (forall j, (j < i)%nat ->
       fold_left (fun s b => s + or_zero (count b)) (firstn (S j) bins) cum0 < half) ->
    half <= fold_left (fun s b => s + or_zero (count b)) (firstn (S i) bins) cum0 ->
    median_loop ranges half i0 cum0 bins = bucket_value (range_at ranges (i0 + i)).
Proof.
  induction bins as [|b bs IH]; intros i0 cum0 i Hlen Hbelow Hreach.
  - simpl in Hlen. lia.
  - cbn [median_loop]. destruct i as [|i].
    + cbn in Hreach. apply Qle_bool_iff in Hreach. rewrite Hreach.
      now rewrite Nat.add_0_r.
    + assert (H0 : cum0 + or_zero (count b) < half) by (apply (Hbelow 0%nat); lia).
      destruct (Qle_bool half (cum0 + or_zero (count b))) eqn:E.
      * apply Qle_bool_iff in E. exfalso. apply (Qlt_not_le _ _ H0 E).
      * rewrite (IH (S i0) (cum0 + or_zero (count b)) i).
        -- f_equal. f_equal. lia.
        -- simpl in Hlen. lia.
        -- intros j Hj. apply (Hbelow (S j)). lia.
        -- exact Hreach.
Qed.

Lemma bucket_value_midpoint (r : range) (l h : Q) :
  nullish (lo r) 0 = l -> hi r = Some h -> l < h -> bucket_value r = (l + h) / 2.
Proof.
  intros Hl Hh Hlt. unfold bucket_value. rewrite Hl, Hh. cbn [nullish].
  destruct (Qle_bool h l) eqn:E; [|reflexivity].
  apply Qle_bool_iff in E. exfalso. apply (Qlt_not_le _ _ Hlt E).
Qed.

Lemma bucket_value_open (r : range) :
  hi r = None -> bucket_value r = nullish (lo r) 0.
Proof.
  intros Hh. unfold bucket_value. rewrite Hh. cbn [nullish].
  replace (Qle_bool _ _) with true; [reflexivity|].
  symmetry. apply Qle_bool_iff. apply Qle_refl.
Qed.

Lemma bucket_value_closed (r : range) (l h : Q) :
  nullish (lo r) 0 = l -> hi r = Some h -> h <= l -> bucket_value r = l.
Proof.
  intros Hl Hh Hle. unfold bucket_value. rewrite Hl, Hh. cbn [nullish].
  apply Qle_bool_iff in Hle. now rewrite Hle.
Qed.

Lemma bucket_value_midpoint_or_lower (r : range) :
  nullish (lo r) 0 <= nullish (hi r) (nullish (lo r) 0) ->
  bucket_value r == midpoint_or_lower r.
Proof.
  unfold bucket_value, midpoint_or_lower. destruct (hi r) as [h|]; cbn [nullish]; intros Hle.
  - destruct (Qle_bool h (nullish (lo r) 0)) eqn:E; [|reflexivity].
    apply Qle_bool_iff in E.
    assert (Eq : h == nullish (lo r) 0) by (apply Qle_antisym; assumption).
    rewrite Eq. field.
  - replace (Qle_bool _ _) with true; [reflexivity|].
    symmetry. apply Qle_bool_iff. apply Qle_refl.
Qed.

(** C7, as the code has it.  When the total is not zero,
    [approxMedianFromBins] answers for the first bucket, in order, whose
    cumulative count is at least half of the total: the midpoint of its
    range (an absent lower bound counts as 0), or its lower bound when
    the range has no upper bound or an upper bound that is not above the
    lower bound.  When the total is zero it answers 0.  On the bins of
    counts 10 and 10 with the ranges up to 100 and 100 to 200 the answer
    is 50. *)
Theorem approxMedianFromBins_first_half_bucket :
  (forall (bins : list bin) (ranges : list range) (i : nat),
      ~ total_count bins == 0 ->
      first_half_bucket bins i ->
      let r := range_at ranges i in
      (nullish (lo r) 0 <= nullish (hi r) (nullish (lo r) 0) ->
       approxMedianFromBins bins ranges == midpoint_or_lower r) /\
      (forall l h, nullish (lo r) 0 = l -> hi r = Some h -> l < h ->
                   approxMedianFromBins bins ranges = (l + h) / 2) /\
      (hi r = None -> approxMedianFromBins bins ranges = nullish (lo r) 0) /\
      (forall l h, nullish (lo r) 0 = l -> hi r = Some h -> h <= l ->
                   approxMedianFromBins bins ranges = l)) /\
  (forall (bins : list bin) (ranges : list range),
      total_count bins == 0 -> approxMedianFromBins bins ranges = 0) /\
  approxMedianFromBins [mkBin [] 10; mkBin [] 10]
                       [mkRange None (Some 100); mkRange (Some 100) (Some 200)] == 50.
Proof.
  split; [|split; [|reflexivity]].
  - intros bins ranges i Htot (Hlen & Hbelow & Hreach) r.
    assert (E : approxMedianFromBins bins ranges = bucket_value r).
    { unfold approxMedianFromBins.
      destruct (Qeq_bool (total_count bins) 0) eqn:Ez.
      - apply Qeq_bool_iff in Ez. contradiction.
      - rewrite (median_loop_first ranges _ bins 0%nat 0 i Hlen Hbelow Hreach). reflexivity. }
    rewrite E. split; [|split; [|split]].
    + apply bucket_value_midpoint_or_lower.
    + intros l h. apply bucket_value_midpoint.
    + apply bucket_value_open.
    + intros l h. apply bucket_value_closed.
  - intros bins ranges Hz. unfold approxMedianFromBins.
    apply Qeq_bool_iff in Hz. now rewrite Hz.
Qed.

Lemma approxMedianFromBins_first_half_bucket_witness :
  approxMedianFromBins [mkBin [] 10; mkBin [] 30; mkBin [] 5]
                       [mkRange None (Some 100); mkRange (Some 100) (Some 200);
                        mkRange (Some 200) None] = (100 + 200) / 2.
Proof.
  apply (proj1 approxMedianFromBins_first_half_bucket
           [mkBin [] 10; mkBin [] 30; mkBin [] 5]
           [mkRange None (Some 100); mkRange (Some 100) (Some 200); mkRange (Some 200) None]
           1%nat).
  - vm_compute. discriminate.
  - split; [simpl; lia|]. split.
    + intros j Hj. assert (j = 0%nat) by lia. subst j. vm_compute. reflexivity.
    + vm_compute. discriminate.
  - reflexivity.
  - reflexivity.
  - vm_compute. reflexivity.
Defined.

(** A histogram whose counts are all zero has total 0, every bucket
    reaches half of it, and the answer is 0 whatever the range of the
    first bucket. *)
Lemma median_is_first_half_bucket_fails : ~ median_is_first_half_bucket.
Proof.
  intros H.
  specialize (H [mkBin [] 0] [mkRange (Some 100) (Some 200)] 0%nat).
  assert (F : first_half_bucket [mkBin [] 0] 0).
  { split; [simpl; lia|]. split.
    - intros j Hj. lia.
    - vm_compute. discriminate. }
  specialize (H F). vm_compute in H. discriminate.
Qed.

End MedianProps.

(** ** fetchJSONWithRetry *)

Module RetryProps.
Import Str Api.

Section Loop.

Context {J : Type}.
Variable embedded_error : J -> option jsstring.
Variable net : network J.
Variable retries : nat.
Variable baseDelayMs : Q.

Local Abbreviation request := (request J embedded_error net).
Local Abbreviation retry_loop := (retry_loop J embedded_error net retries baseDelayMs).
Local Abbreviation fetchJSONWithRetry :=
  (fetchJSONWithRetry J embedded_error net retries baseDelayMs).
Local Abbreviation next_delay attempt := (delay_ms J net baseDelayMs attempt).

Lemma retry_loop_return fuel attempt calls ws json :
  request calls = Return json ->
  retry_loop (S fuel) attempt calls ws = Some (mkRun J (Return json) (S calls) ws).
Proof. intros H. cbn [Api.retry_loop]. now rewrite H. Qed.

Lemma retry_loop_throw fuel attempt calls ws e :
  request calls = Throw e ->
  negb (test_transient (error_text e)) || (retries <=? attempt) || aborted_after J net calls = true ->
  retry_loop (S fuel) attempt calls ws = Some (mkRun J (Throw e) (S calls) ws).
Proof. intros H Hc. cbn [Api.retry_loop]. now rewrite H, Hc. Qed.

Lemma retry_loop_again fuel attempt calls ws e :
  request calls = Throw e ->
  test_transient (error_text e) = true ->
  attempt < retries ->
  aborted_after J net calls = false ->
  aborted_in_wait J net calls = false ->
  retry_loop (S fuel) attempt calls ws =
  retry_loop fuel (S attempt) (S calls) (ws ++ [next_delay attempt]).
Proof.
  intros H Ht Hlt Ha Hw. cbn [Api.retry_loop]. rewrite H, Ht, Ha, Hw.
  apply Nat.leb_gt in Hlt. now rewrite Hlt.
Qed.

Lemma retry_loop_cancelled fuel attempt calls ws e :
  request calls = Throw e ->
  test_transient (error_text e) = true ->
  attempt < retries ->
  aborted_after J net calls = false ->
  aborted_in_wait J net calls = true ->
  retry_loop (S fuel) attempt calls ws =
  Some (mkRun J (Throw AbortError) (S calls) (ws ++ [next_delay attempt])).
Proof.
  intros H Ht Hlt Ha Hw. cbn [Api.retry_loop]. rewrite H, Ht, Ha, Hw.
  apply Nat.leb_gt in Hlt. now rewrite Hlt.
Qed.

(** The loop always ends within [retries + 1] requests. *)
Lemma retry_loop_total :
  forall fuel attempt calls ws,
    retries - attempt < fuel ->
    exists r, retry_loop fuel attempt calls ws = Some r /\
              attempts J r <= calls + (retries - attempt) + 1.
Proof.
  induction fuel as [|fuel IH]; intros attempt calls ws Hfuel; [lia|].
  cbn [Api.retry_loop].
  destruct (request calls) as [json|e].
  - eexists; split; [reflexivity|]. simpl. lia.
  - destruct (negb (test_transient (error_text e)) || (retries <=? attempt)
              || aborted_after J net calls) eqn:Hc.
    + eexists; split; [reflexivity|]. simpl. lia.
    + apply orb_false_iff in Hc as [Hc _]. apply orb_false_iff in Hc as [_ Hc].
      apply Nat.leb_gt in Hc.
      destruct (aborted_in_wait J net calls).
      * eexists; split; [reflexivity|]. simpl. lia.
      * destruct (IH (S attempt) (S calls) (ws ++ [next_delay attempt])) as (r & Hr & Hb); [lia|].
        exists r. split; [exact Hr|]. lia.
Qed.

(** In a run every request but the last failed with a transient
    failure, with the retry count not yet used up; a request that fails
    with another failure is the last one and its failure is the outcome,
    and so is a request that succeeds. *)
Lemma retry_loop_requests :
  forall fuel attempt calls ws r,
    retry_loop fuel attempt calls ws = Some r ->
    calls < attempts J r /\
    forall k, calls <= k < attempts J r ->
      (S k < attempts J r ->
       exists e, request k = Throw e /\ test_transient (error_text e) = true /\
                 attempt + (k - calls) < retries) /\
      (forall e, request k = Throw e -> test_transient (error_text e) = false ->
                 attempts J r = S k /\ outcome J r = Throw e) /\
      (forall json, request k = Return json ->
                    attempts J r = S k /\ outcome J r = Return json).
Proof.
  induction fuel as [|fuel IH]; intros attempt calls ws r Hrun; [discriminate|].
  cbn [Api.retry_loop] in Hrun.
  destruct (request calls) as [json|e] eqn:Hreq.
  - injection Hrun as <-. cbn [attempts outcome]. split; [lia|].
    intros k Hk. assert (k = calls) by lia. subst k. rewrite Hreq.
    split; [lia|]. split; [discriminate|]. intros json' E. injection E as <-. now split.
  - destruct (negb (test_transient (error_text e)) || (retries <=? attempt)
              || aborted_after J net calls) eqn:Hc.
    + injection Hrun as <-. cbn [attempts outcome]. split; [lia|].
      intros k Hk. assert (k = calls) by lia. subst k. rewrite Hreq.
      split; [lia|]. split; [|discriminate]. intros e' E _. injection E as <-. now split.
    + apply orb_false_iff in Hc as [Hc _]. apply orb_false_iff in Hc as [Ht Hlt].
      apply negb_false_iff in Ht. apply Nat.leb_gt in Hlt.
      destruct (aborted_in_wait J net calls).
      * injection Hrun as <-. cbn [attempts outcome]. split; [lia|].
        intros k Hk. assert (k = calls) by lia. subst k. rewrite Hreq.
        split; [lia|]. split; [|discriminate]. intros e' E He'. injection E as <-. congruence.
      * apply IH in Hrun as [Hlast Hall]. split; [lia|].
        intros k Hk. destruct (Nat.eq_dec k calls) as [->|Hne].
        -- rewrite Hreq. split; [|split; [|discriminate]].
           ++ intros _. exists e. rewrite Nat.sub_diag, Nat.add_0_r. now repeat split.
           ++ intros e' E He'. injection E as <-. congruence.
        -- destruct (Hall k) as (H1 & H2 & H3); [lia|]. split; [|split; assumption].
           intros Hk'. destruct (H1 Hk') as (e' & Ee & Te & Le).
           exists e'. repeat split; try assumption. lia.
Qed.

Lemma request_no_abort n :
  abort J net = None -> request n = fetchJSON J embedded_error (reply_of J net n).
Proof. intros H. unfold Api.request. now rewrite H. Qed.

Lemma aborted_after_no_abort n : abort J net = None -> aborted_after J net n = false.
Proof. intros H. unfold aborted_after. now rewrite H. Qed.

Lemma aborted_in_wait_no_abort n : abort J net = None -> aborted_in_wait J net n = false.
Proof. intros H. unfold aborted_in_wait. now rewrite H. Qed.

(** When every request fails with a transient failure and nobody
    cancels, the loop gives up after [retries + 1] requests with the
    failure of the last one. *)
Lemma retry_loop_exhausted :
  abort J net = None ->
  (forall n, exists e, fetchJSON J embedded_error (reply_of J net n) = Throw e /\
                       test_transient (error_text e) = true) ->
  forall fuel attempt calls ws,
    attempt <= retries ->
    retries - attempt < fuel ->
    exists e ws',
      retry_loop fuel attempt calls ws
      = Some (mkRun J (Throw e) (calls + (retries - attempt) + 1) ws') /\
      fetchJSON J embedded_error (reply_of J net (calls + (retries - attempt))) = Throw e.
Proof.
  intros Hab Hfail.
  induction fuel as [|fuel IH]; intros attempt calls ws Hle Hfuel; [lia|].
  destruct (Hfail calls) as (e & He & Ht).
  assert (Hreq : request calls = Throw e) by (now rewrite request_no_abort).
  destruct (Nat.eq_dec attempt retries) as [->|Hne].
  - exists e, ws. rewrite Nat.sub_diag, Nat.add_0_r. split; [|exact He].
    rewrite (retry_loop_throw fuel retries calls ws e Hreq).
    + do 2 f_equal. lia.
    + rewrite Nat.leb_refl. now rewrite orb_true_r.
  - rewrite (retry_loop_again fuel attempt calls ws e Hreq Ht);
      [ | lia | now apply aborted_after_no_abort | now apply aborted_in_wait_no_abort ].
    destruct (IH (S attempt) (S calls) (ws ++ [next_delay attempt])) as (e' & ws' & Hr & He');
      [lia | lia |].
    exists e', ws'.
    replace (calls + (retries - attempt)) with (S calls + (retries - S attempt)) by lia.
    split; [exact Hr | exact He'].
Qed.

(** With the signal aborted during the wait after request [k], no
    request after request [k] is issued. *)
Lemma cancelled_wait_bound k :
  abort J net = Some (DuringWait k) ->
  forall fuel attempt calls ws r,
    calls <= k ->
    retry_loop fuel attempt calls ws = Some r ->
    attempts J r <= S k.
Proof.
  intros Hab. induction fuel as [|fuel IH]; intros attempt calls ws r Hle Hrun; [discriminate|].
  cbn [Api.retry_loop] in Hrun.
  destruct (request calls) as [json|e].
  - injection Hrun as <-. simpl. lia.
  - destruct (negb (test_transient (error_text e)) || (retries <=? attempt)
              || aborted_after J net calls).
    + injection Hrun as <-. simpl. lia.
    + unfold aborted_in_wait in Hrun. rewrite Hab in Hrun.
      destruct (k =? calls) eqn:Ek.
      * injection Hrun as <-. simpl. lia.
      * apply Nat.eqb_neq in Ek. apply IH in Hrun; [exact Hrun | lia].
Qed.

Lemma cancelled_wait_rejects k :
  abort J net = Some (DuringWait k) ->
  (forall n, n <= k -> exists e, fetchJSON J embedded_error (reply_of J net n) = Throw e /\
                                 test_transient (error_text e) = true) ->
  forall fuel attempt calls ws,
    calls <= k ->
    attempt + (k - calls) < retries ->
    k - calls < fuel ->
    exists ws', retry_loop fuel attempt calls ws = Some (mkRun J (Throw AbortError) (S k) ws').
Proof.
  intros Hab Hfail.
  induction fuel as [|fuel IH]; intros attempt calls ws Hle Hret Hfuel; [lia|].
  destruct (Hfail calls Hle) as (e & He & Ht).
  assert (Hreq : request calls = Throw e).
  { unfold Api.request. rewrite Hab.
    replace (k <? calls) with false; [exact He|]. symmetry. apply Nat.ltb_ge. exact Hle. }
  assert (Haft : aborted_after J net calls = false).
  { unfold aborted_after. rewrite Hab. apply Nat.ltb_ge. exact Hle. }
  destruct (Nat.eq_dec calls k) as [->|Hne].
  - eexists. apply (retry_loop_cancelled fuel attempt k ws e); try assumption; [lia|].
    unfold aborted_in_wait. rewrite Hab. apply Nat.eqb_refl.
  - rewrite (retry_loop_again fuel attempt calls ws e); try assumption; [|lia|].
    + apply IH; lia.
    + unfold aborted_in_wait. rewrite Hab. apply Nat.eqb_neq. lia.
Qed.

End Loop.

Lemma transient_503 : test_transient (error_text (Error (str "HTTP " ++ decimal 503))) = true.
Proof. reflexivity. Qed.

Lemma transient_404 : test_transient (error_text (Error (str "HTTP " ++ decimal 404))) = false.
Proof. reflexivity. Qed.

(** The failures [fetchJSON] reports for a status between 100 and 999
    are transient exactly for 429 and for 500 to 599. *)
Lemma transient_status (status : nat) :
  100 <= status <= 999 ->
  test_transient (error_text (Error (str "HTTP " ++ decimal status)))
  = ((status =? 429) || ((500 <=? status) && (status <=? 599))).
Proof.
  intros H.
  assert (A : forallb (fun s => Bool.eqb
                (test_transient (error_text (Error (str "HTTP " ++ decimal s))))
                ((s =? 429) || ((500 <=? s) && (s <=? 599)))) (seq 100 900) = true)
    by (vm_compute; reflexivity).
  rewrite forallb_forall in A.
  apply Bool.eqb_prop. apply A. apply in_seq. lia.
Qed.

(** C4. The loop retries transient failures only, and at most [retries]
    times: when the first two requests answer 503 and the third succeeds
    it returns the third answer after exactly three requests; when the
    first request answers 404 it throws that failure after one request.
    A first failure that is not transient is thrown at once; failures
    that are all transient are retried [retries] times and no more.  The
    loop always ends, after at most [retries + 1] requests, and in its
    run every request that is followed by another one failed with a
    transient failure while fewer than [retries] retries were used: a
    request that fails with any other failure, the first or a later one,
    is the last request and its failure is what the call throws, and a
    request that succeeds is the last one and its answer is returned.
    The failures of a status are transient exactly for 429 and 5xx. *)
Theorem fetchJSONWithRetry_retries_transient_only :
  (forall (J : Type) (emb : J -> option jsstring) (net : network J) (retries : nat)
          (baseDelayMs : Q) (j0 j1 json : J),
      abort J net = None ->
      reply_of J net 0 = Response J 503 j0 ->
      reply_of J net 1 = Response J 503 j1 ->
      reply_of J net 2 = Response J 200 json ->
      emb json = None ->
      2 <= retries ->
      exists ws, fetchJSONWithRetry J emb net retries baseDelayMs
                 = Some (mkRun J (Return json) 3 ws)) /\
  (forall (J : Type) (emb : J -> option jsstring) (net : network J) (retries : nat)
          (baseDelayMs : Q) (j0 : J),
      abort J net = None ->
      reply_of J net 0 = Response J 404 j0 ->
      fetchJSONWithRetry J emb net retries baseDelayMs
      = Some (mkRun J (Throw (Error (str "HTTP 404"))) 1 [])) /\
  (forall (J : Type) (emb : J -> option jsstring) (net : network J) (retries : nat)
          (baseDelayMs : Q) (e : js_error),
      request J emb net 0 = Throw e ->
      test_transient (error_text e) = false ->
      fetchJSONWithRetry J emb net retries baseDelayMs = Some (mkRun J (Throw e) 1 [])) /\
  (forall (J : Type) (emb : J -> option jsstring) (net : network J) (retries : nat)
          (baseDelayMs : Q),
      abort J net = None ->
      (forall n, exists e, fetchJSON J emb (reply_of J net n) = Throw e /\
                           test_transient (error_text e) = true) ->
      exists e ws, fetchJSONWithRetry J emb net retries baseDelayMs
                   = Some (mkRun J (Throw e) (retries + 1) ws)) /\
  (forall (J : Type) (emb : J -> option jsstring) (net : network J) (retries : nat)
          (baseDelayMs : Q),
      exists r, fetchJSONWithRetry J emb net retries baseDelayMs = Some r /\
                attempts J r <= retries + 1 /\
                forall k, k < attempts J r ->
                  (S k < attempts J r ->
                   exists e, request J emb net k = Throw e /\
                             test_transient (error_text e) = true /\ k < retries) /\
                  (forall e, request J emb net k = Throw e ->
                             test_transient (error_text e) = false ->
                             attempts J r = S k /\ outcome J r = Throw e) /\
                  (forall json, request J emb net k = Return json ->
                                attempts J r = S k /\ outcome J r = Return json)) /\
  (forall status, 100 <= status <= 999 ->
      test_transient (error_text (Error (str "HTTP " ++ decimal status)))
      = ((status =? 429) || ((500 <=? status) && (status <=? 599)))).
Proof.
  split; [|split; [|split; [|split; [|split]]]].
  - intros J emb net retries base j0 j1 json Hab H0 H1 H2 Hemb Hret.
    unfold fetchJSONWithRetry.
    rewrite (retry_loop_again emb net retries base _ 0 0 [] (Error (str "HTTP " ++ decimal 503)));
      [ | rewrite request_no_abort, H0 by assumption; reflexivity
        | exact transient_503 | lia
        | now apply aborted_after_no_abort | now apply aborted_in_wait_no_abort ].
    destruct retries as [|[|retries]]; try lia.
    rewrite (retry_loop_again emb net _ base _ 1 1 _ (Error (str "HTTP " ++ decimal 503)));
      [ | rewrite request_no_abort, H1 by assumption; reflexivity
        | exact transient_503 | lia
        | now apply aborted_after_no_abort | now apply aborted_in_wait_no_abort ].
    eexists. apply retry_loop_return.
    rewrite request_no_abort, H2 by assumption. cbn. now rewrite Hemb.
  - intros J emb net retries base j0 Hab H0.
    unfold fetchJSONWithRetry.
    apply (retry_loop_throw emb net retries base retries 0 0 [] (Error (str "HTTP " ++ decimal 404))).
    + rewrite request_no_abort, H0 by assumption. reflexivity.
    + rewrite transient_404. reflexivity.
  - intros J emb net retries base e Hreq Ht.
    unfold fetchJSONWithRetry. apply retry_loop_throw; [exact Hreq|]. now rewrite Ht.
  - intros J emb net retries base Hab Hfail.
    destruct (retry_loop_exhausted emb net retries base Hab Hfail (S retries) 0 0 [])
      as (e & ws & Hr & _); [lia | lia |].
    exists e, ws. unfold fetchJSONWithRetry. rewrite Hr. do 3 f_equal. lia.
  - intros J emb net retries base.
    destruct (retry_loop_total emb net retries base (S retries) 0 0 []) as (r & Hr & Hb); [lia|].
    exists r. split; [exact Hr|]. split; [lia|].
    destruct (retry_loop_requests emb net retries base _ _ _ _ _ Hr) as [_ Hall].
    intros k Hk. destruct (Hall k) as (H1 & H2 & H3); [lia|].
    split; [|split; assumption].
    intros Hk'. destruct (H1 Hk') as (e & Ee & Te & Le).
    exists e. repeat split; try assumption. lia.
  - exact transient_status.
Qed.

Lemma fetchJSONWithRetry_retries_transient_only_witness :
  exists ws, fetchJSONWithRetry nat (fun _ => None) flaky_network 4 (550 # 1)
             = Some (mkRun nat (Return 42) 3 ws).
Proof.
  apply (proj1 fetchJSONWithRetry_retries_transient_only
           nat (fun _ => None) flaky_network 4 (550 # 1)%Q 0 0 42);
    try reflexivity. lia.
Defined.

(** C5. When the signal is aborted while the loop waits after the
    failure of request [k], no request after that one is issued; and if
    the loop does come to that wait (the requests up to [k] fail with
    transient failures, [k] below [retries]) the call rejects with the
    [AbortError] of the wait, after exactly [k + 1] requests. *)
Theorem fetchJSONWithRetry_cancelled_in_backoff
        (J : Type) (emb : J -> option jsstring) (net : network J) (retries : nat)
        (baseDelayMs : Q) (k : nat) :
  abort J net = Some (DuringWait k) ->
  (forall r, fetchJSONWithRetry J emb net retries baseDelayMs = Some r ->
             attempts J r <= S k) /\
  (k < retries ->
   (forall n, n <= k -> exists e, fetchJSON J emb (reply_of J net n) = Throw e /\
                                  test_transient (error_text e) = true) ->
   exists ws, fetchJSONWithRetry J emb net retries baseDelayMs
              = Some (mkRun J (Throw AbortError) (S k) ws)) /\
  err_name AbortError = str "AbortError".
Proof.
  intros Hab. split; [|split; [|reflexivity]].
  - intros r Hr. apply (cancelled_wait_bound emb net retries baseDelayMs k Hab _ _ _ _ _ (Nat.le_0_l k) Hr).
  - intros Hk Hfail.
    apply (cancelled_wait_rejects emb net retries baseDelayMs k Hab Hfail); lia.
Qed.

Lemma fetchJSONWithRetry_cancelled_in_backoff_witness :
  exists ws, fetchJSONWithRetry nat (fun _ => None) cancelled_network 4 (550 # 1)
             = Some (mkRun nat (Throw AbortError) 2 ws).
Proof.
  apply (proj1 (proj2 (fetchJSONWithRetry_cancelled_in_backoff
                         nat (fun _ => None) cancelled_network 4 (550 # 1)%Q 1 eq_refl))).
  - lia.
  - intros n _. exists (Error (str "HTTP " ++ decimal 503)). split; reflexivity.
Defined.

End RetryProps.

(** ** The export job *)

Module ExportProps.
Import Str Utils Api ExportCenter.

Lemma app_eq_app_cons {T : Type} (n1 n2 pre post : list T) (ev : T) :
  n1 ++ n2 = pre ++ ev :: post ->
  (exists post1, n1 = pre ++ ev :: post1 /\ post = post1 ++ n2) \/
  (exists pre2, pre = n1 ++ pre2 /\ n2 = pre2 ++ ev :: post).
Proof.
  revert pre. induction n1 as [|a n1 IH]; intros pre H; simpl in *.
  - right. now exists pre.
  - destruct pre as [|p pre]; simpl in *.
    + injection H as -> H. left. exists n1. now subst.
    + injection H as -> H.
      destruct (IH _ H) as [(post1 & -> & ->)|(pre2 & -> & ->)]; [left|right]; eauto.
Qed.

Section Job.

Context {Attrs : Type}.
Variable py_owner_name : Attrs -> option jsstring.
Variable situs_zip : Attrs -> option jsstring.
Variable csv_line : list jsstring -> Row Attrs -> jsstring.
Variable srv : service Attrs.
Variable jb : job.

Local Abbreviation page_loop := (page_loop Attrs py_owner_name situs_zip csv_line srv jb).
Local Abbreviation export_zip := (export_zip Attrs py_owner_name situs_zip csv_line srv jb).
Local Abbreviation export_loop := (export_loop Attrs py_owner_name situs_zip csv_line srv jb).
Local Abbreviation export_all := (export_all Attrs py_owner_name situs_zip csv_line srv jb).
Local Abbreviation startExport := (startExport Attrs py_owner_name situs_zip csv_line srv jb).

Lemma quiet_nil : quiet (@nil (event Attrs)).
Proof. intros b a []. Qed.

Lemma quiet_app (n1 n2 : list (event Attrs)) : quiet n1 -> quiet n2 -> quiet (n1 ++ n2).
Proof. intros H1 H2 b a Hin. apply in_app_or in Hin as [Hin|Hin]; [eapply H1 | eapply H2]; eauto. Qed.

Lemma quiet_failed_post_last {A} (new : list (event Attrs)) (r : outcome A) :
  quiet new -> failed_post_last new r.
Proof.
  intros Hq pre b status post -> _. exfalso.
  apply (Hq b (PostStatus status)). apply in_or_app. right. now left.
Qed.

Lemma no_posts_fatal {A} (m : M Attrs A) : no_posts m -> posts_fatal m.
Proof.
  intros H w. destruct (H w) as (new & Ht & Hq).
  exists new. split; [exact Ht|]. now apply quiet_failed_post_last.
Qed.

(** The pieces that leave the trace alone. *)
Lemma silent_no_posts {A} (m : M Attrs A) :
  (forall w, trace (snd (m w)) = trace w) -> no_posts m.
Proof.
  intros H w. exists []. rewrite app_nil_r. split; [apply H | apply quiet_nil].
Qed.

Lemma np_ret {A} (a : A) : no_posts (@ret Attrs A a).
Proof. now apply silent_no_posts. Qed.

Lemma np_throw {A} (e : js_error) : no_posts (@throw Attrs A e).
Proof. now apply silent_no_posts. Qed.

Lemma np_out_of_fuel {A} : no_posts (@out_of_fuel Attrs A).
Proof. now apply silent_no_posts. Qed.

Lemma np_update (f : rstate -> rstate) : no_posts (@update Attrs f).
Proof. now apply silent_no_posts. Qed.

Lemma np_signal_aborted : no_posts (signal_aborted srv).
Proof. now apply silent_no_posts. Qed.

Lemma np_next_query : no_posts (@next_query Attrs).
Proof. now apply silent_no_posts. Qed.

Lemma np_await_query (q : query) : no_posts (await srv (EvQuery q)).
Proof.
  intros w. exists [EvQuery q]. split; [reflexivity|].
  intros b a [H|[]]. discriminate.
Qed.

Lemma np_await_sleep (ms : nat) : no_posts (await srv (EvSleep ms)).
Proof.
  intros w. exists [EvSleep ms]. split; [reflexivity|].
  intros b a [H|[]]. discriminate.
Qed.

Lemma np_download (b : CSVBuilder) (f : jsstring) : no_posts (@download Attrs b f).
Proof.
  intros w. eexists [_]. split; [reflexivity|].
  intros b' a [H|[]]. discriminate.
Qed.

Lemma np_bind {A B} (m : M Attrs A) (k : A -> M Attrs B) :
  no_posts m -> (forall a, no_posts (k a)) -> no_posts (bind m k).
Proof.
  intros Hm Hk w. destruct (Hm w) as (n1 & Ht1 & Hq1).
  unfold bind. destruct (m w) as [[a|e|] w1]; simpl in *.
  - destruct (Hk a w1) as (n2 & Ht2 & Hq2).
    exists (n1 ++ n2). rewrite Ht2, Ht1, app_assoc. split; [reflexivity|].
    now apply quiet_app.
  - now exists n1.
  - now exists n1.
Qed.

Lemma np_try_catch {A} (m : M Attrs A) (h : js_error -> M Attrs A) :
  no_posts m -> (forall e, no_posts (h e)) -> no_posts (try_catch m h).
Proof.
  intros Hm Hh w. destruct (Hm w) as (n1 & Ht1 & Hq1).
  unfold try_catch. destruct (m w) as [[a|e|] w1]; simpl in *.
  - now exists n1.
  - destruct (Hh e w1) as (n2 & Ht2 & Hq2).
    exists (n1 ++ n2). rewrite Ht2, Ht1, app_assoc. split; [reflexivity|].
    now apply quiet_app.
  - now exists n1.
Qed.

Lemma np_fetchJSONWithRetry (q : query) : no_posts (fetchJSONWithRetry srv q).
Proof.
  unfold fetchJSONWithRetry.
  apply np_bind; [apply np_next_query|]. intros n.
  apply np_bind; [apply np_await_query|]. intros [|]; [apply np_throw|].
  destruct (query_result srv n); [apply np_ret | apply np_throw].
Qed.

Lemma np_sleep (ms : nat) : no_posts (sleep srv ms).
Proof.
  unfold sleep. apply np_bind; [apply np_await_sleep|].
  intros [|]; [apply np_throw | apply np_ret].
Qed.

Lemma np_precount_loop (zs : list ZipRow) :
  forall totals, no_posts (precount_loop srv zs totals).
Proof.
  induction zs as [|z zs IH]; intros totals; cbn [precount_loop].
  - apply np_ret.
  - apply np_bind; [apply np_fetchJSONWithRetry|]. intros res. apply IH.
Qed.

Lemma np_precount : no_posts (precount srv jb).
Proof.
  unfold precount. apply np_try_catch.
  - apply np_bind; [apply np_precount_loop|]. intros totals.
    apply np_bind; [apply np_update|]. intros _. apply np_update.
  - intros e. apply np_update.
Qed.

Lemma np_on_error (e : js_error) : no_posts (@on_error Attrs e).
Proof.
  unfold on_error. destruct (list_eq_dec _ _ _); [apply np_update|].
  apply np_bind; [apply np_update|]. intros _. apply np_update.
Qed.

(** A failing POST ends whatever piece it happens in. *)
Lemma pf_bind {A B} (m : M Attrs A) (k : A -> M Attrs B) :
  posts_fatal m -> (forall a, posts_fatal (k a)) -> posts_fatal (bind m k).
Proof.
  intros Hm Hk w. destruct (Hm w) as (n1 & Ht1 & Hf1).
  unfold bind. destruct (m w) as [[a|e|] w1]; simpl in *.
  - destruct (Hk a w1) as (n2 & Ht2 & Hf2).
    exists (n1 ++ n2). rewrite Ht2, Ht1, app_assoc. split; [reflexivity|].
    intros pre b status post Heq Hok.
    apply app_eq_app_cons in Heq as [(post1 & E1 & _)|(pre2 & _ & E2)].
    + destruct (Hf1 _ _ _ _ E1 Hok) as [_ Habs]. discriminate.
    + exact (Hf2 _ _ _ _ E2 Hok).
  - exists n1. split; [exact Ht1|].
    intros pre b status post Heq Hok. destruct (Hf1 _ _ _ _ Heq Hok) as [Hp Hr].
    injection Hr as ->. now split.
  - exists n1. split; [exact Ht1|].
    intros pre b status post Heq Hok. destruct (Hf1 _ _ _ _ Heq Hok) as [_ Habs]. discriminate.
Qed.

Lemma pf_postNDJSON (objects : list (Row Attrs)) : posts_fatal (postNDJSON srv objects).
Proof.
  intros w. unfold postNDJSON, bind, next_post, await. cbn.
  set (a := answer_of srv (n_posts w) _).
  exists [EvPost objects a]. split.
  - destruct a as [e|status]; [reflexivity|]. now destruct (negb (ok status)).
  - intros pre b status post Heq Hok.
    destruct pre as [|p pre]; [|destruct pre; discriminate].
    cbn in Heq. injection Heq as _ Ha <-. split; [reflexivity|].
    rewrite Ha. cbn. now rewrite Hok.
Qed.

Lemma pf_post_batches (batches : list (list (Row Attrs))) :
  posts_fatal (post_batches srv batches).
Proof.
  induction batches as [|b rest IH]; cbn [post_batches].
  - apply no_posts_fatal, np_ret.
  - apply pf_bind; [apply pf_postNDJSON|]. intros _. exact IH.
Qed.

Lemma pf_page_loop (fuel : nat) :
  forall z zipTotal offset processed bs,
    posts_fatal (page_loop fuel z zipTotal offset processed bs).
Proof.
  induction fuel as [|fuel IH]; intros z zipTotal offset processed bs;
    cbn [ExportCenter.page_loop].
  - apply no_posts_fatal, np_out_of_fuel.
  - apply pf_bind; [apply no_posts_fatal, np_signal_aborted|].
    intros [|]; [apply no_posts_fatal, np_throw|].
    apply pf_bind; [apply no_posts_fatal, np_fetchJSONWithRetry|]. intros res.
    destruct (p_features res) as [|f feats]; [apply no_posts_fatal, np_ret|].
    apply pf_bind.
    { destruct (nonempty (webhookUrl jb)); [|apply no_posts_fatal, np_ret].
      destruct (chunkArray _ _); [apply pf_post_batches | apply no_posts_fatal, np_out_of_fuel]. }
    intros _. apply pf_bind; [apply no_posts_fatal, np_update|].
    intros _. apply pf_bind; [apply no_posts_fatal, np_update|].
    intros _. apply pf_bind.
    { destruct (0 <? throttleMs jb); apply no_posts_fatal; [apply np_sleep | apply np_ret]. }
    intros _. apply IH.
Qed.

Lemma pf_export_zip (fuel : nat) (z : ZipRow) (single_b : option CSVBuilder) :
  posts_fatal (export_zip fuel z single_b).
Proof.
  unfold ExportCenter.export_zip.
  apply pf_bind; [apply no_posts_fatal, np_signal_aborted|].
  intros [|]; [apply no_posts_fatal, np_throw|].
  apply pf_bind; [apply no_posts_fatal, np_update|]. intros _.
  apply pf_bind; [apply no_posts_fatal, np_update|]. intros _.
  apply pf_bind.
  { apply no_posts_fatal, np_try_catch.
    - apply np_bind; [apply np_fetchJSONWithRetry|]. intros res. apply np_ret.
    - intros e. apply np_ret. }
  intros zipTotal.
  apply pf_bind; [apply no_posts_fatal, np_update|]. intros _.
  apply pf_bind; [apply pf_page_loop|]. intros [bs processed].
  apply pf_bind.
  { destruct (exportMode jb); [apply no_posts_fatal, np_ret|].
    destruct (perZipBuilder bs); apply no_posts_fatal; [apply np_download | apply np_ret]. }
  intros _. apply pf_bind; [apply no_posts_fatal, np_update|]. intros _.
  apply no_posts_fatal, np_ret.
Qed.

Lemma pf_export_loop (fuel : nat) (zs : list ZipRow) :
  forall single_b, posts_fatal (export_loop fuel zs single_b).
Proof.
  induction zs as [|z zs IH]; intros single_b; cbn [ExportCenter.export_loop].
  - apply no_posts_fatal, np_ret.
  - apply pf_bind; [apply pf_export_zip|]. intros b. apply IH.
Qed.

Lemma pf_export_all (fuel : nat) (single_b : option CSVBuilder) :
  posts_fatal (export_all fuel single_b).
Proof.
  unfold ExportCenter.export_all.
  apply pf_bind; [apply pf_export_loop|]. intros b.
  apply pf_bind; [|intros _; apply no_posts_fatal, np_update].
  destruct (exportMode jb); [|apply no_posts_fatal, np_ret].
  destruct b; apply no_posts_fatal; [apply np_download | apply np_ret].
Qed.

End Job.

Lemma appendLog_last (line : log_line) (s : rstate) :
  exists l, exportLog (appendLog line s) = l ++ [line].
Proof.
  unfold appendLog, setExportLog. cbn.
  set (n := List.length (exportLog s ++ [line]) - 500).
  assert (Hn : n <= List.length (exportLog s)).
  { unfold n. rewrite length_app. simpl. lia. }
  exists (skipn n (exportLog s)).
  rewrite skipn_app. f_equal.
  replace (n - List.length (exportLog s)) with 0 by lia. reflexivity.
Qed.

Lemma on_error_webhook {Attrs : Type} (status : nat) (w : world Attrs) :
  on_error (webhook_error status) w =
  (Done tt,
   on_ui (fun s => appendLog (LogError (str "Webhook HTTP " ++ decimal status))
                     (setExportError (Some (str "Webhook HTTP " ++ decimal status)) s)) w).
Proof.
  unfold on_error.
  destruct (list_eq_dec ascii_dec (err_name (webhook_error status)) (str "AbortError")) as [E|_].
  - discriminate E.
  - reflexivity.
Qed.

Lemma on_error_done {Attrs : Type} (e : js_error) (w : world Attrs) :
  fst (on_error e w) = Done tt.
Proof. unfold on_error. now destruct (list_eq_dec _ _ _). Qed.

(** [startExport] on a non-empty list of ZIPs, step by step. *)
Lemma startExport_run
      {Attrs : Type} (py_owner_name situs_zip : Attrs -> option jsstring)
      (csv_line : list jsstring -> Row Attrs -> jsstring)
      (srv : service Attrs) (jb : job) (fuel : nat) (w : world Attrs) :
  exportZipList jb <> [] ->
  startExport Attrs py_owner_name situs_zip csv_line srv jb fuel w =
  match precount srv jb (on_ui startExport_enter w) with
  | (Done _, w2) =>
      try_finally
        (try_catch
           (export_all Attrs py_owner_name situs_zip csv_line srv jb fuel
              match exportMode jb with
              | single => Some (newCSVBuilder (singleHeaders jb))
              | perZip => None
              end)
           on_error)
        (on_ui startExport_finally) w2
  | (Raise e, w2) => (Raise e, w2)
  | (OutOfFuel, w2) => (OutOfFuel, w2)
  end.
Proof.
  intros Hne. unfold startExport.
  destruct (exportZipList jb) as [|z0 zs]; [contradiction|]. reflexivity.
Qed.

Lemma precount_no_raise {Attrs : Type} (srv : service Attrs) (jb : job) (w : world Attrs) :
  forall e, fst (precount srv jb w) <> Raise e.
Proof.
  intros e. unfold precount, try_catch.
  match goal with |- context [bind ?m ?k w] => destruct (bind m k w) as [[[]|e'|] w'] end;
    cbn; discriminate.
Qed.

(** A call of [startExport] on a non-empty list of ZIPs, when it ends,
    ends normally, whatever was thrown inside, with [exportRunning]
    false again and [abortRef.current] null: its [finally] block is the
    last thing it does. *)
Lemma startExport_settles
      {Attrs : Type} (py_owner_name situs_zip : Attrs -> option jsstring)
      (csv_line : list jsstring -> Row Attrs -> jsstring)
      (srv : service Attrs) (jb : job) (fuel : nat) (w : world Attrs) :
  exportZipList jb <> [] ->
  let res := startExport Attrs py_owner_name situs_zip csv_line srv jb fuel w in
  fst res = OutOfFuel \/
  (fst res = Done tt /\
   exportRunning (ui (snd res)) = false /\ abortRef (ui (snd res)) = false).
Proof.
  intros Hne res. subst res.
  rewrite (startExport_run py_owner_name situs_zip csv_line srv jb fuel w Hne).
  pose proof (precount_no_raise srv jb (on_ui startExport_enter w)) as Hp.
  destruct (precount srv jb (on_ui startExport_enter w)) as [[[]|e|] w2].
  - unfold try_finally, try_catch.
    match goal with |- context [export_all ?a ?b ?c ?d ?e ?f ?g ?h ?i] =>
      destruct (export_all a b c d e f g h i) as [[[]|e3|] w3] end.
    + right. cbn. auto.
    + pose proof (on_error_done e3 w3) as Hd.
      destruct (on_error e3 w3) as [r4 w4]. cbn in Hd. subst r4. right. cbn. auto.
    + left. reflexivity.
  - exfalso. now apply (Hp e).
  - left. reflexivity.
Qed.

(** C9. A webhook POST that is answered with a non-success status is
    the last thing the export job does to the outside: no page is
    fetched, no batch posted and no file delivered after it, for this
    ZIP or a later one.  [startExport] then ends with the failure
    "Webhook HTTP <status>" as its error, logged, and the job no longer
    running. *)
Theorem webhook_failure_aborts_job
        {Attrs : Type} (py_owner_name situs_zip : Attrs -> option jsstring)
        (csv_line : list jsstring -> Row Attrs -> jsstring)
        (srv : service Attrs) (jb : job) (fuel : nat) (w : world Attrs)
        (pre post : list (event Attrs)) (b : list (Row Attrs)) (status : nat) :
  let res := startExport Attrs py_owner_name situs_zip csv_line srv jb fuel w in
  trace (snd res) = trace w ++ pre ++ EvPost b (PostStatus status) :: post ->
  ok status = false ->
  post = [] /\
  fst res = Done tt /\
  exportError (ui (snd res)) = Some (str "Webhook HTTP " ++ decimal status) /\
  exportRunning (ui (snd res)) = false /\
  exists l, exportLog (ui (snd res)) = l ++ [LogError (str "Webhook HTTP " ++ decimal status)].
Proof.
  intros res Htr Hok.
  destruct (exportZipList jb) as [|z0 zs] eqn:Ezs.
  { exfalso. subst res. unfold startExport in Htr. rewrite Ezs in Htr. cbn in Htr.
    apply (f_equal (@List.length _)) in Htr. rewrite !length_app in Htr. simpl in Htr. lia. }
  assert (Hres : res = _)
    by (apply (startExport_run py_owner_name situs_zip csv_line srv jb fuel w);
        rewrite Ezs; discriminate).
  clearbody res. subst res. clear Ezs z0 zs. revert Htr.
  set (w1 := on_ui startExport_enter w).
  destruct (np_precount srv jb w1) as (n2 & Ht2 & Hq2).
  destruct (precount srv jb w1) as [[[]|e2|] w2]; cbn [fst snd] in *.
  2:{ intros Htr. exfalso. rewrite Ht2 in Htr. apply app_inv_head in Htr.
      apply (Hq2 b (PostStatus status)). rewrite Htr. apply in_or_app. right. now left. }
  2:{ intros Htr. exfalso. rewrite Ht2 in Htr. apply app_inv_head in Htr.
      apply (Hq2 b (PostStatus status)). rewrite Htr. apply in_or_app. right. now left. }
  unfold try_finally, try_catch.
  set (single_b := match exportMode jb with single => _ | perZip => _ end).
  destruct (pf_export_all py_owner_name situs_zip csv_line srv jb fuel single_b w2)
    as (n3 & Ht3 & Hf3).
  destruct (export_all Attrs py_owner_name situs_zip csv_line srv jb fuel single_b w2)
    as [r3 w3]; cbn [fst snd] in *.
  assert (Hcase : trace w3 = trace w ++ pre ++ EvPost b (PostStatus status) :: post ->
                  post = [] /\ r3 = Raise (webhook_error status)).
  { intros Htr. rewrite Ht3, Ht2 in Htr. change (trace w1) with (trace w) in Htr.
    rewrite <- app_assoc in Htr. apply app_inv_head in Htr.
    apply app_eq_app_cons in Htr as [(post1 & E1 & _)|(pre2 & _ & E2)].
    - exfalso. apply (Hq2 b (PostStatus status)). rewrite E1. apply in_or_app. right. now left.
    - exact (Hf3 _ _ _ _ E2 Hok). }
  destruct r3 as [[]|e3|].
  - cbn. intros Htr. destruct (Hcase Htr) as [_ Habs]. discriminate.
  - destruct (on_error e3 w3) as [r4 w4] eqn:E4.
    assert (Ht4 : trace w4 = trace w3).
    { destruct (np_on_error e3 w3) as (n4 & Hn4 & _).
      replace w4 with (snd (on_error e3 w3)) by now rewrite E4.
      unfold on_error. destruct (list_eq_dec _ _ _); reflexivity. }
    intros Htr.
    assert (Htr3 : trace w3 = trace w ++ pre ++ EvPost b (PostStatus status) :: post).
    { rewrite <- Ht4. destruct r4; exact Htr. }
    destruct (Hcase Htr3) as [-> He3]. injection He3 as ->.
    rewrite on_error_webhook in E4. injection E4 as <- <-.
    cbn. split; [reflexivity|]. split; [reflexivity|]. split; [reflexivity|].
    split; [reflexivity|].
    destruct (appendLog_last (LogError (str "Webhook HTTP " ++ decimal status))
                (setExportError (Some (str "Webhook HTTP " ++ decimal status)) (ui w3)))
      as (l & Hl).
    exists l. exact Hl.
  - cbn. intros Htr. destruct (Hcase Htr) as [_ Habs]. discriminate.
Qed.

Lemma webhook_failure_aborts_job_witness :
  let res := startExport nat sample_owner sample_zip sample_line sample_service sample_job
                         10 initial_world in
  fst res = Done tt /\
  exportError (ui (snd res)) = Some (str "Webhook HTTP 500") /\
  exportRunning (ui (snd res)) = false.
Proof.
  pose proof (webhook_failure_aborts_job sample_owner sample_zip sample_line
                sample_service sample_job 10 initial_world
                [EvQuery (CountQuery (str "78701")); EvQuery (CountQuery (str "78702"));
                 EvQuery (CountQuery (str "78701")); EvQuery (PageQuery (str "78701") 0 500);
                 EvPost [enrich nat sample_owner sample_zip 1;
                         enrich nat sample_owner sample_zip 2] (PostStatus 200)]
                [] [enrich nat sample_owner sample_zip 3] 500 eq_refl eq_refl) as H.
  destruct H as (_ & H1 & H2 & H3 & _). repeat split; assumption.
Defined.

End ExportProps.

(** ** The Start and Cancel buttons *)

Module PanelProps.
Import Str Api ExportCenter.

Lemma coherent_initial : coherent initial_panel.
Proof. reflexivity. Qed.

(** A step keeps the flag and the count together, when a click on Start
    is made on a page that is up to date. *)
Lemma coherent_step (p : panel) (a : action) :
  match a with ClickStart _ => up_to_date p | _ => true end = true ->
  coherent p -> coherent (step p a).
Proof.
  unfold coherent. intros Hup H. destruct a as [no_zips| | |]; cbn [step].
  - destruct (shown_running p) eqn:Es; [exact H|].
    unfold up_to_date in Hup. rewrite Es in Hup. cbn in Hup.
    apply negb_true_iff in Hup.
    unfold call_startExport. destruct no_zips; cbn.
    + exact H.
    + now rewrite H, Hup.
  - exact H.
  - exact H.
  - destruct (inflight p) as [|n] eqn:E; [now rewrite E|].
    cbn. destruct (exportRunning (state p)); congruence.
Qed.

Lemma coherent_run (acts : list action) :
  forall p, clicks_up_to_date p acts = true -> coherent p -> coherent (run_panel p acts).
Proof.
  induction acts as [|a acts IH]; intros p Hup H; cbn; [exact H|].
  cbn [clicks_up_to_date] in Hup. apply andb_true_iff in Hup as [Ha Hrest].
  apply IH; [exact Hrest|]. now apply coherent_step.
Qed.

(** A render brings the page up to date, so a run in which a render
    comes right before every click on Start has all its clicks on pages
    that are up to date. *)
Lemma render_up_to_date (p : panel) : up_to_date (step p Render) = true.
Proof. unfold up_to_date. cbn. now destruct (exportRunning (state p)). Qed.

(** [startExport] does not look at [exportRunning] itself: called
    again while a job is in flight it begins a second one.  The
    Start button is what keeps this from happening. *)
Remark startExport_has_no_guard_of_its_own (p : panel) :
  inflight (call_startExport false (call_startExport false p)) = S (S (inflight p)).
Proof. reflexivity. Qed.

(** C3. When every click on Start is made on a page rendered since
    [exportRunning] last became true, then whatever the user clicks and
    whenever jobs end, at most one export job is in flight, and
    [exportRunning] says whether one is; and while one is in flight a
    click on the Start button of such a page changes nothing: no second
    job begins.  (That a job which ends leaves [exportRunning] false is
    [ExportProps.startExport_settles].) *)
Theorem one_export_job_at_a_time (acts : list action) :
  clicks_up_to_date initial_panel acts = true ->
  let p := run_panel initial_panel acts in
  inflight p <= 1 /\
  (exportRunning (state p) = true <-> inflight p = 1) /\
  (0 < inflight p -> up_to_date p = true ->
   forall no_zips, step p (ClickStart no_zips) = p).
Proof.
  intros Hup p.
  assert (H : coherent p) by (apply coherent_run; [exact Hup | apply coherent_initial]).
  unfold coherent in H. split; [|split].
  - rewrite H. destruct (exportRunning (state p)); lia.
  - rewrite H. destruct (exportRunning (state p)); split; intros; try reflexivity; discriminate.
  - intros Hpos Hp no_zips. cbn [step]. rewrite H in Hpos. unfold up_to_date in Hp.
    destruct (exportRunning (state p)); [|lia].
    rewrite orb_false_r in Hp. now rewrite Hp.
Qed.

Lemma one_export_job_at_a_time_witness :
  let acts := [ClickStart true; Render; ClickStart false; Render; ClickStart false;
               ClickCancel; JobSettles; Render; ClickStart false] in
  clicks_up_to_date initial_panel acts = true /\
  let p := run_panel initial_panel acts in
  inflight p <= 1 /\
  (exportRunning (state p) = true <-> inflight p = 1) /\
  (0 < inflight p -> up_to_date p = true ->
   forall no_zips, step p (ClickStart no_zips) = p).
Proof.
  split; [reflexivity|].
  exact (one_export_job_at_a_time
           [ClickStart true; Render; ClickStart false; Render; ClickStart false;
            ClickCancel; JobSettles; Render; ClickStart false] eq_refl).
Defined.

(** Two clicks on Start with no render between them: the second one
    finds the button as the first one found it, and a second job
    begins beside the first. *)
Lemma one_job_at_a_time_fails : ~ one_job_at_a_time.
Proof.
  intros H. specialize (H [ClickStart false; ClickStart false]).
  vm_compute in H. lia.
Qed.

(** With a render between the two clicks the second one does nothing. *)
Example two_clicks_and_a_render :
  inflight (run_panel initial_panel [ClickStart false; ClickStart false]) = 2 /\
  inflight (run_panel initial_panel [ClickStart false; Render; ClickStart false]) = 1.
Proof. split; reflexivity. Qed.

End PanelProps.

(** ** isLikelyPersonName, splitPersonNames, normalizeOwnerKey *)

Module PersonProps.
Import Str Utils StrFacts.

Lemma letter_not_punct (c : ascii) : is_letter c = true -> is_punct c = false.
Proof. ascii_cases c. Qed.

Lemma letter_is_key_char (c : ascii) : is_letter c = true -> is_key_char c = true.
Proof. ascii_cases c. Qed.

Lemma alpha_word_letters (w : jsstring) :
  is_alpha_word w = true -> w <> [] /\ letters w.
Proof.
  unfold is_alpha_word. intros H. apply andb_true_iff in H as [Hn Hl].
  split; [now destruct w | exact Hl].
Qed.

(** No character of two words with a space between them is in a class
    that has no letter and not the space. *)
Lemma two_words_clean (p : ascii -> bool) (w1 w2 : jsstring) :
  (forall c, is_letter c = true -> p c = false) -> p " "%char = false ->
  letters w1 -> letters w2 ->
  forallb (fun c => negb (p c)) (two_words w1 w2) = true.
Proof.
  intros Hp Hsp H1 H2. unfold two_words. rewrite !forallb_app. cbn.
  rewrite Hsp. cbn.
  assert (A : forall w, letters w -> forallb (fun c => negb (p c)) w = true).
  { intros w Hw. apply forallb_forall. intros c Hc.
    rewrite (Hp c); [reflexivity|]. eapply letters_In; eauto. }
  now rewrite (A w1 H1), (A w2 H2).
Qed.

Lemma word_clean (p : ascii -> bool) (w : jsstring) :
  (forall c, is_letter c = true -> p c = false) -> letters w ->
  forallb (fun c => negb (p c)) w = true.
Proof.
  intros Hp Hw. apply forallb_forall. intros c Hc.
  rewrite (Hp c); [reflexivity|]. eapply letters_In; eauto.
Qed.

(** Two words begin and end with a letter. *)
Lemma two_words_ends (w1 w2 : jsstring) :
  is_alpha_word w1 = true -> is_alpha_word w2 = true ->
  exists c m d, two_words w1 w2 = c :: m ++ [d] /\ is_letter c = true /\ is_letter d = true.
Proof.
  intros H1 H2.
  apply alpha_word_letters in H1 as [N1 L1]. apply alpha_word_letters in H2 as [N2 L2].
  destruct w1 as [|c w1]; [contradiction|].
  destruct (letters_last w2 L2 N2) as (w2' & d & -> & Hd).
  exists c, (w1 ++ str " " ++ w2'), d. split.
  - unfold two_words. cbn. now rewrite <- !app_assoc.
  - split; [|exact Hd]. now apply letters_cons in L1.
Qed.

Lemma two_words_trim (w1 w2 : jsstring) :
  is_alpha_word w1 = true -> is_alpha_word w2 = true ->
  trim (two_words w1 w2) = two_words w1 w2.
Proof.
  intros H1 H2. destruct (two_words_ends w1 w2 H1 H2) as (c & m & d & -> & Hc & Hd).
  apply trim_id; now apply letter_not_space.
Qed.

Lemma two_words_nonempty (w1 w2 : jsstring) : nonempty (two_words w1 w2) = true.
Proof. unfold two_words. now destruct w1. Qed.

Lemma two_words_collapse (w1 w2 : jsstring) :
  letters w1 -> letters w2 ->
  replace_runs is_space (str " ") (two_words w1 w2) = two_words w1 w2.
Proof.
  intros L1 L2. unfold replace_runs, two_words.
  rewrite (replace_runs_from_clean is_space (str " ") w1 (word_clean _ _ letter_not_space L1)).
  f_equal. replace (match w1 with [] => false | _ => false end) with false by now destruct w1.
  cbn. f_equal.
  apply replace_runs_from_clean_all. apply (word_clean _ _ letter_not_space L2).
Qed.

Lemma two_words_split (w1 w2 : jsstring) :
  letters w1 -> letters w2 ->
  split " " (two_words w1 w2) = [w1; w2].
Proof.
  intros L1 L2. unfold two_words. cbn.
  assert (A : forall c, is_letter c = true -> Ascii.eqb c " " = false)
    by (intros c Hc; now apply letter_neq).
  apply split_two; now apply (word_clean (fun c => Ascii.eqb c " ")).
Qed.

Lemma word_no_digit (w : jsstring) : letters w -> test_any is_digit w = false.
Proof.
  intros L. unfold test_any. apply not_true_is_false. intros H.
  apply existsb_exists in H as (c & Hc & Hd).
  rewrite (letter_not_digit c) in Hd; [discriminate|]. eapply letters_In; eauto.
Qed.

(** What [isLikelyPersonName] answers on two alphabetic tokens that
    carry no negative and no business token: it accepts them exactly
    when both have three letters or more and none is an address word. *)
Lemma isLikelyPersonName_two_words (w1 w2 : jsstring) :
  is_alpha_word w1 = true -> is_alpha_word w2 = true ->
  no_negative_token (two_words w1 w2) = true ->
  no_business_token (two_words w1 w2) = true ->
  isLikelyPersonName (Some (two_words w1 w2))
  = (3 <=? List.length w1) && (3 <=? List.length w2)
    && negb (is_address_token w1) && negb (is_address_token w2).
Proof.
  intros H1 H2 Hneg Hbiz.
  destruct (alpha_word_letters w1 H1) as [N1 L1].
  destruct (alpha_word_letters w2 H2) as [N2 L2].
  unfold isLikelyPersonName.
  rewrite two_words_nonempty. cbn [negb].
  rewrite (two_words_trim w1 w2 H1 H2), two_words_nonempty. cbn [negb].
  unfold no_negative_token in Hneg. apply negb_true_iff in Hneg. rewrite Hneg.
  unfold no_business_token in Hbiz. apply negb_true_iff in Hbiz. rewrite Hbiz.
  replace (replace_runs is_punct (str " ") (two_words w1 w2)) with (two_words w1 w2).
  2:{ symmetry. apply replace_runs_from_clean_all.
      now apply two_words_clean; [apply letter_not_punct | | |]. }
  rewrite (two_words_collapse w1 w2 L1 L2), (two_words_trim w1 w2 H1 H2).
  rewrite (two_words_split w1 w2 L1 L2).
  unfold filter_Boolean. cbn [filter].
  destruct w1 as [|c1 w1]; [contradiction|]. destruct w2 as [|c2 w2]; [contradiction|].
  cbn [nonempty List.length Nat.ltb Nat.leb existsb Nat.sub filter].
  rewrite (word_no_digit _ L1), (word_no_digit _ L2). cbn [orb].
  rewrite orb_false_r.
  destruct (is_address_token (c1 :: w1)), (is_address_token (c2 :: w2));
    cbn [orb negb andb]; rewrite ?andb_false_r; try reflexivity.
  rewrite !andb_true_r.
  destruct w1 as [|? [|? w1]], w2 as [|? [|? w2]]; reflexivity.
Qed.

(** *** classifyOwner on names without a business token *)

Lemma drop_while_suffix (p : ascii -> bool) (s : jsstring) :
  exists pre, s = pre ++ drop_while p s.
Proof.
  induction s as [|c s (pre & IH)]; [now exists []|].
  simpl. destruct (p c).
  - exists (c :: pre). simpl. now f_equal.
  - now exists [].
Qed.

Lemma trim_inside (s : jsstring) : exists pre post, s = pre ++ trim s ++ post.
Proof.
  unfold trim, drop_while_end.
  destruct (drop_while_suffix is_space s) as (pre & E).
  destruct (drop_while_suffix is_space (rev (drop_while is_space s))) as (post & E').
  exists pre, (rev post). rewrite <- rev_app_distr, <- E', rev_involutive. exact E.
Qed.

Lemma classifyOwner_no_business_token (s : jsstring) :
  no_business_token s = true -> classifyOwner (Some s) = residential.
Proof.
  unfold no_business_token, classifyOwner. intros H. apply negb_true_iff in H.
  destruct (negb (nonempty s)); [reflexivity|].
  destruct (existsb (fun t => includes (toUpperCase s) t) BIZ_LIKE_TOKENS) eqn:E; [|reflexivity].
  apply existsb_exists in E as (t & Hin & Hinc).
  assert (A : existsb (fun t => includes (toUpperCase s) (trim t)) BIZ_LIKE_TOKENS = true).
  { apply existsb_exists. exists t. split; [exact Hin|].
    destruct (trim_inside t) as (pre & post & Et). rewrite Et in Hinc.
    now apply includes_weaken in Hinc. }
  congruence.
Qed.

(** C2, as the code has it.  On two alphabetic tokens with one space
    between them, each of three letters or more and none of them an
    address word (LOT, BLK, UNIT, STE, APT), that carry no negative and
    no business token, [isLikelyPersonName] answers [true] and
    [classifyOwner] answers [residential]. *)
Theorem isLikelyPersonName_two_alphabetic_tokens (w1 w2 : jsstring) :
  is_alpha_word w1 = true -> is_alpha_word w2 = true ->
  no_negative_token (two_words w1 w2) = true ->
  no_business_token (two_words w1 w2) = true ->
  3 <= List.length w1 -> 3 <= List.length w2 ->
  is_address_token w1 = false -> is_address_token w2 = false ->
  isLikelyPersonName (Some (two_words w1 w2)) = true /\
  classifyOwner (Some (two_words w1 w2)) = residential.
Proof.
  intros H1 H2 Hneg Hbiz L1 L2 A1 A2. split.
  - rewrite (isLikelyPersonName_two_words w1 w2 H1 H2 Hneg Hbiz), A1, A2.
    apply Nat.leb_le in L1, L2. now rewrite L1, L2.
  - now apply classifyOwner_no_business_token.
Qed.

Lemma isLikelyPersonName_two_alphabetic_tokens_witness :
  isLikelyPersonName (Some (str "John Smith")) = true /\
  classifyOwner (Some (str "John Smith")) = residential.
Proof.
  apply (isLikelyPersonName_two_alphabetic_tokens (str "John") (str "Smith"));
    try reflexivity; simpl; lia.
Defined.

(** "Ed Li" is two alphabetic tokens without a negative or business
    token, and [isLikelyPersonName] rejects it: its tokens are short, as
    those of an abbreviation are. *)
Lemma every_two_token_name_is_a_person_fails : ~ every_two_token_name_is_a_person.
Proof.
  intros H.
  destruct (H (str "Ed") (str "Li") eq_refl eq_refl eq_refl eq_refl) as [Habs _].
  vm_compute in Habs. discriminate.
Qed.

(** One short token out of two is enough for the rejection, and so is
    an address word. *)
Example isLikelyPersonName_Al_Smith :
  isLikelyPersonName (Some (str "Al Smith")) = false /\
  isLikelyPersonName (Some (str "Lot Smith")) = false.
Proof. split; reflexivity. Qed.

(** *** splitPersonNames *)

Lemma split_loop_all_rejected (parts : list jsstring) :
  (forall part, In part parts -> isLikelyPersonName (Some (candidate part)) = false) ->
  split_loop parts = [].
Proof.
  induction parts as [|part rest IH]; intros H; [reflexivity|].
  cbn [split_loop]. rewrite (H part) by now left. cbn [negb].
  apply IH. intros p Hp. apply H. now right.
Qed.

Lemma split_loop_accepted (parts : list jsstring) (p : PersonName) :
  In p (split_loop parts) ->
  exists part, In part parts /\
               isLikelyPersonName (Some (candidate part)) = true /\
               parse_person (candidate part) = Some p.
Proof.
  induction parts as [|part rest IH]; intros H; [destruct H|].
  cbn [split_loop] in H.
  destruct (isLikelyPersonName (Some (candidate part))) eqn:E; cbn [negb] in H.
  - destruct (parse_person (candidate part)) as [q|] eqn:Ep.
    + destruct H as [<-|H].
      * exists part. repeat split; [now left | exact E | exact Ep].
      * destruct (IH H) as (part' & Hin & Hok). exists part'. split; [now right | exact Hok].
    + destruct (IH H) as (part' & Hin & Hok). exists part'. split; [now right | exact Hok].
  - destruct (IH H) as (part' & Hin & Hok). exists part'. split; [now right | exact Hok].
Qed.

(** C6. [splitPersonNames] answers the empty array for an absent, empty
    or blank string and for a string none of whose segments looks like a
    person to [isLikelyPersonName], for instance "ACME LLC"; every
    person it answers comes from a segment that [isLikelyPersonName]
    accepts.  On "Smith, John & Doe, Jane" it answers two persons, John
    Smith and then Jane Doe. *)
Theorem splitPersonNames_conservative :
  splitPersonNames None = [] /\
  splitPersonNames (Some []) = [] /\
  (forall raw, trim raw = [] -> splitPersonNames (Some raw) = []) /\
  (forall raw,
      (forall part, In part (segments (trim raw)) ->
                    isLikelyPersonName (Some (candidate part)) = false) ->
      splitPersonNames (Some raw) = []) /\
  (forall raw p,
      In p (splitPersonNames (Some raw)) ->
      exists part, In part (segments (trim raw)) /\
                   isLikelyPersonName (Some (candidate part)) = true /\
                   parse_person (candidate part) = Some p) /\
  splitPersonNames (Some (str "ACME LLC")) = [] /\
  (let r := splitPersonNames (Some (str "Smith, John & Doe, Jane")) in
   r = [mkPerson (str "John") None (str "Smith") (str "John Smith");
        mkPerson (str "Jane") None (str "Doe") (str "Jane Doe")] /\
   2 <= List.length r /\
   option_map first (nth_error r 0) = Some (str "John") /\
   option_map first (nth_error r 1) = Some (str "Jane")).
Proof.
  split; [reflexivity|]. split; [reflexivity|]. split; [|split; [|split; [|split]]].
  - intros raw H. unfold splitPersonNames. rewrite H.
    now destruct (negb (nonempty raw)).
  - intros raw H. unfold splitPersonNames.
    destruct (negb (nonempty raw)); [reflexivity|].
    destruct (negb (nonempty (trim raw))); [reflexivity|].
    now apply split_loop_all_rejected.
  - intros raw p. unfold splitPersonNames.
    destruct (negb (nonempty raw)); [intros []|].
    destruct (negb (nonempty (trim raw))); [intros []|].
    apply split_loop_accepted.
  - reflexivity.
  - cbv zeta. split; [reflexivity|]. split; [|split]; vm_compute; [lia | reflexivity | reflexivity].
Qed.

Lemma splitPersonNames_conservative_witness :
  (forall part, In part (segments (trim (str "ACME LLC ; PO BOX 12"))) ->
                isLikelyPersonName (Some (candidate part)) = false) /\
  splitPersonNames (Some (str "ACME LLC ; PO BOX 12")) = [].
Proof.
  assert (H : forall part, In part (segments (trim (str "ACME LLC ; PO BOX 12"))) ->
                           isLikelyPersonName (Some (candidate part)) = false).
  { intros part Hin. vm_compute in Hin.
    destruct Hin as [<-|[<-|[]]]; reflexivity. }
  split; [exact H|].
  apply (proj1 (proj2 (proj2 (proj2 splitPersonNames_conservative)))
           (str "ACME LLC ; PO BOX 12") H).
Defined.

(** *** normalizeOwnerKey on a key of two words *)

Lemma letter_neq_l (c d : ascii) :
  is_letter c = true -> is_letter d = false -> Ascii.eqb d c = false.
Proof. intros Hc Hd. rewrite Ascii.eqb_sym. now apply letter_neq. Qed.

Lemma lower_word_alpha (w : jsstring) : is_lower_word w = true -> is_alpha_word w = true.
Proof.
  unfold is_lower_word, is_alpha_word. intros H. apply andb_true_iff in H as [Hn Hl].
  rewrite Hn. cbn. apply forallb_forall. intros c Hc.
  apply lower_is_letter. rewrite forallb_forall in Hl. now apply Hl.
Qed.

Lemma lower_word_toLowerCase (w : jsstring) :
  forallb is_lower w = true -> toLowerCase w = w.
Proof.
  unfold toLowerCase. induction w as [|c w IH]; [reflexivity|].
  cbn [map forallb]. intros H. apply andb_true_iff in H as [Hc Hw].
  now rewrite (lower_char_lower c Hc), (IH Hw).
Qed.

Lemma span_len_letters (w : jsstring) : letters w -> span_len is_space w = 0.
Proof.
  destruct w as [|c w]; [reflexivity|]. intros H. apply letters_cons in H as [Hc _].
  cbn. now rewrite (letter_not_space c Hc).
Qed.

Lemma letters_skipn (k : nat) (w : jsstring) : letters w -> letters (skipn k w).
Proof.
  intros H. rewrite <- (firstn_skipn k w) in H. now apply letters_app in H.
Qed.

(** The separator pattern matches neither at a letter nor at a single
    space in front of a word. *)
Lemma match_sep_letter (c : ascii) (x : jsstring) :
  is_letter c = true -> match_sep (c :: x) = None.
Proof.
  intros Hc. unfold match_sep. cbn [span_len]. rewrite (letter_not_space c Hc).
  cbn [Nat.ltb Nat.leb andb skipn].
  cbn [str list_ascii_of_string starts_with].
  rewrite !(letter_neq_l c) by (assumption || reflexivity). reflexivity.
Qed.

Lemma match_sep_space_word (w : jsstring) :
  letters w -> w <> [] -> match_sep (" "%char :: w) = None.
Proof.
  intros L N. destruct w as [|c w]; [contradiction|].
  pose proof L as L'. apply letters_cons in L' as [Hc Lw].
  assert (E1 : span_len is_space (" "%char :: c :: w) = 1)
    by (cbn; now rewrite (letter_not_space c Hc)).
  unfold match_sep. cbv zeta. rewrite E1.
  change (skipn 1 (" "%char :: c :: w)) with (c :: w).
  rewrite (span_len_letters (skipn 3 (c :: w))) by now apply letters_skipn.
  rewrite (span_len_letters (skipn 1 (c :: w))) by now apply letters_skipn.
  cbn [str list_ascii_of_string starts_with].
  rewrite !(letter_neq_l c) by (assumption || reflexivity).
  cbn. now rewrite andb_false_r.
Qed.

Lemma replace_sep_from_word (w rest : jsstring) :
  letters w -> replace_sep_from 0 (w ++ rest) = w ++ replace_sep_from 0 rest.
Proof.
  induction w as [|c w IH]; intros L; [reflexivity|].
  apply letters_cons in L as [Hc Lw].
  cbn [app replace_sep_from]. rewrite (match_sep_letter c _ Hc). now rewrite (IH Lw).
Qed.

Lemma two_words_replace_sep (w1 w2 : jsstring) :
  letters w1 -> letters w2 -> w2 <> [] ->
  replace_sep (two_words w1 w2) = two_words w1 w2.
Proof.
  intros L1 L2 N2. unfold replace_sep, two_words.
  rewrite (replace_sep_from_word w1 _ L1). f_equal.
  cbn [str list_ascii_of_string app replace_sep_from].
  rewrite (match_sep_space_word w2 L2 N2). f_equal.
  rewrite <- (app_nil_r w2) at 1. rewrite (replace_sep_from_word w2 [] L2).
  cbn. apply app_nil_r.
Qed.

Lemma two_words_segments (w1 w2 : jsstring) :
  is_alpha_word w1 = true -> is_alpha_word w2 = true ->
  segments (two_words w1 w2) = [two_words w1 w2].
Proof.
  intros H1 H2.
  destruct (alpha_word_letters w1 H1) as [N1 L1].
  destruct (alpha_word_letters w2 H2) as [N2 L2].
  unfold segments. rewrite (two_words_replace_sep w1 w2 L1 L2 N2).
  rewrite split_clean.
  - cbn [map]. rewrite (two_words_trim w1 w2 H1 H2).
    unfold filter_Boolean. cbn [filter]. now rewrite two_words_nonempty.
  - apply (two_words_clean (fun c => Ascii.eqb c "|")); try assumption; [|reflexivity].
    intros c Hc. now apply letter_neq.
Qed.

Lemma two_words_candidate (w1 w2 : jsstring) :
  is_alpha_word w1 = true -> is_alpha_word w2 = true ->
  candidate (two_words w1 w2) = two_words w1 w2.
Proof.
  intros H1 H2.
  destruct (alpha_word_letters w1 H1) as [N1 L1].
  destruct (alpha_word_letters w2 H2) as [N2 L2].
  unfold candidate, reorder_comma.
  replace (test_any (Ascii.eqb ",") (two_words w1 w2)) with false.
  2:{ symmetry. unfold test_any. apply not_true_is_false. intros H.
      apply existsb_exists in H as (c & Hin & Hc). apply Ascii.eqb_eq in Hc. subst c.
      pose proof (two_words_clean (fun c => Ascii.eqb c ",") w1 w2) as A.
      rewrite forallb_forall in A.
      specialize (A (fun c Hc => letter_neq c ","%char Hc eq_refl) eq_refl L1 L2 _ Hin).
      discriminate. }
  destruct (two_words_ends w1 w2 H1 H2) as (c & m & d & E & Hc & Hd).
  unfold strip_parens. rewrite E.
  rewrite (drop_both_id (Ascii.eqb "(") (Ascii.eqb ")") c d m)
    by (now apply letter_neq_l).
  apply trim_id; now apply letter_not_space.
Qed.

Lemma two_words_strip_title (w1 w2 : jsstring) :
  no_title w1 = true -> strip_title (two_words w1 w2) = two_words w1 w2.
Proof.
  unfold no_title, strip_title. intros H. apply negb_true_iff in H.
  destruct (find (fun t => starts_with_ci t (two_words w1 w2)) titles) as [t|] eqn:E;
    [|reflexivity].
  exfalso. apply find_some in E as [Hin Ht].
  assert (A : starts_with_ci t w1 = true).
  { unfold starts_with_ci, two_words in *. rewrite toUpperCase_app in Ht.
    cbn [str list_ascii_of_string app toUpperCase map] in Ht.
    apply (starts_with_cut _ _ _ _) in Ht; [exact Ht|].
    unfold titles in Hin. cbn in Hin.
    repeat (destruct Hin as [<-|Hin];
            [vm_compute; intros X; repeat (destruct X as [X|X]; [discriminate X|]); exact X|]).
    destruct Hin. }
  assert (B : existsb (fun t => starts_with_ci t w1) titles = true)
    by (apply existsb_exists; now exists t).
  congruence.
Qed.

Lemma is_suffix_tail_short (x : jsstring) : is_suffix_tail x = true -> List.length x <= 4.
Proof.
  unfold is_suffix_tail. intros H. apply existsb_exists in H as (t & Hin & Ht).
  assert (Lt : List.length t <= 3).
  { unfold suffixes in Hin. cbn in Hin.
    repeat (destruct Hin as [<-|Hin]; [cbn; lia|]). destruct Hin. }
  apply orb_true_iff in Ht as [Ht|Ht]; apply eq_ci_length in Ht; rewrite Ht.
  - lia.
  - rewrite length_app. cbn. lia.
Qed.

Lemma strip_suffix_from_word (w rest : jsstring) :
  letters w ->
  strip_suffix_from true (w ++ rest) = w ++ strip_suffix_from true rest.
Proof.
  induction w as [|c w IH]; intros L; [reflexivity|].
  apply letters_cons in L as [Hc Lw].
  cbn [app strip_suffix_from negb andb]. rewrite (letter_is_word c Hc). now rewrite (IH Lw).
Qed.

Lemma two_words_strip_suffix (w1 w2 : jsstring) :
  is_alpha_word w1 = true -> is_alpha_word w2 = true ->
  3 <= List.length w1 -> 3 <= List.length w2 ->
  is_suffix_tail w2 = false ->
  strip_suffix (two_words w1 w2) = two_words w1 w2.
Proof.
  intros H1 H2 G1 G2 Hs.
  destruct (alpha_word_letters w1 H1) as [N1 L1].
  destruct (alpha_word_letters w2 H2) as [N2 L2].
  assert (Hlong : is_suffix_tail (two_words w1 w2) = false).
  { apply not_true_is_false. intros H. apply is_suffix_tail_short in H.
    unfold two_words in H. rewrite !length_app in H. cbn in H. lia. }
  unfold strip_suffix.
  destruct w1 as [|c1 w1]; [contradiction|]. apply letters_cons in L1 as [Hc1 L1].
  destruct w2 as [|c2 w2]; [contradiction|]. apply letters_cons in L2 as [Hc2 L2].
  change (two_words (c1 :: w1) (c2 :: w2)) with (c1 :: w1 ++ " "%char :: c2 :: w2) in *.
  cbn [strip_suffix_from negb andb]. rewrite Hlong.
  rewrite (letter_is_word c1 Hc1), (strip_suffix_from_word w1 _ L1).
  cbn [strip_suffix_from negb andb]. change (is_word " ") with false. cbv iota.
  cbn [negb andb]. rewrite Hs, (letter_is_word c2 Hc2).
  do 4 f_equal. rewrite <- (app_nil_r w2) at 1. rewrite (strip_suffix_from_word w2 [] L2).
  cbn. apply app_nil_r.
Qed.

Lemma two_words_split_ws (w1 w2 : jsstring) :
  is_alpha_word w1 = true -> is_alpha_word w2 = true ->
  split_ws (two_words w1 w2) = [w1; w2].
Proof.
  intros H1 H2.
  destruct (alpha_word_letters w1 H1) as [N1 L1].
  destruct (alpha_word_letters w2 H2) as [N2 L2].
  unfold two_words. cbn [str list_ascii_of_string app].
  apply split_ws_two; try assumption; try reflexivity;
    now apply (word_clean is_space _ letter_not_space).
Qed.

(** A key of two lower-case words of three letters or more, without a
    negative or business token, an address word, a title in front or a
    suffix at the end, is a fixed point of [normalizeOwnerKey]. *)
Lemma normalizeOwnerKey_two_words (w1 w2 : jsstring) :
  is_lower_word w1 = true -> is_lower_word w2 = true ->
  3 <= List.length w1 -> 3 <= List.length w2 ->
  no_negative_token (two_words w1 w2) = true ->
  no_business_token (two_words w1 w2) = true ->
  is_address_token w1 = false -> is_address_token w2 = false ->
  no_title w1 = true -> is_suffix_tail w2 = false ->
  normalizeOwnerKey (Some (two_words w1 w2)) = two_words w1 w2.
Proof.
  intros W1 W2 G1 G2 Hneg Hbiz A1 A2 Ht Hs.
  pose proof (lower_word_alpha w1 W1) as H1. pose proof (lower_word_alpha w2 W2) as H2.
  destruct (alpha_word_letters w1 H1) as [N1 L1].
  destruct (alpha_word_letters w2 H2) as [N2 L2].
  assert (Hperson : isLikelyPersonName (Some (two_words w1 w2)) = true).
  { rewrite (isLikelyPersonName_two_words w1 w2 H1 H2 Hneg Hbiz), A1, A2.
    apply Nat.leb_le in G1, G2. now rewrite G1, G2. }
  assert (Hsplit : splitPersonNames (Some (two_words w1 w2))
                   = [mkPerson w1 None w2 (two_words w1 w2)]).
  { unfold splitPersonNames. rewrite two_words_nonempty. cbn [negb].
    rewrite (two_words_trim w1 w2 H1 H2), two_words_nonempty. cbn [negb].
    rewrite (two_words_segments w1 w2 H1 H2). cbn [split_loop].
    rewrite (two_words_candidate w1 w2 H1 H2), Hperson. cbn [negb].
    unfold parse_person.
    rewrite (two_words_strip_title w1 w2 Ht).
    rewrite (two_words_strip_suffix w1 w2 H1 H2 G1 G2 Hs).
    rewrite (two_words_trim w1 w2 H1 H2), (two_words_split_ws w1 w2 H1 H2).
    reflexivity. }
  unfold normalizeOwnerKey. rewrite two_words_nonempty. cbn [negb].
  rewrite Hsplit. cbn [first last].
  change (w1 ++ str " " ++ w2) with (two_words w1 w2).
  rewrite (two_words_trim w1 w2 H1 H2).
  assert (Hlow : toLowerCase (two_words w1 w2) = two_words w1 w2).
  { unfold two_words, toLowerCase. rewrite !map_app.
    unfold is_lower_word in W1, W2.
    apply andb_true_iff in W1 as [_ W1]. apply andb_true_iff in W2 as [_ W2].
    fold (toLowerCase w1). fold (toLowerCase w2).
    now rewrite (lower_word_toLowerCase w1 W1), (lower_word_toLowerCase w2 W2). }
  rewrite Hlow.
  rewrite remove_all_clean.
  - apply (two_words_collapse w1 w2 L1 L2).
  - apply (two_words_clean (fun c => negb (is_key_char c))); try assumption; [|reflexivity].
    intros c Hc. now rewrite (letter_is_key_char c Hc).
Qed.

(** C1, as the code has it.  When the key [normalizeOwnerKey] answers
    is two lower-case words of three letters or more with one space
    between them, without a negative or business token, an address
    word, a title in front or a suffix at the end, a second application
    answers the same key. *)
Theorem normalizeOwnerKey_idempotent_on_plain_keys
        (raw : option jsstring) (w1 w2 : jsstring) :
  normalizeOwnerKey raw = two_words w1 w2 ->
  is_lower_word w1 = true -> is_lower_word w2 = true ->
  3 <= List.length w1 -> 3 <= List.length w2 ->
  no_negative_token (two_words w1 w2) = true ->
  no_business_token (two_words w1 w2) = true ->
  is_address_token w1 = false -> is_address_token w2 = false ->
  no_title w1 = true -> is_suffix_tail w2 = false ->
  normalizeOwnerKey (Some (normalizeOwnerKey raw)) = normalizeOwnerKey raw.
Proof.
  intros E. rewrite E. apply normalizeOwnerKey_two_words.
Qed.

Lemma normalizeOwnerKey_idempotent_on_plain_keys_witness :
  normalizeOwnerKey (Some (str "Smith, John Q. & Doe, Jane")) = str "john smith" /\
  normalizeOwnerKey (Some (normalizeOwnerKey (Some (str "Smith, John Q. & Doe, Jane"))))
  = normalizeOwnerKey (Some (str "Smith, John Q. & Doe, Jane")).
Proof.
  split; [reflexivity|].
  apply (normalizeOwnerKey_idempotent_on_plain_keys
           (Some (str "Smith, John Q. & Doe, Jane")) (str "john") (str "smith"));
    try reflexivity; simpl; lia.
Defined.

(** "Jo Anne Marie Li" has the key "jo li", and "jo li" has the empty
    key: as an owner string of its own it is two short tokens, which
    [isLikelyPersonName] rejects. *)
Lemma normalizeOwnerKey_idempotent_fails : ~ normalizeOwnerKey_idempotent.
Proof.
  intros H. specialize (H (Some (str "Jo Anne Marie Li"))).
  vm_compute in H. discriminate.
Qed.

(** Other keys that are not fixed points: one short token out of two,
    a single token left after a suffix is removed. *)
Example normalizeOwnerKey_Mary_Ann_Li :
  normalizeOwnerKey (Some (str "Mary Ann Li")) = str "mary li" /\
  normalizeOwnerKey (Some (str "mary li")) = [] /\
  normalizeOwnerKey (Some (str "Smith Esq")) = str "smith" /\
  normalizeOwnerKey (Some (str "smith")) = [].
Proof. repeat split; reflexivity. Qed.

End PersonProps.

(** ** zip5 *)

Module ZipProps.
Import Str Utils.

Lemma digits_filter (s : jsstring) :
  remove_all (fun c => negb (is_digit c)) s = filter is_digit s.
Proof.
  unfold remove_all. apply filter_ext. intros c. apply negb_involutive.
Qed.

Lemma filter_all (p : ascii -> bool) (s : jsstring) :
  forallb p s = true -> filter p s = s.
Proof.
  induction s as [|c s IH]; [reflexivity|].
  cbn. intros H. apply andb_true_iff in H as [Hc Hs]. now rewrite Hc, IH.
Qed.

Lemma forallb_filter (p : ascii -> bool) (s : jsstring) : forallb p (filter p s) = true.
Proof.
  apply forallb_forall. intros c Hc. now apply filter_In in Hc.
Qed.

Lemma forallb_firstn (p : ascii -> bool) (n : nat) (s : jsstring) :
  forallb p s = true -> forallb p (firstn n s) = true.
Proof.
  intros H. rewrite <- (firstn_skipn n s), forallb_app in H.
  now apply andb_true_iff in H.
Qed.

(** The answer of [zip5] on a string, without the test that never
    fails. *)
Lemma zip5_digits (s : jsstring) :
  zip5 (Some s) = if List.length (filter is_digit s) <? 5 then None
                  else Some (firstn 5 (filter is_digit s)).
Proof.
  unfold zip5. cbv zeta. rewrite digits_filter.
  destruct (List.length (filter is_digit s) <? 5) eqn:E; [reflexivity|].
  apply Nat.ltb_ge in E.
  rewrite length_firstn, Nat.min_l by exact E. reflexivity.
Qed.

Lemma zip5_some (v : option jsstring) (z : jsstring) :
  zip5 v = Some z ->
  List.length z = 5 /\ forallb is_digit z = true /\
  exists s, v = Some s /\ z = firstn 5 (filter is_digit s).
Proof.
  destruct v as [s|]; [|discriminate]. rewrite zip5_digits.
  destruct (List.length (filter is_digit s) <? 5) eqn:E; [discriminate|].
  apply Nat.ltb_ge in E. intros H.
  assert (Hz : z = firstn 5 (filter is_digit s)) by congruence.
  clear H. subst z. split; [|split].
  - rewrite length_firstn. lia.
  - apply forallb_firstn, forallb_filter.
  - now exists s.
Qed.

(** X1. Whenever [zip5] answers, the answer is exactly five digits: the
    first five digits of the input, in their order; it answers null
    exactly for null and for a string with fewer than five digits. *)
Theorem zip5_first_five_digits :
  (forall v z, zip5 v = Some z ->
     List.length z = 5 /\ forallb is_digit z = true /\
     exists s, v = Some s /\ z = firstn 5 (filter is_digit s)) /\
  (forall s, zip5 (Some s) = None <-> List.length (filter is_digit s) < 5) /\
  zip5 None = None.
Proof.
  split; [|split; [|reflexivity]].
  - exact zip5_some.
  - intros s. rewrite zip5_digits.
    destruct (List.length (filter is_digit s) <? 5) eqn:E.
    + apply Nat.ltb_lt in E. tauto.
    + apply Nat.ltb_ge in E. split; [discriminate | lia].
Qed.

Lemma zip5_first_five_digits_witness :
  zip5 (Some (str "78756-1234")) = Some (str "78756") /\
  List.length (str "78756") = 5.
Proof.
  split; [reflexivity|].
  apply (proj1 zip5_first_five_digits (Some (str "78756-1234")) (str "78756") eq_refl).
Defined.

(** X2. [zip5] changes none of its own answers:
    [zip5(zip5(v)) = zip5(v)]. *)
Theorem zip5_idempotent (v : option jsstring) : zip5 (zip5 v) = zip5 v.
Proof.
  destruct (zip5 v) as [z|] eqn:E; [|reflexivity].
  destruct (zip5_some v z E) as (Hlen & Hdig & _).
  rewrite zip5_digits, (filter_all is_digit z Hdig), Hlen. cbn [Nat.ltb Nat.leb].
  rewrite <- Hlen. now rewrite firstn_all.
Qed.

End ZipProps.

(** ** chunkArray, esc, CSVBuilder *)

Module CsvProps.
Import Str Utils ExportCenter.

(** *** chunkArray *)

Lemma chunk_from_concat {T : Type} (size : nat) :
  0 < size ->
  forall fuel (arr : list T),
    List.length arr <= fuel -> List.concat (chunk_from fuel size arr) = arr.
Proof.
  intros Hs. induction fuel as [|fuel IH]; intros arr Hlen.
  - destruct arr; [reflexivity | cbn in Hlen; lia].
  - destruct arr as [|a arr]; [reflexivity|].
    cbn [chunk_from List.concat]. rewrite IH.
    + apply firstn_skipn.
    + rewrite length_skipn. cbn [List.length] in *. lia.
Qed.

Lemma chunk_from_sizes {T : Type} (size : nat) :
  0 < size ->
  forall fuel (arr : list T),
    List.length arr <= fuel ->
    Forall (fun b => b <> [] /\ List.length b <= size) (chunk_from fuel size arr) /\
    Forall (fun b => List.length b = size) (removelast (chunk_from fuel size arr)) /\
    List.length (chunk_from fuel size arr) = (List.length arr + size - 1) / size.
Proof.
  intros Hs. induction fuel as [|fuel IH]; intros arr Hlen.
  - destruct arr; [|cbn in Hlen; lia]. cbn. repeat split; try constructor.
    symmetry. apply Nat.div_small. lia.
  - destruct arr as [|a arr].
    { cbn. repeat split; try constructor. symmetry. apply Nat.div_small. lia. }
    cbn [chunk_from].
    assert (Hsk : List.length (skipn size (a :: arr)) <= fuel)
      by (rewrite length_skipn; cbn [List.length] in *; lia).
    destruct (IH _ Hsk) as (H1 & H2 & H3).
    split; [|split].
    + constructor; [|exact H1]. split.
      * destruct size; [lia|]. discriminate.
      * rewrite length_firstn. lia.
    + destruct (chunk_from fuel size (skipn size (a :: arr))) as [|b bs] eqn:E.
      * constructor.
      * change (removelast (firstn size (a :: arr) :: b :: bs))
          with (firstn size (a :: arr) :: removelast (b :: bs)).
        constructor; [|exact H2].
        rewrite length_firstn. apply Nat.min_l.
        destruct (Nat.le_gt_cases size (List.length (a :: arr))) as [G|L]; [exact G|].
        rewrite skipn_all2 in E by lia. destruct fuel; discriminate E.
    + change (List.length (firstn size (a :: arr) :: ?l)) with (S (List.length l)).
      rewrite H3, length_skipn.
      set (n := List.length (a :: arr)). assert (0 < n) by (unfold n; cbn; lia).
      destruct (Nat.le_gt_cases size n) as [G|L].
      * replace (n + size - 1) with ((n - size + size - 1) + 1 * size) by lia.
        rewrite Nat.div_add by lia. lia.
      * replace (n - size) with 0 by lia. cbn [Nat.add].
        rewrite (Nat.div_small (size - 1)) by lia.
        apply (Nat.div_unique _ _ 1 (n - 1)); lia.
Qed.

(** X3. For a positive batch size [chunkArray] cuts the array into
    consecutive batches: put together again they give the array, no
    batch is empty or longer than the size, every batch before the last
    one is full, and there are as many as the length divided by the
    size, rounded up. *)
Theorem chunkArray_partition {T : Type} (arr : list T) (size : nat) :
  0 < size ->
  exists batches,
    chunkArray arr size = Some batches /\
    List.concat batches = arr /\
    Forall (fun b => b <> [] /\ List.length b <= size) batches /\
    Forall (fun b => List.length b = size) (removelast batches) /\
    List.length batches = (List.length arr + size - 1) / size.
Proof.
  intros Hs. exists (chunk_from (List.length arr) size arr).
  destruct (chunk_from_sizes size Hs (List.length arr) arr (le_n _)) as (H1 & H2 & H3).
  split; [|split; [|split; [|split]]]; try assumption.
  - unfold chunkArray. destruct arr; [reflexivity|]. destruct size; [lia | reflexivity].
  - now apply chunk_from_concat.
Qed.

Lemma chunkArray_partition_witness :
  exists batches,
    chunkArray [1; 2; 3; 4; 5] 2 = Some batches /\
    List.concat batches = [1; 2; 3; 4; 5] /\
    Forall (fun b => b <> [] /\ List.length b <= 2) batches /\
    Forall (fun b => List.length b = 2) (removelast batches) /\
    List.length batches = (List.length [1; 2; 3; 4; 5] + 2 - 1) / 2.
Proof. apply (chunkArray_partition [1; 2; 3; 4; 5] 2). lia. Defined.

(** *** esc *)

Lemma double_quotes_inj (a b : jsstring) : double_quotes a = double_quotes b -> a = b.
Proof.
  revert b. induction a as [|c a IH]; intros [|d b]; unfold double_quotes; cbn [flat_map].
  - reflexivity.
  - destruct (Ascii.eqb d dquote); discriminate.
  - destruct (Ascii.eqb c dquote); discriminate.
  - fold (double_quotes a). fold (double_quotes b).
    destruct (Ascii.eqb c dquote) eqn:Ec, (Ascii.eqb d dquote) eqn:Ed; cbn [app]; intros H.
    + apply Ascii.eqb_eq in Ec, Ed. subst. injection H as H. f_equal. now apply IH.
    + injection H as H1 H2. subst d. now rewrite Ascii.eqb_refl in Ed.
    + injection H as H1 H2. subst c. now rewrite Ascii.eqb_refl in Ec.
    + injection H as -> H. f_equal. now apply IH.
Qed.

Lemma special_double_quotes (v : jsstring) :
  test_any is_csv_special (double_quotes v) = test_any is_csv_special v.
Proof.
  unfold test_any, double_quotes. induction v as [|c v IH]; [reflexivity|].
  cbn [flat_map existsb]. rewrite existsb_app, IH.
  destruct (Ascii.eqb c dquote) eqn:E; cbn [existsb].
  - apply Ascii.eqb_eq in E. subst c. reflexivity.
  - now rewrite orb_false_r.
Qed.

Lemma esc_quoted (v : jsstring) :
  esc (Some v) = if test_any is_csv_special v then dquote :: double_quotes v ++ [dquote] else v.
Proof.
  unfold esc. cbv zeta. rewrite special_double_quotes.
  destruct (test_any is_csv_special v) eqn:E; [reflexivity|].
  unfold double_quotes. unfold test_any in E. induction v as [|c v IH]; [reflexivity|].
  cbn [existsb] in E. apply orb_false_iff in E as [Ec Ev]. cbn [flat_map].
  rewrite (IH Ev).
  unfold is_csv_special in Ec. apply orb_false_iff in Ec as [Ec _].
  apply orb_false_iff in Ec as [Ec _]. now rewrite Ec.
Qed.

Lemma quoted_is_special (s : jsstring) : test_any is_csv_special (dquote :: s) = true.
Proof. reflexivity. Qed.

(** X4. [esc] leaves a value without a double quote, a comma or a line
    feed as it is, and wraps any other value in double quotes with the
    double quotes inside doubled; different values never get the same
    field text. *)
Theorem esc_faithful :
  (forall v, test_any is_csv_special v = false -> esc (Some v) = v) /\
  (forall v, test_any is_csv_special v = true ->
             esc (Some v) = dquote :: double_quotes v ++ [dquote]) /\
  (forall a b, esc (Some a) = esc (Some b) -> a = b).
Proof.
  split; [|split].
  - intros v H. now rewrite esc_quoted, H.
  - intros v H. now rewrite esc_quoted, H.
  - intros a b. rewrite !esc_quoted.
    destruct (test_any is_csv_special a) eqn:Ea, (test_any is_csv_special b) eqn:Eb; intros H.
    + injection H as H. apply app_inj_tail in H as [H _]. now apply double_quotes_inj.
    + rewrite <- H, quoted_is_special in Eb. discriminate.
    + rewrite H, quoted_is_special in Ea. discriminate.
    + exact H.
Qed.

Lemma esc_faithful_witness :
  test_any is_csv_special (str "Smith, John") = true /\
  esc (Some (str "Smith, John")) = dquote :: str "Smith, John" ++ [dquote].
Proof.
  split; [reflexivity|].
  apply (proj1 (proj2 esc_faithful) (str "Smith, John")). reflexivity.
Defined.

(** *** CSVBuilder *)

Lemma join_lines (lines : list jsstring) :
  lines <> [] ->
  join [newline] lines ++ [newline] = List.concat (map (fun l => l ++ [newline]) lines).
Proof.
  induction lines as [|l lines IH]; intros H; [contradiction|].
  destruct lines as [|l' lines]; [cbn; now rewrite app_nil_r|].
  change (join [newline] (l :: l' :: lines)) with (l ++ [newline] ++ join [newline] (l' :: lines)).
  change (List.concat (map ?f (l :: l' :: lines)))
    with (f l ++ List.concat (map f (l' :: lines))). cbv beta.
  rewrite <- IH by discriminate. now rewrite <- !app_assoc.
Qed.

Section Builder.

Context {Attrs : Type}.
Variable csv_line : list jsstring -> Row Attrs -> jsstring.

Local Abbreviation appendRows := (appendRows Attrs csv_line).

Lemma appendRows_headers (b : CSVBuilder) (objs : list (Row Attrs)) :
  headers (appendRows b objs) = headers b.
Proof. now destruct objs. Qed.

Lemma appendRows_content (b : CSVBuilder) (objs : list (Row Attrs)) :
  List.concat (parts (appendRows b objs))
  = List.concat (parts b) ++ List.concat (map (fun r => csv_line (headers b) r ++ [newline]) objs).
Proof.
  destruct objs as [|r objs]; [cbn; now rewrite app_nil_r|].
  unfold ExportCenter.appendRows. cbn [parts]. rewrite concat_app. f_equal.
  cbn [List.concat]. rewrite app_nil_r.
  change (str (String "010" "")) with [newline].
  rewrite join_lines by discriminate. now rewrite map_map.
Qed.

Lemma pages_content (pages : list (list (Row Attrs))) :
  forall b,
    headers (fold_left appendRows pages b) = headers b /\
    List.concat (parts (fold_left appendRows pages b))
    = List.concat (parts b)
      ++ List.concat (map (fun r => csv_line (headers b) r ++ [newline]) (List.concat pages)).
Proof.
  induction pages as [|p pages IH]; intros b; cbn [fold_left List.concat map].
  - split; [reflexivity | now rewrite app_nil_r].
  - destruct (IH (appendRows b p)) as [Hh Hc]. rewrite Hh, Hc.
    rewrite appendRows_headers, appendRows_content, map_app, concat_app, app_assoc.
    split; reflexivity.
Qed.

(** X5. What a [CSVBuilder] delivers is the header line followed by one
    line for each row appended, in the order of the calls, each line
    ended by a line feed; it does not depend on how the rows were cut
    into pages, and an empty page adds nothing. *)
Theorem CSVBuilder_content (hs : list jsstring) (pages : list (list (Row Attrs))) :
  List.concat (parts (fold_left appendRows pages (newCSVBuilder hs)))
  = join (str ",") hs ++ [newline]
    ++ List.concat (map (fun r => csv_line hs r ++ [newline]) (List.concat pages)).
Proof.
  destruct (pages_content pages (newCSVBuilder hs)) as [_ H]. rewrite H.
  cbn [newCSVBuilder parts headers List.concat]. now rewrite app_nil_r, <- app_assoc.
Qed.

End Builder.

(** X6. For rows that are not all missing, the builder fed page by
    page delivers the text of [exportCSV] on all the rows, followed by
    one more line feed. *)
Theorem CSVBuilder_agrees_with_exportCSV
        {Attrs : Type} (fields : Row Attrs -> record)
        (hs : list jsstring) (pages : list (list (Row Attrs))) :
  List.concat pages <> [] ->
  exists text,
    exportCSV (map fields (List.concat pages)) hs = Some text /\
    List.concat (parts (fold_left (appendRows Attrs (fun h r => csv_record_line h (fields r)))
                             pages (newCSVBuilder hs)))
    = text ++ [newline].
Proof.
  intros Hne. destruct (pages_content (fun h r => csv_record_line h (fields r)) pages
                          (newCSVBuilder hs)) as [_ H].
  rewrite H. clear H. cbn [newCSVBuilder parts headers List.concat]. rewrite app_nil_r.
  destruct (List.concat pages) as [|r rows] eqn:E; [contradiction|].
  unfold exportCSV. cbn [map]. eexists. split; [reflexivity|].
  rewrite join_lines by discriminate. cbn [map List.concat].
  change (str (String "010" "")) with [newline].
  now rewrite !map_map.
Qed.

Lemma CSVBuilder_agrees_with_exportCSV_witness :
  let pages := [[enrich nat sample_owner sample_zip 1]; [];
                [enrich nat sample_owner sample_zip 2]] in
  List.concat pages <> [] /\
  exists text,
    exportCSV (map sample_fields (List.concat pages)) [str "Owner"] = Some text /\
    List.concat (parts (fold_left (appendRows nat (fun h r => csv_record_line h (sample_fields r)))
                                  pages (newCSVBuilder [str "Owner"])))
    = text ++ [newline].
Proof.
  cbv zeta.
  assert (H : List.concat [[enrich nat sample_owner sample_zip 1]; [];
                           [enrich nat sample_owner sample_zip 2]] <> []) by discriminate.
  split; [exact H|].
  exact (CSVBuilder_agrees_with_exportCSV sample_fields [str "Owner"] _ H).
Defined.

End CsvProps.

(** ** normalizeAddress, normalizeOwnerName *)

Module NormalizeProps.
Import Str Utils StrFacts.

(** *** Words *)

Lemma word_ok_rev (cur : jsstring) : word_ok cur -> word_ok (rev cur).
Proof.
  intros [N H]. split.
  - intros E. apply N. apply (f_equal (@rev _)) in E. now rewrite rev_involutive in E.
  - apply forallb_forall. intros c Hc. rewrite forallb_forall in H.
    apply H. now apply in_rev.
Qed.

Lemma word_ok_cons (c : ascii) (cur : jsstring) :
  is_space c = false ->
  forallb (fun c => negb (is_space c)) cur = true -> word_ok (c :: cur).
Proof. intros Hc H. split; [discriminate|]. cbn. now rewrite Hc. Qed.

Lemma words_from_ok (s : jsstring) :
  forall cur, forallb (fun c => negb (is_space c)) cur = true ->
              Forall word_ok (words_from cur s).
Proof.
  induction s as [|c s IH]; intros cur Hcur; cbn [words_from].
  - destruct cur as [|a cur]; [constructor|]. constructor; [|constructor].
    apply word_ok_rev. split; [discriminate | exact Hcur].
  - destruct (is_space c) eqn:Ec.
    + destruct cur as [|a cur]; [now apply IH|]. constructor; [|now apply IH].
      apply word_ok_rev. split; [discriminate | exact Hcur].
    + apply IH. cbn. now rewrite Ec.
Qed.

Lemma split_ws_ok (s : jsstring) : Forall word_ok (split_ws s).
Proof. now apply words_from_ok. Qed.

Lemma words_from_spaces (pre : jsstring) (x : jsstring) :
  all_space pre -> words_from [] (pre ++ x) = words_from [] x.
Proof.
  unfold all_space. induction pre as [|c pre IH]; intros H; [reflexivity|].
  cbn in H. apply andb_true_iff in H as [Hc H]. cbn [app words_from]. rewrite Hc. now apply IH.
Qed.

Lemma words_from_spaces_end (post : jsstring) :
  all_space post -> forall x cur, words_from cur (x ++ post) = words_from cur x.
Proof.
  intros Hpost. induction x as [|c x IH]; intros cur.
  - cbn [app]. unfold all_space in Hpost.
    destruct post as [|p post]; [reflexivity|].
    cbn in Hpost. apply andb_true_iff in Hpost as [Hp Hpost].
    cbn [words_from]. rewrite Hp.
    assert (E : words_from [] post = []).
    { rewrite <- (app_nil_r post). rewrite words_from_spaces by exact Hpost. reflexivity. }
    rewrite E. now destruct cur.
  - cbn [app words_from]. destruct (is_space c); [|apply IH].
    destruct cur; now rewrite IH.
Qed.

Lemma drop_while_split (p : ascii -> bool) (s : jsstring) :
  exists pre, s = pre ++ drop_while p s /\ forallb p pre = true.
Proof.
  induction s as [|c s (pre & E & H)]; [now exists []|].
  cbn [drop_while]. destruct (p c) eqn:Ec.
  - exists (c :: pre). cbn. rewrite Ec, H. split; [now f_equal | reflexivity].
  - now exists [].
Qed.

Lemma trim_split (s : jsstring) :
  exists pre post, s = pre ++ trim s ++ post /\ all_space pre /\ all_space post.
Proof.
  unfold trim, drop_while_end.
  destruct (drop_while_split is_space s) as (pre & E & Hpre).
  destruct (drop_while_split is_space (rev (drop_while is_space s))) as (post & E' & Hpost).
  exists pre, (rev post). split; [|split; [exact Hpre|]].
  - rewrite <- rev_app_distr, <- E', rev_involutive. exact E.
  - unfold all_space. apply forallb_forall. intros c Hc. apply in_rev in Hc.
    rewrite forallb_forall in Hpost. now apply Hpost.
Qed.

Lemma split_ws_trim (s : jsstring) : split_ws (trim s) = split_ws s.
Proof.
  destruct (trim_split s) as (pre & post & E & Hpre & Hpost).
  unfold split_ws. rewrite E at 2.
  now rewrite (words_from_spaces pre _ Hpre), (words_from_spaces_end post Hpost).
Qed.

(** Replacing runs of white space of some kind by one space changes no
    word. *)
Lemma words_from_replace_runs (p : ascii -> bool) :
  (forall c, p c = true -> is_space c = true) ->
  forall s b cur,
    (b = true -> cur = []) ->
    words_from cur (replace_runs_from p (str " ") b s) = words_from cur s.
Proof.
  intros Hp. induction s as [|c s IH]; intros b cur Hb; [reflexivity|].
  cbn [replace_runs_from]. destruct (p c) eqn:Ec.
  - pose proof (Hp c Ec) as Hs. cbn [words_from]. rewrite Hs.
    destruct b.
    + rewrite (Hb eq_refl). cbn [app]. now apply IH.
    + cbn [str list_ascii_of_string app words_from].
      change (is_space " ") with true. cbv iota.
      change [" "%char] with (str " ").
      rewrite (IH true []) by reflexivity. reflexivity.
  - cbn [words_from]. destruct (is_space c).
    + rewrite (IH false []) by discriminate. reflexivity.
    + apply IH. discriminate.
Qed.

Lemma split_ws_replace_runs (p : ascii -> bool) (s : jsstring) :
  (forall c, p c = true -> is_space c = true) ->
  split_ws (replace_runs p (str " ") s) = split_ws s.
Proof. intros Hp. apply words_from_replace_runs; [exact Hp | discriminate]. Qed.

(** *** Collapsing white space *)

Lemma join_cons (sep x : jsstring) (xs : list jsstring) :
  xs <> [] -> join sep (x :: xs) = x ++ sep ++ join sep xs.
Proof. destruct xs; [contradiction | reflexivity]. Qed.

(** What [s.replace(/\s+/g, " ")] gives: the words with one space
    between them, and at most one space in front and behind. *)
Lemma collapse_words (s : jsstring) :
  (forall b, exists pre post,
      replace_runs_from is_space (str " ") b s
      = pre ++ join (str " ") (words_from [] s) ++ post /\
      all_space pre /\ all_space post /\ (b = true -> pre = [])) /\
  (forall cur, cur <> [] ->
      exists post,
        rev cur ++ replace_runs_from is_space (str " ") false s
        = join (str " ") (words_from cur s) ++ post /\ all_space post).
Proof.
  induction s as [|c s [IHP IHQ]]; split.
  - intros b. exists [], []. repeat split.
  - intros cur Hcur. exists []. cbn [words_from replace_runs_from].
    destruct cur; [contradiction|]. cbn [join]. split; reflexivity.
  - intros b. cbn [replace_runs_from words_from]. destruct (is_space c) eqn:Ec.
    + destruct (IHP true) as (pre & post & E & Hpre & Hpost & Hb).
      rewrite (Hb eq_refl) in E. cbn [app] in E.
      exists (if b then [] else str " "), post. rewrite E.
      split; [reflexivity|]. split; [now destruct b|]. split; [exact Hpost|].
      now intros ->.
    + destruct (IHQ [c]) as (post & E & Hpost); [discriminate|].
      exists [], post. cbn [rev app] in E. cbn [app]. rewrite E.
      split; [reflexivity|]. split; [reflexivity|]. split; [exact Hpost | reflexivity].
  - intros cur Hcur. cbn [replace_runs_from words_from]. destruct (is_space c) eqn:Ec.
    + destruct (IHP true) as (pre & post & E & Hpre & Hpost & Hb).
      rewrite (Hb eq_refl) in E. cbn [app] in E.
      destruct cur as [|a cur]; [contradiction|].
      destruct (words_from [] s) as [|w ws] eqn:Ew.
      * exists (str " " ++ post). rewrite E. cbn [join app].
        split; [reflexivity|]. exact Hpost.
      * exists post. rewrite E, (join_cons _ (rev (a :: cur)) (w :: ws)) by discriminate.
        rewrite <- !app_assoc. split; [reflexivity | exact Hpost].
    + destruct (IHQ (c :: cur)) as (post & E & Hpost); [discriminate|].
      exists post. cbn [rev] in E. rewrite <- app_assoc in E. cbn [app] in E.
      split; assumption.
Qed.

Lemma drop_while_all (p : ascii -> bool) (pre x : jsstring) :
  forallb p pre = true -> drop_while p (pre ++ x) = drop_while p x.
Proof.
  induction pre as [|c pre IH]; intros H; [reflexivity|].
  cbn in H. apply andb_true_iff in H as [Hc H]. cbn [app drop_while]. rewrite Hc. now apply IH.
Qed.

Lemma drop_while_all_nil (p : ascii -> bool) (pre : jsstring) :
  forallb p pre = true -> drop_while p pre = [].
Proof. intros H. rewrite <- (app_nil_r pre). now rewrite drop_while_all. Qed.

Lemma all_space_rev (s : jsstring) : all_space s -> all_space (rev s).
Proof.
  unfold all_space. rewrite !forallb_forall. intros H c Hc. apply H. now apply in_rev.
Qed.

Lemma trim_unique (pre m post : jsstring) :
  all_space pre -> all_space post -> ends_ok m -> trim (pre ++ m ++ post) = m.
Proof.
  intros Hpre Hpost [Hh Ht]. unfold trim, drop_while_end.
  rewrite (drop_while_all is_space pre _ Hpre).
  destruct m as [|c m].
  - cbn [app]. rewrite (drop_while_all_nil is_space post Hpost). reflexivity.
  - cbn [app drop_while]. rewrite Hh.
    change (c :: m ++ post) with ((c :: m) ++ post).
    rewrite rev_app_distr, (drop_while_all is_space (rev post)) by now apply all_space_rev.
    destruct (rev (c :: m)) as [|d r] eqn:E.
    + apply (f_equal (@rev _)) in E. rewrite rev_involutive in E. discriminate.
    + cbn [drop_while]. rewrite Ht, <- E. apply rev_involutive.
Qed.

Lemma join_nonempty (sep : jsstring) (w : jsstring) (ws : list jsstring) :
  w <> [] -> join sep (w :: ws) <> [].
Proof.
  intros N. destruct ws; cbn [join]; [exact N|].
  destruct w; [contradiction | discriminate].
Qed.

Lemma join_words_ends (ws : list jsstring) :
  Forall word_ok ws -> ends_ok (join (str " ") ws).
Proof.
  induction ws as [|w ws IH]; intros H; [split; exact I|].
  inversion H as [|? ? [Nw Hw] Hws]; subst. specialize (IH Hws).
  assert (Hhead : forall x, match w ++ x with [] => True | c :: _ => is_space c = false end).
  { intros x. destruct w as [|c w]; [contradiction|]. cbn in *.
    apply andb_true_iff in Hw as [Hc _]. now apply negb_true_iff in Hc. }
  assert (Htail : forall x, match rev (x ++ w) with [] => True | c :: _ => is_space c = false end).
  { intros x. rewrite rev_app_distr.
    destruct (word_ok_rev w (conj Nw Hw)) as [Nr Hr].
    destruct (rev w) as [|c r]; [contradiction|]. cbn in *.
    apply andb_true_iff in Hr as [Hc _]. now apply negb_true_iff in Hc. }
  destruct ws as [|w' ws].
  - cbn [join]. split; [rewrite <- (app_nil_r w); apply Hhead | apply (Htail [])].
  - rewrite join_cons by discriminate. split; [apply Hhead|].
    destruct IH as [_ IH]. rewrite !rev_app_distr.
    inversion Hws as [|? ? [Nw' _] _]; subst.
    assert (Nj : rev (join (str " ") (w' :: ws)) <> []).
    { intros E. apply (f_equal (@rev _)) in E. rewrite rev_involutive in E.
      now apply (join_nonempty (str " ") w' ws Nw'). }
    destruct (rev (join (str " ") (w' :: ws))) as [|c r]; [contradiction|]. exact IH.
Qed.

Lemma drop_while_head_out (p : ascii -> bool) (s : jsstring) :
  match drop_while p s with [] => True | c :: _ => p c = false end.
Proof.
  induction s as [|c s IH]; [exact I|]. cbn. destruct (p c) eqn:E; [exact IH | exact E].
Qed.

Lemma trim_ends_ok (s : jsstring) : ends_ok (trim s).
Proof.
  unfold trim, drop_while_end. set (y := drop_while is_space s).
  pose proof (drop_while_head_out is_space s) as Hy. fold y in Hy.
  pose proof (drop_while_head_out is_space (rev y)) as Hz.
  destruct (drop_while_split is_space (rev y)) as (q & Eq & _).
  set (z := drop_while is_space (rev y)) in *.
  split; [|now rewrite rev_involutive].
  apply (f_equal (@rev _)) in Eq. rewrite rev_involutive, rev_app_distr in Eq.
  destruct (rev z) as [|c r]; [exact I|]. rewrite Eq in Hy. exact Hy.
Qed.

Lemma trim_trim (s : jsstring) : trim (trim s) = trim s.
Proof.
  rewrite <- (app_nil_r (trim s)) at 1.
  apply (trim_unique [] (trim s) []); try reflexivity. apply trim_ends_ok.
Qed.

(** [s.replace(/\s+/g, " ").trim()] is the words of [s] with one space
    between them. *)
Lemma trim_collapse (s : jsstring) :
  trim (replace_runs is_space (str " ") s) = join (str " ") (split_ws s).
Proof.
  destruct (collapse_words s) as [H _].
  destruct (H false) as (pre & post & E & Hpre & Hpost & _).
  unfold replace_runs. rewrite E.
  apply trim_unique; try assumption. apply join_words_ends, split_ws_ok.
Qed.

(** The words of words joined by single spaces are these words. *)
Lemma words_from_word (w : jsstring) :
  forallb (fun c => negb (is_space c)) w = true ->
  forall cur rest, words_from cur (w ++ rest) = words_from (rev w ++ cur) rest.
Proof. apply words_from_clean. Qed.

Lemma split_ws_join (ws : list jsstring) :
  Forall word_ok ws -> split_ws (join (str " ") ws) = ws.
Proof.
  unfold split_ws. induction ws as [|w ws IH]; intros H; [reflexivity|].
  inversion H as [|? ? [Nw Hw] Hws]; subst.
  assert (Hr : rev w <> []).
  { intros E. apply Nw. apply (f_equal (@rev _)) in E. now rewrite rev_involutive in E. }
  destruct ws as [|w' ws].
  - cbn [join]. rewrite <- (app_nil_r w) at 1. rewrite (words_from_word w Hw).
    cbn [words_from]. rewrite app_nil_r. destruct (rev w) eqn:E; [contradiction|].
    now rewrite <- E, rev_involutive.
  - rewrite join_cons by discriminate. rewrite (words_from_word w Hw).
    cbn [str list_ascii_of_string app words_from]. change (is_space " ") with true. cbv iota.
    rewrite app_nil_r. destruct (rev w) eqn:E; [contradiction|].
    rewrite <- E, rev_involutive. f_equal. now apply IH.
Qed.

(** *** normalizeAddress *)

Lemma tab_nl_cr_space (c : ascii) : is_tab_nl_cr c = true -> is_space c = true.
Proof. ascii_cases c. Qed.

Lemma normalizeAddress_words (r : jsstring) :
  normalizeAddress (Some r) = join (str " ") (split_ws r).
Proof.
  unfold normalizeAddress. destruct r as [|c r]; [reflexivity|]. cbn [nonempty negb].
  cbv zeta. rewrite trim_collapse.
  now rewrite (split_ws_replace_runs is_tab_nl_cr _ tab_nl_cr_space), split_ws_trim.
Qed.

(** X7. [normalizeAddress] answers the words of the address, the
    maximal runs of characters that are not white space, in their order
    with one space between them; so its answer neither begins nor ends
    with white space, and a second application changes nothing. *)
Theorem normalizeAddress_single_spaced (r : jsstring) :
  normalizeAddress (Some r) = join (str " ") (split_ws r) /\
  split_ws (normalizeAddress (Some r)) = split_ws r /\
  trim (normalizeAddress (Some r)) = normalizeAddress (Some r) /\
  normalizeAddress (Some (normalizeAddress (Some r))) = normalizeAddress (Some r).
Proof.
  pose proof (split_ws_ok r) as Hok.
  assert (Hw : split_ws (normalizeAddress (Some r)) = split_ws r)
    by (rewrite normalizeAddress_words; now apply split_ws_join).
  split; [apply normalizeAddress_words|]. split; [exact Hw|]. split.
  - rewrite normalizeAddress_words.
    rewrite <- (app_nil_r (join _ _)) at 1.
    apply (trim_unique [] _ []); try reflexivity. now apply join_words_ends.
  - rewrite (normalizeAddress_words (normalizeAddress (Some r))), Hw.
    symmetry. apply normalizeAddress_words.
Qed.

(** *** normalizeOwnerName *)

Lemma lower_char_space (c : ascii) : is_space (lower_char c) = is_space c.
Proof. ascii_cases c. Qed.

Lemma upper_char_is_space (c : ascii) : is_space (upper_char c) = is_space c.
Proof. ascii_cases c. Qed.

Lemma lower_char_noise (c : ascii) : is_noise c = false -> is_noise (lower_char c) = false.
Proof. ascii_cases c. Qed.

Lemma upper_char_noise (c : ascii) : is_noise c = false -> is_noise (upper_char c) = false.
Proof. ascii_cases c. Qed.

Lemma lower_upper_lower (c : ascii) : lower_char (upper_char (lower_char c)) = lower_char c.
Proof. ascii_cases c. Qed.

Lemma lower_lower (c : ascii) : lower_char (lower_char c) = lower_char c.
Proof. ascii_cases c. Qed.

Lemma title_case_idem (w : jsstring) : title_case (title_case w) = title_case w.
Proof.
  unfold title_case, capitalize, toLowerCase. destruct w as [|c w]; [reflexivity|].
  cbn [map]. rewrite lower_upper_lower. f_equal.
  rewrite map_map. apply map_ext. intros a. apply lower_lower.
Qed.

Lemma title_case_ok (w : jsstring) : word_ok w -> word_ok (title_case w).
Proof.
  intros [N H]. destruct w as [|c w]; [contradiction|]. split; [discriminate|].
  unfold title_case, capitalize, toLowerCase. cbn [map forallb] in *.
  apply andb_true_iff in H as [Hc Hw].
  rewrite upper_char_is_space, lower_char_space, Hc. cbn [andb].
  rewrite forallb_forall in *. intros a Ha. apply in_map_iff in Ha as (a0 & <- & Ha0).
  rewrite lower_char_space. now apply Hw.
Qed.

Lemma title_case_clean (w : jsstring) :
  forallb (fun c => negb (is_noise c)) w = true ->
  forallb (fun c => negb (is_noise c)) (title_case w) = true.
Proof.
  intros H. destruct w as [|c w]; [reflexivity|].
  unfold title_case, capitalize, toLowerCase. cbn [map forallb] in *.
  apply andb_true_iff in H as [Hc Hw]. apply negb_true_iff in Hc.
  rewrite (upper_char_noise _ (lower_char_noise c Hc)). cbn [negb andb].
  rewrite forallb_forall in *. intros a Ha. apply in_map_iff in Ha as (a0 & <- & Ha0).
  specialize (Hw a0 Ha0). apply negb_true_iff in Hw. now rewrite (lower_char_noise a0 Hw).
Qed.

Lemma toLowerCase_join (ws : list jsstring) :
  toLowerCase (join (str " ") ws) = join (str " ") (map toLowerCase ws).
Proof.
  induction ws as [|w ws IH]; [reflexivity|].
  destruct ws as [|w' ws]; [reflexivity|].
  rewrite (join_cons _ w (w' :: ws)) by discriminate. cbn [map].
  rewrite (join_cons _ (toLowerCase w) (toLowerCase w' :: map toLowerCase ws)) by discriminate.
  change (toLowerCase w' :: map toLowerCase ws) with (map toLowerCase (w' :: ws)).
  rewrite <- IH. unfold toLowerCase. now rewrite !map_app.
Qed.

Lemma toLowerCase_ok (w : jsstring) : word_ok w -> word_ok (toLowerCase w).
Proof.
  intros [N H]. split; [destruct w; [contradiction | discriminate]|].
  unfold toLowerCase. rewrite forallb_forall in *. intros a Ha.
  apply in_map_iff in Ha as (a0 & <- & Ha0). rewrite lower_char_space. now apply H.
Qed.

Lemma word_no_blank (w : jsstring) :
  word_ok w -> forallb (fun c => negb (Ascii.eqb c " ")) w = true.
Proof.
  intros [_ H]. rewrite forallb_forall in *. intros c Hc. specialize (H c Hc).
  destruct (Ascii.eqb c " ") eqn:E; [|reflexivity].
  apply Ascii.eqb_eq in E. subst c. discriminate H.
Qed.

Lemma split_join (ws : list jsstring) :
  ws <> [] -> Forall word_ok ws -> split " " (join (str " ") ws) = ws.
Proof.
  induction ws as [|w ws IH]; intros N H; [contradiction|].
  inversion H as [|? ? Hw Hws]; subst.
  destruct ws as [|w' ws].
  - cbn [join]. apply split_clean. now apply word_no_blank.
  - rewrite join_cons by discriminate. unfold split.
    rewrite (split_from_clean " " w (word_no_blank w Hw)).
    cbn [str list_ascii_of_string app split_from]. rewrite Ascii.eqb_refl.
    rewrite app_nil_r, rev_involutive. f_equal. apply IH; [discriminate | exact Hws].
Qed.

Lemma normalizeOwnerName_words (r : jsstring) :
  normalizeOwnerName (Some r) = join (str " ") (map title_case (name_words r)).
Proof.
  unfold normalizeOwnerName, name_words. destruct r as [|c r]; [reflexivity|].
  cbn [nonempty negb]. cbv zeta. rewrite trim_collapse, toLowerCase_join.
  set (ws := split_ws _). assert (Hok : Forall word_ok ws) by apply split_ws_ok.
  destruct ws as [|w ws]; [reflexivity|].
  rewrite split_join.
  - rewrite map_map. reflexivity.
  - discriminate.
  - apply Forall_map. eapply Forall_impl; [|exact Hok]. apply toLowerCase_ok.
Qed.

Lemma replace_runs_from_clean_out (p : ascii -> bool) (r : jsstring) :
  forallb (fun c => negb (p c)) r = true ->
  forall s b, forallb (fun c => negb (p c)) (replace_runs_from p r b s) = true.
Proof.
  intros Hr. induction s as [|c s IH]; intros b; [reflexivity|].
  cbn [replace_runs_from]. destruct (p c) eqn:Ec.
  - rewrite forallb_app, IH, andb_true_r. now destruct b.
  - cbn. now rewrite Ec, IH.
Qed.

Lemma words_from_all (q : ascii -> bool) (s : jsstring) :
  forallb q s = true ->
  forall cur, forallb q cur = true -> Forall (fun w => forallb q w = true) (words_from cur s).
Proof.
  induction s as [|c s IH]; intros Hs cur Hcur; cbn [words_from].
  - destruct cur as [|a cur]; [constructor|]. constructor; [|constructor].
    rewrite forallb_forall in *. intros x Hx. apply Hcur. now apply in_rev.
  - cbn in Hs. apply andb_true_iff in Hs as [Hc Hs].
    destruct (is_space c).
    + destruct cur as [|a cur]; [now apply IH|]. constructor; [|now apply IH].
      rewrite forallb_forall in *. intros x Hx. apply Hcur. now apply in_rev.
    + apply IH; [exact Hs|]. cbn. now rewrite Hc.
Qed.

Lemma join_all (q : ascii -> bool) (ws : list jsstring) :
  q " "%char = true -> Forall (fun w => forallb q w = true) ws ->
  forallb q (join (str " ") ws) = true.
Proof.
  intros Hq. induction ws as [|w ws IH]; intros H; [reflexivity|].
  inversion H as [|? ? Hw Hws]; subst. destruct ws as [|w' ws]; [exact Hw|].
  rewrite join_cons by discriminate. rewrite !forallb_app, Hw, (IH Hws). cbn. now rewrite Hq.
Qed.

Lemma name_words_ok (r : jsstring) :
  Forall word_ok (map title_case (name_words r)) /\
  Forall (fun w => forallb (fun c => negb (is_noise c)) w = true) (map title_case (name_words r)).
Proof.
  unfold name_words. split; apply Forall_map.
  - eapply Forall_impl; [|apply split_ws_ok]. apply title_case_ok.
  - eapply Forall_impl; [apply title_case_clean|].
    apply words_from_all; [|reflexivity].
    now apply replace_runs_from_clean_out.
Qed.

Lemma lower_char_exact (c : ascii) :
  upper_exact c = true -> upper_exact (lower_char c) = true.
Proof. ascii_cases c. Qed.

Lemma upper_char_exact (c : ascii) :
  upper_exact c = true -> upper_exact (upper_char c) = true.
Proof. ascii_cases c. Qed.

Lemma drop_while_In (p : ascii -> bool) (s : jsstring) (c : ascii) :
  In c (drop_while p s) -> In c s.
Proof.
  induction s as [|a s IH]; [intros []|]. cbn [drop_while].
  destruct (p a); [intros H; right; now apply IH | intros H; exact H].
Qed.

Lemma trim_kept (q : ascii -> bool) (s : jsstring) :
  forallb q s = true -> forallb q (trim s) = true.
Proof.
  rewrite !forallb_forall. intros H c Hc. apply H.
  unfold trim, drop_while_end in Hc. apply in_rev, drop_while_In, in_rev in Hc.
  now apply drop_while_In in Hc.
Qed.

Lemma replace_runs_from_kept (q p : ascii -> bool) (r : jsstring) :
  forallb q r = true ->
  forall s b, forallb q s = true -> forallb q (replace_runs_from p r b s) = true.
Proof.
  intros Hr. induction s as [|c s IH]; intros b Hs; [reflexivity|].
  cbn in Hs. apply andb_true_iff in Hs as [Hc Hs].
  cbn [replace_runs_from]. destruct (p c).
  - rewrite forallb_app, (IH _ Hs), andb_true_r. now destruct b.
  - cbn. now rewrite Hc, IH.
Qed.

Lemma title_case_exact (w : jsstring) :
  forallb upper_exact w = true -> forallb upper_exact (title_case w) = true.
Proof.
  intros H. destruct w as [|c w]; [reflexivity|].
  unfold title_case, capitalize, toLowerCase. cbn [map forallb] in *.
  apply andb_true_iff in H as [Hc Hw].
  rewrite (upper_char_exact _ (lower_char_exact c Hc)). cbn [andb].
  rewrite forallb_forall in *. intros a Ha. apply in_map_iff in Ha as (a0 & <- & Ha0).
  apply lower_char_exact. now apply Hw.
Qed.

Lemma title_words_exact (r : jsstring) :
  forallb upper_exact r = true ->
  forallb upper_exact (join (str " ") (map title_case (name_words r))) = true.
Proof.
  intros H. apply join_all; [reflexivity|]. apply Forall_map.
  eapply Forall_impl; [apply title_case_exact|].
  unfold name_words. apply words_from_all; [|reflexivity].
  apply replace_runs_from_kept; [reflexivity|]. now apply trim_kept.
Qed.

(** X8. For a name of code units below 256 that holds no micro sign,
    sharp s or y with diaeresis (the characters whose upper-case form is
    not one such code unit), [normalizeOwnerName] answers the words of
    the name, with the punctuation it takes out counting as white space,
    each in lower case with its first character in upper case and one
    space between them.  Its answer contains none of that punctuation,
    none of the three characters and no white space at either end, and a
    second application changes nothing. *)
Theorem normalizeOwnerName_title_case (r : jsstring) :
  forallb upper_exact r = true ->
  let out := normalizeOwnerName (Some r) in
  out = join (str " ") (map title_case (name_words r)) /\
  forallb (fun c => negb (is_noise c)) out = true /\
  forallb upper_exact out = true /\
  trim out = out /\
  normalizeOwnerName (Some out) = out.
Proof.
  intros Hex. cbv zeta. destruct (name_words_ok r) as [Hok Hclean].
  rewrite (normalizeOwnerName_words r).
  set (ws := map title_case (name_words r)) in *.
  assert (Htrim : trim (join (str " ") ws) = join (str " ") ws).
  { rewrite <- (app_nil_r (join _ _)) at 1.
    apply (trim_unique [] _ []); try reflexivity. now apply join_words_ends. }
  assert (Hall : forallb (fun c => negb (is_noise c)) (join (str " ") ws) = true)
    by (apply join_all; [reflexivity | exact Hclean]).
  split; [reflexivity|]. split; [exact Hall|].
  split; [unfold ws; now apply title_words_exact|]. split; [exact Htrim|].
  rewrite normalizeOwnerName_words. unfold name_words at 1.
  rewrite Htrim. unfold replace_runs.
  rewrite (replace_runs_from_clean_all is_noise _ _ _ Hall), (split_ws_join ws Hok).
  unfold ws. rewrite map_map. f_equal. apply map_ext. intros w. apply title_case_idem.
Qed.

Lemma normalizeOwnerName_title_case_witness :
  let out := normalizeOwnerName (Some (str "  mARIA  (de la) cruz; ")) in
  out = join (str " ") (map title_case (name_words (str "  mARIA  (de la) cruz; "))) /\
  forallb (fun c => negb (is_noise c)) out = true /\
  forallb upper_exact out = true /\
  trim out = out /\
  normalizeOwnerName (Some out) = out.
Proof.
  exact (normalizeOwnerName_title_case (str "  mARIA  (de la) cruz; ") eq_refl).
Defined.

End NormalizeProps.

(** ** Persons, businesses and keys *)

Module NameProps.
Import Str Utils StrFacts PersonProps NormalizeProps.

(** *** A person is not a business *)

Lemma includes_iff (u t : jsstring) :
  includes u t = true <-> exists pre post, u = pre ++ t ++ post.
Proof.
  split; [apply includes_split|]. intros (pre & post & ->). apply includes_app.
Qed.

Lemma includes_rev (u t : jsstring) : includes u t = true -> includes (rev u) (rev t) = true.
Proof.
  rewrite !includes_iff. intros (pre & post & ->). exists (rev post), (rev pre).
  now rewrite !rev_app_distr, <- app_assoc.
Qed.

Lemma includes_drop_while (p : ascii -> bool) (u t : jsstring) :
  match t with [] => False | c :: _ => p c = false end ->
  includes u t = true -> includes (drop_while p u) t = true.
Proof.
  intros Ht. induction u as [|d u IH]; intros H; [exact H|].
  cbn [drop_while]. destruct (p d) eqn:Ed; [|exact H].
  cbn [includes] in H. apply orb_true_iff in H as [H|H]; [|now apply IH].
  exfalso. destruct t as [|c t]; [exact Ht|]. cbn in H.
  apply andb_true_iff in H as [H _]. apply Ascii.eqb_eq in H. subst d. congruence.
Qed.

(** A string with no white space at either end that occurs in [s]
    occurs in [s.trim()]. *)
Lemma includes_trim (s t : jsstring) :
  t <> [] -> ends_ok t -> includes s t = true -> includes (trim s) t = true.
Proof.
  intros Hne [Hh Ht] H. unfold trim, drop_while_end.
  rewrite <- (rev_involutive t). apply includes_rev.
  apply includes_drop_while.
  - destruct (rev t) as [|c r] eqn:E; [|exact Ht].
    apply (f_equal (@rev _)) in E. rewrite rev_involutive in E. contradiction.
  - apply includes_rev. apply includes_drop_while; [|exact H].
    destruct t as [|c t]; [contradiction | exact Hh].
Qed.

Lemma drop_while_map (p : ascii -> bool) (f : ascii -> ascii) (s : jsstring) :
  (forall c, p (f c) = p c) -> drop_while p (map f s) = map f (drop_while p s).
Proof.
  intros H. induction s as [|c s IH]; [reflexivity|].
  cbn [map drop_while]. rewrite H. now destruct (p c).
Qed.

Lemma toUpperCase_trim (s : jsstring) : toUpperCase (trim s) = trim (toUpperCase s).
Proof.
  unfold trim, drop_while_end, toUpperCase.
  rewrite (drop_while_map is_space upper_char s upper_char_is_space).
  rewrite <- map_rev, (drop_while_map is_space upper_char _ upper_char_is_space).
  now rewrite map_rev.
Qed.

Lemma BIZ_LIKE_TOKENS_trimmed (t : jsstring) :
  In t BIZ_LIKE_TOKENS -> trim t <> [] /\ ends_ok (trim t).
Proof.
  unfold BIZ_LIKE_TOKENS. cbn [map In]. intros H.
  repeat (destruct H as [<-|H]; [vm_compute; repeat split; discriminate|]). destruct H.
Qed.

Lemma person_no_business (r : jsstring) :
  isLikelyPersonName (Some r) = true ->
  existsb (fun t => includes (toUpperCase (trim r)) (trim t)) BIZ_LIKE_TOKENS = false.
Proof.
  unfold isLikelyPersonName. destruct (negb (nonempty r)); [discriminate|].
  destruct (negb (nonempty (trim r))); [discriminate|]. cbv zeta.
  destruct (existsb (fun n => includes (toUpperCase (trim r)) n) negative); [discriminate|].
  destruct (existsb (fun t => includes (toUpperCase (trim r)) (trim t)) BIZ_LIKE_TOKENS);
    [discriminate | reflexivity].
Qed.

Lemma person_is_residential_string (r : jsstring) :
  isLikelyPersonName (Some r) = true -> classifyOwner (Some r) = residential.
Proof.
  intros H. apply person_no_business in H. unfold classifyOwner.
  destruct (negb (nonempty r)); [reflexivity|]. cbv zeta.
  destruct (existsb (fun t => includes (toUpperCase r) t) BIZ_LIKE_TOKENS) eqn:E; [|reflexivity].
  exfalso. apply existsb_exists in E as (t & Hin & Hinc).
  assert (A : existsb (fun t => includes (toUpperCase (trim r)) (trim t)) BIZ_LIKE_TOKENS = true).
  { apply existsb_exists. exists t. split; [exact Hin|].
    destruct (BIZ_LIKE_TOKENS_trimmed t Hin) as [Hne Hends].
    rewrite toUpperCase_trim. apply includes_trim; try assumption.
    destruct (trim_inside t) as (pre & post & Et). rewrite Et in Hinc.
    now apply includes_weaken in Hinc. }
  congruence.
Qed.

(** X9. The two classifiers agree: a name that [isLikelyPersonName]
    accepts is residential for [classifyOwner], so no name is both a
    likely person and a business, and such a name passes the residential
    owner scope of an export and not the business one. *)
Theorem person_is_residential (raw : option jsstring) :
  isLikelyPersonName raw = true ->
  classifyOwner raw = residential /\
  ExportCenter.ownerPasses (ExportCenter.only residential) raw = true /\
  ExportCenter.ownerPasses (ExportCenter.only business) raw = false.
Proof.
  intros H. assert (E : classifyOwner raw = residential).
  { destruct raw as [r|]; [now apply person_is_residential_string | discriminate]. }
  unfold ExportCenter.ownerPasses. rewrite E. repeat split.
Qed.

Lemma person_is_residential_witness :
  isLikelyPersonName (Some (str "Maria de la Cruz")) = true /\
  classifyOwner (Some (str "Maria de la Cruz")) = residential.
Proof.
  split; [reflexivity|].
  apply (person_is_residential (Some (str "Maria de la Cruz"))). reflexivity.
Defined.

(** *** The alphabet of a key *)

Lemma lower_char_not_upper (c : ascii) : is_upper (lower_char c) = false.
Proof. ascii_cases c. Qed.

Lemma key_char_ok (c : ascii) :
  is_key_char c = true -> is_upper c = false -> is_space c = false -> key_ok c = true.
Proof. ascii_cases c. Qed.

Lemma nonspace_not_blank (c : ascii) : is_space c = false -> Ascii.eqb c " " = false.
Proof. ascii_cases c. Qed.

Lemma replace_runs_from_all (p q : ascii -> bool) (r : jsstring) :
  forallb q r = true ->
  forall s b,
    forallb (fun c => p c || q c) s = true ->
    forallb q (replace_runs_from p r b s) = true.
Proof.
  intros Hr. induction s as [|c s IH]; intros b Hs; [reflexivity|].
  cbn [forallb] in Hs. apply andb_true_iff in Hs as [Hc Hs].
  cbn [replace_runs_from]. destruct (p c) eqn:Ec.
  - rewrite forallb_app, (IH true Hs), andb_true_r. now destruct b.
  - cbn [forallb]. cbn in Hc. now rewrite Hc, (IH false Hs).
Qed.

Lemma replace_runs_single_spaced (s : jsstring) :
  forall b, single_spaced b (replace_runs_from is_space (str " ") b s) = true.
Proof.
  induction s as [|c s IH]; intros b; [reflexivity|].
  cbn [replace_runs_from]. destruct (is_space c) eqn:Ec.
  - destruct b; cbn [app str list_ascii_of_string single_spaced].
    + apply IH.
    + rewrite Ascii.eqb_refl. cbn. apply IH.
  - cbn [single_spaced]. rewrite (nonspace_not_blank c Ec). apply IH.
Qed.

(** X10. A key of [normalizeOwnerKey] is made of lower-case letters,
    digits, apostrophes and spaces only, and has no two spaces in a row:
    keys do not differ by case, punctuation or the amount of white
    space. *)
Theorem normalizeOwnerKey_alphabet (raw : option jsstring) :
  forallb key_ok (normalizeOwnerKey raw) = true /\
  single_spaced false (normalizeOwnerKey raw) = true.
Proof.
  unfold normalizeOwnerKey. destruct raw as [r|]; [|split; reflexivity].
  destruct (negb (nonempty r)); [split; reflexivity|].
  destruct (splitPersonNames (Some r)) as [|p ps]; [split; reflexivity|].
  cbv zeta. split; [|apply replace_runs_single_spaced].
  apply replace_runs_from_all; [reflexivity|].
  apply forallb_forall. intros c Hc. unfold remove_all in Hc.
  apply filter_In in Hc as [Hin Hk]. rewrite negb_involutive in Hk.
  unfold toLowerCase in Hin. apply in_map_iff in Hin as (c0 & <- & _).
  destruct (is_space (lower_char c0)) eqn:Es; [reflexivity|]. cbn [orb].
  apply key_char_ok; [exact Hk | apply lower_char_not_upper | exact Es].
Qed.

(** *** 'LAST, FIRST' and 'FIRST LAST' *)

Lemma lower_char_letter (c : ascii) : is_letter c = true -> is_letter (lower_char c) = true.
Proof. ascii_cases c. Qed.

Lemma letters_toLowerCase (w : jsstring) : letters w -> letters (toLowerCase w).
Proof.
  unfold letters, toLowerCase. rewrite !forallb_forall. intros H c Hc.
  apply in_map_iff in Hc as (c0 & <- & Hc0). apply lower_char_letter. now apply H.
Qed.

Lemma toLowerCase_two_words (w1 w2 : jsstring) :
  toLowerCase (two_words w1 w2) = two_words (toLowerCase w1) (toLowerCase w2).
Proof. unfold two_words, toLowerCase. now rewrite !map_app. Qed.

Lemma alpha_word_ok (w : jsstring) : is_alpha_word w = true -> word_ok w.
Proof.
  intros H. destruct (alpha_word_letters w H) as [N L]. split; [exact N|].
  now apply (word_clean is_space _ letter_not_space).
Qed.

Lemma alpha_word_trim (w : jsstring) : is_alpha_word w = true -> trim w = w.
Proof.
  intros H. rewrite <- (app_nil_r w) at 1.
  apply (trim_unique [] w []); try reflexivity.
  apply (join_words_ends [w]). constructor; [now apply alpha_word_ok | constructor].
Qed.

Lemma alpha_word_trim_blank (w : jsstring) :
  is_alpha_word w = true -> trim (" "%char :: w) = w.
Proof.
  intros H. rewrite <- (app_nil_r w) at 1.
  apply (trim_unique [" "%char] w []); try reflexivity.
  apply (join_words_ends [w]). constructor; [now apply alpha_word_ok | constructor].
Qed.

Lemma trim_strip_two_words (w1 w2 : jsstring) :
  is_alpha_word w1 = true -> is_alpha_word w2 = true ->
  trim (strip_parens (two_words w1 w2)) = two_words w1 w2.
Proof.
  intros H1 H2. destruct (two_words_ends w1 w2 H1 H2) as (c & m & d & E & Hc & Hd).
  unfold strip_parens. rewrite E.
  rewrite (drop_both_id (Ascii.eqb "(") (Ascii.eqb ")") c d m) by (now apply letter_neq_l).
  apply trim_id; now apply letter_not_space.
Qed.

Lemma match_sep_comma (x : jsstring) : match_sep (","%char :: x) = None.
Proof. reflexivity. Qed.

Lemma comma_ends (w1 w2 : jsstring) :
  is_alpha_word w1 = true -> is_alpha_word w2 = true ->
  exists c m d, last_comma_first w1 w2 = c :: m ++ [d] /\
                is_letter c = true /\ is_letter d = true.
Proof.
  intros H1 H2.
  apply alpha_word_letters in H1 as [N1 L1]. apply alpha_word_letters in H2 as [N2 L2].
  destruct w2 as [|c w2]; [contradiction|].
  destruct (letters_last w1 L1 N1) as (w1' & d & -> & Hd).
  exists c, (w2 ++ str ", " ++ w1'), d. split.
  - unfold last_comma_first. cbn. now rewrite <- !app_assoc.
  - split; [|exact Hd]. now apply letters_cons in L2.
Qed.

Lemma comma_clean (p : ascii -> bool) (w1 w2 : jsstring) :
  (forall c, is_letter c = true -> p c = false) ->
  p ","%char = false -> p " "%char = false ->
  letters w1 -> letters w2 ->
  forallb (fun c => negb (p c)) (last_comma_first w1 w2) = true.
Proof.
  intros Hp Hc Hs L1 L2. unfold last_comma_first. rewrite !forallb_app. cbn.
  rewrite Hc, Hs. cbn.
  now rewrite (word_clean p w1 Hp L1), (word_clean p w2 Hp L2).
Qed.

Lemma comma_segments (w1 w2 : jsstring) :
  is_alpha_word w1 = true -> is_alpha_word w2 = true ->
  segments (trim (last_comma_first w1 w2)) = [last_comma_first w1 w2].
Proof.
  intros H1 H2.
  destruct (alpha_word_letters w1 H1) as [N1 L1].
  destruct (alpha_word_letters w2 H2) as [N2 L2].
  assert (Etrim : trim (last_comma_first w1 w2) = last_comma_first w1 w2).
  { destruct (comma_ends w1 w2 H1 H2) as (c & m & d & -> & Hc & Hd).
    apply trim_id; now apply letter_not_space. }
  rewrite Etrim. unfold segments.
  assert (Esep : replace_sep (last_comma_first w1 w2) = last_comma_first w1 w2).
  { unfold replace_sep, last_comma_first.
    rewrite (replace_sep_from_word w2 _ L2). f_equal.
    cbn [str list_ascii_of_string app replace_sep_from].
    rewrite match_sep_comma. f_equal.
    rewrite (match_sep_space_word w1 L1 N1). f_equal.
    rewrite <- (app_nil_r w1) at 1. rewrite (replace_sep_from_word w1 [] L1).
    cbn. apply app_nil_r. }
  rewrite Esep, split_clean.
  - cbn [map]. rewrite Etrim. unfold filter_Boolean. cbn [filter].
    destruct (comma_ends w1 w2 H1 H2) as (c & m & d & -> & _). reflexivity.
  - apply (comma_clean (fun c => Ascii.eqb c "|")); try assumption; try reflexivity.
    intros c Hc. now apply letter_neq.
Qed.

Lemma comma_candidate (w1 w2 : jsstring) :
  is_alpha_word w1 = true -> is_alpha_word w2 = true ->
  candidate (last_comma_first w1 w2) = two_words w1 w2.
Proof.
  intros H1 H2.
  destruct (alpha_word_letters w1 H1) as [N1 L1].
  destruct (alpha_word_letters w2 H2) as [N2 L2].
  unfold candidate, reorder_comma.
  assert (Hc : test_any (Ascii.eqb ",") (last_comma_first w1 w2) = true).
  { unfold test_any, last_comma_first. rewrite existsb_app. cbn. apply orb_true_r. }
  rewrite Hc.
  assert (A : forall c, is_letter c = true -> Ascii.eqb c "," = false)
    by (intros c Hl; now apply letter_neq).
  assert (Es : split "," (last_comma_first w1 w2) = [w2; " "%char :: w1]).
  { unfold last_comma_first. cbn [str list_ascii_of_string app].
    apply split_two; [now apply (word_clean (fun c => Ascii.eqb c ","))|].
    cbn. now apply (word_clean (fun c => Ascii.eqb c ",")). }
  rewrite Es. cbn [map].
  rewrite (alpha_word_trim w2 H2), (alpha_word_trim_blank w1 H1).
  unfold filter_Boolean. cbn [filter].
  destruct w1 as [|a1 w1]; [contradiction|]. destruct w2 as [|a2 w2]; [contradiction|].
  cbn [nonempty join].
  change ((a1 :: w1) ++ str " " ++ a2 :: w2) with (two_words (a1 :: w1) (a2 :: w2)).
  now apply trim_strip_two_words.
Qed.

Section TwoWords.

Variables w1 w2 : jsstring.
Hypothesis H1 : is_alpha_word w1 = true.
Hypothesis H2 : is_alpha_word w2 = true.
Hypothesis G1 : 3 <= List.length w1.
Hypothesis G2 : 3 <= List.length w2.
Hypothesis Hneg : no_negative_token (two_words w1 w2) = true.
Hypothesis Hbiz : no_business_token (two_words w1 w2) = true.
Hypothesis A1 : is_address_token w1 = false.
Hypothesis A2 : is_address_token w2 = false.
Hypothesis Ht : no_title w1 = true.
Hypothesis Hs : is_suffix_tail w2 = false.

Lemma two_words_person : isLikelyPersonName (Some (two_words w1 w2)) = true.
Proof.
  rewrite (isLikelyPersonName_two_words w1 w2 H1 H2 Hneg Hbiz), A1, A2.
  apply Nat.leb_le in G1, G2. now rewrite G1, G2.
Qed.

Lemma two_words_parse :
  parse_person (two_words w1 w2) = Some (mkPerson w1 None w2 (two_words w1 w2)).
Proof.
  unfold parse_person.
  rewrite (two_words_strip_title w1 w2 Ht).
  rewrite (two_words_strip_suffix w1 w2 H1 H2 G1 G2 Hs).
  rewrite (two_words_trim w1 w2 H1 H2), (two_words_split_ws w1 w2 H1 H2).
  reflexivity.
Qed.

Lemma splitPersonNames_two_words :
  splitPersonNames (Some (two_words w1 w2)) = [mkPerson w1 None w2 (two_words w1 w2)].
Proof.
  unfold splitPersonNames. rewrite two_words_nonempty. cbn [negb].
  rewrite (two_words_trim w1 w2 H1 H2), two_words_nonempty. cbn [negb].
  rewrite (two_words_segments w1 w2 H1 H2). cbn [split_loop].
  rewrite (two_words_candidate w1 w2 H1 H2), two_words_person. cbn [negb].
  now rewrite two_words_parse.
Qed.

Lemma splitPersonNames_comma :
  splitPersonNames (Some (last_comma_first w1 w2)) = [mkPerson w1 None w2 (two_words w1 w2)].
Proof.
  unfold splitPersonNames.
  destruct (comma_ends w1 w2 H1 H2) as (c & m & d & E & Hc & Hd).
  assert (N : nonempty (last_comma_first w1 w2) = true) by now rewrite E.
  assert (Etrim : trim (last_comma_first w1 w2) = last_comma_first w1 w2).
  { rewrite E. apply trim_id; now apply letter_not_space. }
  rewrite N. cbn [negb]. rewrite (comma_segments w1 w2 H1 H2), Etrim, N. cbn [negb split_loop].
  rewrite (comma_candidate w1 w2 H1 H2), two_words_person. cbn [negb].
  now rewrite two_words_parse.
Qed.

Lemma key_of_person :
  toLowerCase (trim (w1 ++ str " " ++ w2)) = two_words (toLowerCase w1) (toLowerCase w2) /\
  replace_runs is_space (str " ")
    (remove_all (fun c => negb (is_key_char c))
       (two_words (toLowerCase w1) (toLowerCase w2)))
  = two_words (toLowerCase w1) (toLowerCase w2).
Proof.
  destruct (alpha_word_letters w1 H1) as [N1 L1].
  destruct (alpha_word_letters w2 H2) as [N2 L2].
  pose proof (letters_toLowerCase w1 L1) as L1'.
  pose proof (letters_toLowerCase w2 L2) as L2'.
  split.
  - change (w1 ++ str " " ++ w2) with (two_words w1 w2).
    now rewrite (two_words_trim w1 w2 H1 H2), toLowerCase_two_words.
  - rewrite remove_all_clean.
    + now apply two_words_collapse.
    + apply (two_words_clean (fun c => negb (is_key_char c))); try assumption; [|reflexivity].
      intros c Hc. now rewrite (letter_is_key_char c Hc).
Qed.

End TwoWords.

(** X11. An owner written 'LAST, FIRST' and the same owner written
    'FIRST LAST' get the same key, the two words in lower case with one
    space between them, whatever the case of their letters: for two
    alphabetic words of three letters or more that carry no negative or
    business token, are no address words and have no title in front or
    suffix at the end. *)
Theorem normalizeOwnerKey_comma_order (w1 w2 : jsstring) :
  is_alpha_word w1 = true -> is_alpha_word w2 = true ->
  3 <= List.length w1 -> 3 <= List.length w2 ->
  no_negative_token (two_words w1 w2) = true ->
  no_business_token (two_words w1 w2) = true ->
  is_address_token w1 = false -> is_address_token w2 = false ->
  no_title w1 = true -> is_suffix_tail w2 = false ->
  normalizeOwnerKey (Some (last_comma_first w1 w2))
  = two_words (toLowerCase w1) (toLowerCase w2) /\
  normalizeOwnerKey (Some (two_words w1 w2))
  = two_words (toLowerCase w1) (toLowerCase w2).
Proof.
  intros H1 H2 G1 G2 Hneg Hbiz A1 A2 Ht Hs.
  destruct (key_of_person w1 w2 H1 H2) as [K1 K2].
  destruct (comma_ends w1 w2 H1 H2) as (c & m & d & E & _).
  unfold normalizeOwnerKey. split.
  - rewrite (splitPersonNames_comma w1 w2 H1 H2 G1 G2 Hneg Hbiz A1 A2 Ht Hs).
    rewrite E at 1. cbn [nonempty negb first last]. now rewrite K1, K2.
  - rewrite (splitPersonNames_two_words w1 w2 H1 H2 G1 G2 Hneg Hbiz A1 A2 Ht Hs).
    rewrite two_words_nonempty. cbn [negb first last]. now rewrite K1, K2.
Qed.

Lemma normalizeOwnerKey_comma_order_witness :
  normalizeOwnerKey (Some (str "SMITH, John")) = str "john smith" /\
  normalizeOwnerKey (Some (str "John SMITH")) = str "john smith".
Proof.
  apply (normalizeOwnerKey_comma_order (str "John") (str "SMITH"));
    try reflexivity; simpl; lia.
Defined.

(** *** The tokens of a person *)

Lemma split_ws_word (w : jsstring) : word_ok w -> split_ws w = [w].
Proof.
  intros H. apply (split_ws_join [w]). constructor; [exact H | constructor].
Qed.

Lemma split_ws_or_undefined (ws : list jsstring) :
  Forall word_ok ws ->
  split_ws (match or_undefined (join (str " ") ws) with Some m => m | None => [] end) = ws.
Proof.
  intros H. destruct ws as [|w ws]; [reflexivity|].
  assert (N : join (str " ") (w :: ws) <> []).
  { apply join_nonempty. inversion H as [|? ? [Nw _] _]; subst. exact Nw. }
  unfold or_undefined. destruct (join (str " ") (w :: ws)) eqn:E; [contradiction|].
  rewrite <- E. now apply split_ws_join.
Qed.

Lemma Forall_firstn {T : Type} (P : T -> Prop) (n : nat) (l : list T) :
  Forall P l -> Forall P (firstn n l).
Proof.
  intros H. rewrite <- (firstn_skipn n l) in H. now apply Forall_app in H.
Qed.

Lemma Forall_skipn {T : Type} (P : T -> Prop) (n : nat) (l : list T) :
  Forall P l -> Forall P (skipn n l).
Proof.
  intros H. rewrite <- (firstn_skipn n l) in H. now apply Forall_app in H.
Qed.

Lemma nth_last_split {T : Type} (d : T) (l : list T) :
  l <> [] -> firstn (List.length l - 1) l ++ [nth (List.length l - 1) l d] = l.
Proof.
  intros N. destruct (exists_last N) as (l' & x & ->).
  rewrite length_app. cbn [List.length]. replace (List.length l' + 1 - 1) with (List.length l') by lia.
  rewrite firstn_app, Nat.sub_diag, firstn_all. cbn [firstn]. rewrite app_nil_r.
  now rewrite nth_middle.
Qed.

(** The first name, the middle names and the last name of a person are
    its tokens, in their order. *)
Lemma parse_person_tokens (cand : jsstring) (p : PersonName) :
  parse_person cand = Some p ->
  full p = trim (strip_suffix (strip_title cand)) /\
  first p <> [] /\
  split_ws (full p)
  = [first p] ++ split_ws (match middle p with Some m => m | None => [] end)
              ++ split_ws (last p).
Proof.
  unfold parse_person. set (part := trim (strip_suffix (strip_title cand))).
  pose proof (split_ws_ok part) as Hok.
  destruct (split_ws part) as [|t0 [|t1 [|t2 ts]]] eqn:E; [discriminate| | |].
  - intros H. injection H as <-. cbn [full first middle last].
    inversion Hok as [|? ? [N0 _] _]; subst. rewrite E. repeat split; assumption.
  - intros H. injection H as <-. cbn [full first middle last].
    inversion Hok as [|? ? [N0 _] Hok1]; subst. inversion Hok1 as [|? ? H1 _]; subst.
    rewrite E, (split_ws_word t1 H1). repeat split; assumption.
  - set (tokens := t0 :: t1 :: t2 :: ts) in *.
    assert (Hlen : List.length tokens = 3 + List.length ts) by reflexivity.
    assert (N0 : t0 <> []) by (inversion Hok as [|? ? [N0 _] _]; exact N0).
    assert (Hrest : Forall word_ok (t1 :: t2 :: ts)) by (inversion Hok; assumption).
    destruct (is_particle (nth (List.length tokens - 2) tokens [])).
    + intros H.
      assert (Hp : p = mkPerson t0 (or_undefined (join (str " ") (slice_1_minus 2 tokens)))
                                (join (str " ") (last_two tokens)) part) by congruence.
      rewrite Hp. cbn [full first middle last].
      split; [reflexivity|]. split; [exact N0|]. rewrite E.
      rewrite split_ws_or_undefined, split_ws_join.
      * unfold slice_1_minus, last_two. rewrite Hlen. unfold tokens.
        replace (3 + List.length ts - 2 - 1) with (List.length ts) by lia.
        replace (3 + List.length ts - 2) with (S (List.length ts)) by lia.
        cbn [skipn app]. f_equal. symmetry. apply firstn_skipn.
      * unfold last_two. now apply Forall_skipn.
      * unfold slice_1_minus. apply Forall_firstn. now apply (Forall_skipn _ 1).
    + intros H.
      assert (Hp : p = mkPerson t0 (or_undefined (join (str " ") (slice_1_minus 1 tokens)))
                                (nth (List.length tokens - 1) tokens []) part) by congruence.
      rewrite Hp. cbn [full first middle last].
      split; [reflexivity|]. split; [exact N0|]. rewrite E.
      rewrite split_ws_or_undefined.
      * unfold slice_1_minus. rewrite Hlen. unfold tokens.
        replace (3 + List.length ts - 1 - 1) with (List.length (t1 :: t2 :: ts) - 1)
          by (cbn [List.length]; lia).
        replace (3 + List.length ts - 1) with (S (List.length (t1 :: t2 :: ts) - 1))
          by (cbn [List.length]; lia).
        change (nth (S ?k) (t0 :: ?l) ?d) with (nth k l d).
        cbn [skipn app]. f_equal.
        rewrite split_ws_word.
        -- symmetry. apply nth_last_split. discriminate.
        -- rewrite Forall_forall in Hrest. apply Hrest. apply nth_In. cbn [List.length]. lia.
      * unfold slice_1_minus. apply Forall_firstn. now apply (Forall_skipn _ 1).
Qed.

Lemma skipn_last_one {T : Type} (d : T) (l : list T) :
  l <> [] -> skipn (List.length l - 1) l = [nth (List.length l - 1) l d].
Proof.
  intros N. destruct (exists_last N) as (l' & x & ->).
  rewrite length_app. cbn [List.length].
  replace (List.length l' + 1 - 1) with (List.length l') by lia.
  rewrite skipn_app, Nat.sub_diag, skipn_all, nth_middle. reflexivity.
Qed.

(** Which tokens go to which field. *)
Lemma parse_person_fields (cand : jsstring) (p : PersonName) :
  parse_person cand = Some p ->
  let ts := split_ws (full p) in
  let n := List.length ts in
  let k := last_name_size ts in
  first p = nth 0 ts [] /\
  last p = join (str " ") (skipn (n - k) ts) /\
  middle p = or_undefined (join (str " ") (firstn (n - k - 1) (skipn 1 ts))).
Proof.
  unfold parse_person. set (part := trim (strip_suffix (strip_title cand))).
  destruct (split_ws part) as [|t0 [|t1 [|t2 ts]]] eqn:E; [discriminate| | |].
  - intros H. injection H as <-. cbn [full first middle last]. rewrite E.
    repeat split.
  - intros H. injection H as <-. cbn [full first middle last]. rewrite E.
    repeat split.
  - set (tokens := t0 :: t1 :: t2 :: ts) in *.
    assert (Hn : List.length tokens = 3 + List.length ts) by reflexivity.
    assert (Hk : last_name_size tokens
                 = if is_particle (nth (List.length tokens - 2) tokens []) then 2 else 1)
      by reflexivity.
    destruct (is_particle (nth (List.length tokens - 2) tokens [])).
    + intros H.
      assert (Hp : p = mkPerson t0 (or_undefined (join (str " ") (slice_1_minus 2 tokens)))
                                (join (str " ") (last_two tokens)) part) by congruence.
      rewrite Hp. cbn [full first middle last]. cbv zeta. rewrite E, Hk.
      repeat split.
    + intros H.
      assert (Hp : p = mkPerson t0 (or_undefined (join (str " ") (slice_1_minus 1 tokens)))
                                (nth (List.length tokens - 1) tokens []) part) by congruence.
      rewrite Hp. cbn [full first middle last]. cbv zeta. rewrite E, Hk.
      split; [reflexivity|]. split; [|reflexivity].
      rewrite (skipn_last_one ([] : jsstring) tokens) by discriminate. reflexivity.
Qed.

(** X12. Every person [splitPersonNames] answers keeps all the tokens
    of its full name, in their order, none lost and none repeated.  The
    first name is the first token and is never empty.  The last name is
    the last token, or the last two tokens with one space between them
    when there are three or more tokens and the last but one is a
    particle such as "de" or "van"; of a single token it is empty.  The
    middle name is the tokens between the two, with one space between
    them, and it is absent when there is none. *)
Theorem splitPersonNames_tokens (raw : option jsstring) (p : PersonName) :
  In p (splitPersonNames raw) ->
  let ts := split_ws (full p) in
  let n := List.length ts in
  let k := last_name_size ts in
  trim (full p) = full p /\
  first p <> [] /\
  first p = nth 0 ts [] /\
  last p = join (str " ") (skipn (n - k) ts) /\
  middle p = or_undefined (join (str " ") (firstn (n - k - 1) (skipn 1 ts))) /\
  ts = [first p] ++ split_ws (match middle p with Some m => m | None => [] end)
                 ++ split_ws (last p).
Proof.
  intros Hin. assert (H : exists cand, parse_person cand = Some p).
  { unfold splitPersonNames in Hin. destruct raw as [r|]; [|destruct Hin].
    destruct (negb (nonempty r)); [destruct Hin|].
    destruct (negb (nonempty (trim r))); [destruct Hin|].
    apply split_loop_accepted in Hin as (part & _ & _ & Hp). now exists (candidate part). }
  destruct H as (cand & Hp). destruct (parse_person_tokens cand p Hp) as (Hf & N & Ht).
  destruct (parse_person_fields cand p Hp) as (H1 & H2 & H3).
  cbv zeta. split; [rewrite Hf; apply trim_trim|].
  split; [exact N|]. split; [exact H1|]. split; [exact H2|]. split; [exact H3 | exact Ht].
Qed.

Lemma splitPersonNames_tokens_witness :
  let p := mkPerson (str "Maria") (Some (str "Elena")) (str "de Cruz") (str "Maria Elena de Cruz") in
  In p (splitPersonNames (Some (str "Cruz, Maria Elena de"))) /\
  last_name_size (split_ws (full p)) = 2 /\
  first p = str "Maria" /\
  last p = join (str " ") [str "de"; str "Cruz"] /\
  middle p = or_undefined (join (str " ") [str "Elena"]) /\
  split_ws (full p)
  = [first p] ++ split_ws (match middle p with Some m => m | None => [] end)
              ++ split_ws (last p).
Proof.
  cbv zeta.
  assert (H : In (mkPerson (str "Maria") (Some (str "Elena")) (str "de Cruz")
                           (str "Maria Elena de Cruz"))
                 (splitPersonNames (Some (str "Cruz, Maria Elena de"))))
    by (vm_compute; tauto).
  split; [exact H|].
  destruct (splitPersonNames_tokens _ _ H) as (_ & _ & A & B & C & D).
  split; [reflexivity|]. split; [exact A|]. split; [exact B|]. split; [exact C | exact D].
Defined.

End NameProps.

(** ** Counts per ZIP and the owner leaderboard *)

Module DataLabProps.
Import Str Utils ExportCenter DataLab.

(** *** Maps *)

Section Assoc.

Context {V : Type}.
Implicit Types (m : list (jsstring * V)) (k : jsstring) (v : V).

Lemma assoc_get_set m k v k' :
  assoc_get (assoc_set k v m) k'
  = if list_eq_dec ascii_dec k' k then Some v else assoc_get m k'.
Proof.
  induction m as [|[k0 v0] m IH]; cbn [assoc_set assoc_get].
  - reflexivity.
  - destruct (list_eq_dec ascii_dec k k0) as [->|Hk]; cbn [assoc_get].
    + now destruct (list_eq_dec ascii_dec k' k0).
    + destruct (list_eq_dec ascii_dec k' k0) as [->|Hk'].
      * destruct (list_eq_dec ascii_dec k0 k); [congruence | reflexivity].
      * exact IH.
Qed.

Lemma assoc_get_In m k : assoc_get m k <> None <-> In k (map fst m).
Proof.
  induction m as [|[k0 v0] m IH]; cbn [assoc_get map fst In].
  - tauto.
  - destruct (list_eq_dec ascii_dec k k0) as [->|Hk].
    + split; [now left | discriminate].
    + rewrite IH. split; [now right | intros [E|H]; [congruence | exact H]].
Qed.

Lemma keys_set m k v :
  map fst (assoc_set k v m)
  = if in_dec (list_eq_dec ascii_dec) k (map fst m) then map fst m else map fst m ++ [k].
Proof.
  induction m as [|[k0 v0] m IH]; cbn [assoc_set map fst app].
  - now destruct (in_dec _ _ _).
  - destruct (list_eq_dec ascii_dec k k0) as [->|Hk]; cbn [map fst].
    + clear IH. destruct (in_dec _ _ _) as [_|N]; [reflexivity|]. exfalso. apply N. now left.
    + rewrite IH.
      destruct (in_dec (list_eq_dec ascii_dec) k (map fst m)) as [I|N];
        destruct (in_dec (list_eq_dec ascii_dec) k (k0 :: map fst m)) as [I'|N']; try reflexivity.
      * exfalso. apply N'. now right.
      * exfalso. destruct I' as [E|I']; [congruence | contradiction].
Qed.

Lemma keys_set_In m k v k' :
  In k' (map fst (assoc_set k v m)) <-> k' = k \/ In k' (map fst m).
Proof.
  rewrite keys_set. destruct (in_dec _ _ _) as [I|N].
  - split; [now right | intros [->|H]; assumption].
  - rewrite in_app_iff. cbn. split; [intros [H|[<-|[]]]; auto | intros [->|H]; auto].
Qed.

Lemma keys_set_NoDup m k v : NoDup (map fst m) -> NoDup (map fst (assoc_set k v m)).
Proof.
  intros H. rewrite keys_set. destruct (in_dec _ _ _) as [I|N]; [exact H|].
  apply NoDup_app; [exact H | repeat constructor; intros [] | ].
  intros x Hx [<-|[]]. contradiction.
Qed.

End Assoc.

Lemma get_or_zero_add (m : nmap) (k : jsstring) (v : nat) (k' : jsstring) :
  get_or_zero (map_add m k v) k'
  = get_or_zero m k' + (if list_eq_dec ascii_dec k' k then v else 0).
Proof.
  unfold map_add, get_or_zero at 1. rewrite assoc_get_set.
  destruct (list_eq_dec ascii_dec k' k) as [->|Hk]; [reflexivity|].
  unfold get_or_zero. lia.
Qed.

Lemma sum_app (xs ys : list nat) : sum (xs ++ ys) = sum xs + sum ys.
Proof. unfold sum. induction xs as [|x xs IH]; cbn; [reflexivity | rewrite IH; lia]. Qed.

Lemma sum_where_cons (p : group -> bool) (t : group) (rows : list group) :
  sum_where p (t :: rows) = (if p t then g_value t else 0) + sum_where p rows.
Proof. unfold sum_where. cbn [filter]. now destruct (p t). Qed.

Lemma sum_where_app (p : group -> bool) (r1 r2 : list group) :
  sum_where p (r1 ++ r2) = sum_where p r1 + sum_where p r2.
Proof. unfold sum_where. now rewrite filter_app, map_app, sum_app. Qed.

(** *** Counts per ZIP *)

Lemma has_zip_true (z : jsstring) (f : group) : has_zip z f = true <-> zip5 (g_key f) = Some z.
Proof.
  unfold has_zip. destruct (zip5 (g_key f)) as [z'|]; [|split; discriminate].
  destruct (list_eq_dec ascii_dec z z') as [->|N]; split; try reflexivity; try discriminate.
  intros E. congruence.
Qed.

Lemma zip_stats_from_get (fs : list group) :
  forall m z, get_or_zero (zip_stats_from m fs) z = get_or_zero m z + sum_where (has_zip z) fs.
Proof.
  induction fs as [|f fs IH]; intros m z; cbn [zip_stats_from].
  - unfold sum_where. cbn. lia.
  - rewrite sum_where_cons. unfold has_zip at 1.
    destruct (zip5 (g_key f)) as [z'|]; rewrite IH; [|lia].
    rewrite get_or_zero_add.
    destruct (list_eq_dec ascii_dec z z'); lia.
Qed.

Lemma zip_stats_from_keys (fs : list group) :
  forall m z, In z (map fst (zip_stats_from m fs))
              <-> In z (map fst m) \/ exists f, In f fs /\ zip5 (g_key f) = Some z.
Proof.
  induction fs as [|f fs IH]; intros m z; cbn [zip_stats_from].
  - split; [now left | intros [H|(f & [] & _)]; exact H].
  - destruct (zip5 (g_key f)) as [z'|] eqn:E; rewrite IH.
    + unfold map_add. rewrite keys_set_In. split.
      * intros [[->|H]|(f' & Hin & Hz)]; [right; exists f; split; [now left|exact E] | now left |].
        right. exists f'. split; [now right | exact Hz].
      * intros [H|(f' & [<-|Hin] & Hz)]; [left; now right | left; left; congruence |].
        right. now exists f'.
    + split.
      * intros [H|(f' & Hin & Hz)]; [now left|]. right. exists f'. split; [now right | exact Hz].
      * intros [H|(f' & [<-|Hin] & Hz)]; [now left | congruence |]. right. now exists f'.
Qed.

Lemma zip_stats_from_NoDup (fs : list group) :
  forall m, NoDup (map fst m) -> NoDup (map fst (zip_stats_from m fs)).
Proof.
  induction fs as [|f fs IH]; intros m H; cbn [zip_stats_from]; [exact H|].
  destruct (zip5 (g_key f)); apply IH; [|exact H].
  now apply keys_set_NoDup.
Qed.

(** *** The order of strings *)

Lemma str_leb_total (a b : jsstring) : str_leb a b = false -> str_leb b a = true.
Proof.
  revert b. induction a as [|x a IH]; intros [|y b]; cbn; try discriminate; try reflexivity.
  intros H. apply orb_false_iff in H as [H1 H2]. apply N.ltb_ge in H1.
  destruct (N.ltb_spec (code y) (code x)) as [L|G]; [reflexivity|].
  assert (E : code x = code y) by lia.
  rewrite E, N.eqb_refl in *. cbn in *. now apply IH.
Qed.

Lemma str_leb_trans (a b c : jsstring) :
  str_leb a b = true -> str_leb b c = true -> str_leb a c = true.
Proof.
  revert b c. induction a as [|x a IH]; intros [|y b] [|z c]; cbn; try discriminate; try reflexivity.
  intros H1 H2.
  apply orb_true_iff in H1 as [H1|H1]; apply orb_true_iff in H2 as [H2|H2].
  - apply N.ltb_lt in H1, H2. apply orb_true_iff. left. apply N.ltb_lt. lia.
  - apply andb_true_iff in H2 as [H2 _]. apply N.eqb_eq in H2. rewrite <- H2, H1. reflexivity.
  - apply andb_true_iff in H1 as [H1 _]. apply N.eqb_eq in H1. rewrite H1, H2. reflexivity.
  - apply andb_true_iff in H1 as [E1 H1]. apply andb_true_iff in H2 as [E2 H2].
    apply N.eqb_eq in E1, E2. rewrite E1, E2, N.eqb_refl, (IH b c H1 H2).
    apply orb_true_r.
Qed.

Lemma insert_sorted_In (x : jsstring) (l : list jsstring) (y : jsstring) :
  In y (insert_sorted x l) <-> y = x \/ In y l.
Proof.
  induction l as [|z l IH]; cbn [insert_sorted].
  - cbn. intuition.
  - destruct (str_leb x z); cbn [In]; [intuition|]. rewrite IH. intuition.
Qed.

Lemma sort_strings_In (xs : list jsstring) (y : jsstring) : In y (sort_strings xs) <-> In y xs.
Proof.
  induction xs as [|x xs IH]; cbn [sort_strings fold_right]; [tauto|].
  fold (sort_strings xs). rewrite insert_sorted_In, IH. cbn. intuition.
Qed.

Lemma insert_sorted_sorted (x : jsstring) (l : list jsstring) :
  StronglySorted str_le l -> StronglySorted str_le (insert_sorted x l).
Proof.
  induction l as [|z l IH]; intros H; cbn [insert_sorted].
  - repeat constructor.
  - inversion H as [|? ? Hl Hz]; subst.
    destruct (str_leb x z) eqn:E.
    + constructor; [exact H|]. constructor; [exact E|].
      rewrite Forall_forall in *. intros y Hy. apply (str_leb_trans x z y E). now apply Hz.
    + constructor; [now apply IH|].
      rewrite Forall_forall in *. intros y Hy. apply insert_sorted_In in Hy as [->|Hy].
      * now apply str_leb_total.
      * now apply Hz.
Qed.

Lemma sort_strings_sorted (xs : list jsstring) : StronglySorted str_le (sort_strings xs).
Proof.
  induction xs as [|x xs IH]; cbn [sort_strings fold_right]; [constructor|].
  now apply insert_sorted_sorted.
Qed.

Lemma insert_sorted_NoDup (x : jsstring) (l : list jsstring) :
  ~ In x l -> NoDup l -> NoDup (insert_sorted x l).
Proof.
  induction l as [|z l IH]; intros Hx H; cbn [insert_sorted].
  - repeat constructor. intros [].
  - destruct (str_leb x z); [now constructor|].
    inversion H as [|? ? Hz Hl]; subst. constructor.
    + rewrite insert_sorted_In. intros [->|Hin]; [apply Hx; now left | contradiction].
    + apply IH; [|exact Hl]. intros Hin. apply Hx. now right.
Qed.

Lemma sort_strings_NoDup (xs : list jsstring) : NoDup xs -> NoDup (sort_strings xs).
Proof.
  induction xs as [|x xs IH]; intros H; cbn [sort_strings fold_right]; [constructor|].
  inversion H; subst. apply insert_sorted_NoDup; [|now apply IH].
  fold (sort_strings xs). now rewrite sort_strings_In.
Qed.

(** *** [new Set] *)

Lemma seen_spec (k : jsstring) (seen : list jsstring) :
  existsb (fun x => if list_eq_dec ascii_dec k x then true else false) seen = true <-> In k seen.
Proof.
  rewrite existsb_exists. split.
  - intros (x & Hin & Hx). destruct (list_eq_dec ascii_dec k x); [now subst | discriminate].
  - intros H. exists k. split; [exact H|]. now destruct (list_eq_dec ascii_dec k k).
Qed.

Lemma dedupe_from_In (ks : list jsstring) :
  forall seen k, In k (dedupe_from seen ks) <-> In k ks /\ ~ In k seen.
Proof.
  induction ks as [|k0 ks IH]; intros seen k; cbn [dedupe_from].
  - cbn. tauto.
  - destruct (existsb (fun x => if list_eq_dec ascii_dec k0 x then true else false) seen) eqn:E.
    + apply seen_spec in E. rewrite IH. cbn. split; [tauto|].
      intros [[<-|H] N]; [contradiction | tauto].
    + assert (N0 : ~ In k0 seen) by (intros H; apply seen_spec in H; congruence).
      cbn [In]. rewrite IH. cbn [In]. split.
      * intros [<-|[H N]]; [tauto|]. split; [tauto|]. intros H'. apply N. now right.
      * intros [[<-|H] N]; [tauto|].
        destruct (list_eq_dec ascii_dec k0 k) as [->|D]; [tauto|]. right. split; [exact H|].
        intros [E'|H']; [congruence | contradiction].
Qed.

Lemma dedupe_from_NoDup (ks : list jsstring) : forall seen, NoDup (dedupe_from seen ks).
Proof.
  induction ks as [|k0 ks IH]; intros seen; cbn [dedupe_from]; [constructor|].
  destruct (existsb (fun x => if list_eq_dec ascii_dec k0 x then true else false) seen);
    [apply IH|]. constructor; [|apply IH].
  rewrite dedupe_from_In. intros [_ N]. apply N. now left.
Qed.

Lemma dedupe_In (ks : list jsstring) (k : jsstring) : In k (dedupe ks) <-> In k ks.
Proof. unfold dedupe. rewrite dedupe_from_In. cbn. tauto. Qed.

Lemma dedupe_NoDup (ks : list jsstring) : NoDup (dedupe ks).
Proof. apply dedupe_from_NoDup. Qed.

Lemma clean_zips_In (codes : list (option jsstring)) (z : jsstring) :
  In z (clean_zips codes) <-> exists c, In c codes /\ zip5 c = Some z.
Proof.
  unfold clean_zips. rewrite in_flat_map. split.
  - intros (c & Hin & Hz). exists c. split; [exact Hin|].
    destruct (zip5 c) as [z'|]; [|destruct Hz]. destruct Hz as [->|[]]. reflexivity.
  - intros (c & Hin & Hz). exists c. split; [exact Hin|]. rewrite Hz. now left.
Qed.

(** X13. The ZIP table the page starts from lists every five-digit ZIP
    that the codes of the ZIP layer clean to, once, in ascending order,
    and the count of a ZIP is the sum of the parcel counts of all the
    rows whose [situs_zip] cleans to it (ZIP+4 rows included), zero when
    there is none. *)
Theorem bootstrap_zips_counts (codes : list (option jsstring)) (features : list group) :
  let rows := bootstrap_zips codes features in
  (forall z, In z (map zip rows) <-> exists c, In c codes /\ zip5 c = Some z) /\
  NoDup (map zip rows) /\
  StronglySorted str_le (map zip rows) /\
  (forall r, In r rows -> zcount r = sum_where (has_zip (zip r)) features).
Proof.
  cbv zeta. unfold bootstrap_zips, zip_rows. rewrite map_map. cbn [zip]. rewrite map_id.
  split; [|split; [|split]].
  - intros z. unfold zip_list. now rewrite sort_strings_In, dedupe_In, clean_zips_In.
  - apply sort_strings_NoDup, dedupe_NoDup.
  - apply sort_strings_sorted.
  - intros r Hr. apply in_map_iff in Hr as (z & <- & _). cbn [zip zcount].
    unfold zip_stats. rewrite zip_stats_from_get. reflexivity.
Qed.

(** *** The Top ZIPs table *)

Lemma agg_get_set (agg : zagg) (z : jsstring) (v : nat * nat) (z' : jsstring) :
  agg_get (assoc_set z v agg) z' = if list_eq_dec ascii_dec z' z then v else agg_get agg z'.
Proof. unfold agg_get. rewrite assoc_get_set. now destruct (list_eq_dec ascii_dec z' z). Qed.

Lemma agg_parcels_get (rawZ : list group) :
  forall agg z,
    agg_get (agg_parcels agg rawZ) z
    = (fst (agg_get agg z) + sum_where (has_zip z) rawZ, snd (agg_get agg z)).
Proof.
  induction rawZ as [|r rest IH]; intros agg z; cbn [agg_parcels].
  - unfold sum_where. cbn. rewrite Nat.add_0_r. now destruct (agg_get agg z).
  - rewrite sum_where_cons. unfold has_zip at 1.
    destruct (zip5 (g_key r)) as [z'|]; rewrite IH; [|reflexivity].
    rewrite agg_get_set. destruct (list_eq_dec ascii_dec z z') as [->|N]; cbn [fst snd].
    + f_equal. lia.
    + reflexivity.
Qed.

Lemma agg_total_get (rawZSum : list group) :
  forall agg z,
    agg_get (agg_total agg rawZSum) z
    = (fst (agg_get agg z), snd (agg_get agg z) + sum_where (has_zip z) rawZSum).
Proof.
  induction rawZSum as [|r rest IH]; intros agg z; cbn [agg_total].
  - unfold sum_where. cbn. rewrite Nat.add_0_r. now destruct (agg_get agg z).
  - rewrite sum_where_cons. unfold has_zip at 1.
    destruct (zip5 (g_key r)) as [z'|]; rewrite IH; [|reflexivity].
    rewrite agg_get_set. destruct (list_eq_dec ascii_dec z z') as [->|N]; cbn [fst snd].
    + f_equal. lia.
    + reflexivity.
Qed.

Lemma agg_parcels_keys (rawZ : list group) :
  forall agg z, In z (map fst (agg_parcels agg rawZ))
                <-> In z (map fst agg) \/ exists r, In r rawZ /\ zip5 (g_key r) = Some z.
Proof.
  induction rawZ as [|f fs IH]; intros m z; cbn [agg_parcels].
  - split; [now left | intros [H|(f & [] & _)]; exact H].
  - destruct (zip5 (g_key f)) as [z'|] eqn:E; rewrite IH.
    + rewrite keys_set_In. split.
      * intros [[->|H]|(f' & Hin & Hz)]; [right; exists f; split; [now left|exact E] | now left |].
        right. exists f'. split; [now right | exact Hz].
      * intros [H|(f' & [<-|Hin] & Hz)]; [left; now right | left; left; congruence |].
        right. now exists f'.
    + split.
      * intros [H|(f' & Hin & Hz)]; [now left|]. right. exists f'. split; [now right | exact Hz].
      * intros [H|(f' & [<-|Hin] & Hz)]; [now left | congruence |]. right. now exists f'.
Qed.

Lemma agg_total_keys (rawZSum : list group) :
  forall agg z, In z (map fst (agg_total agg rawZSum))
                <-> In z (map fst agg) \/ exists r, In r rawZSum /\ zip5 (g_key r) = Some z.
Proof.
  induction rawZSum as [|f fs IH]; intros m z; cbn [agg_total].
  - split; [now left | intros [H|(f & [] & _)]; exact H].
  - destruct (zip5 (g_key f)) as [z'|] eqn:E; rewrite IH.
    + rewrite keys_set_In. split.
      * intros [[->|H]|(f' & Hin & Hz)]; [right; exists f; split; [now left|exact E] | now left |].
        right. exists f'. split; [now right | exact Hz].
      * intros [H|(f' & [<-|Hin] & Hz)]; [left; now right | left; left; congruence |].
        right. now exists f'.
    + split.
      * intros [H|(f' & Hin & Hz)]; [now left|]. right. exists f'. split; [now right | exact Hz].
      * intros [H|(f' & [<-|Hin] & Hz)]; [now left | congruence |]. right. now exists f'.
Qed.

Lemma agg_parcels_NoDup (rawZ : list group) :
  forall agg, NoDup (map fst agg) -> NoDup (map fst (agg_parcels agg rawZ)).
Proof.
  induction rawZ as [|f fs IH]; intros m H; cbn [agg_parcels]; [exact H|].
  destruct (zip5 (g_key f)); apply IH; [|exact H]. now apply keys_set_NoDup.
Qed.

Lemma agg_total_NoDup (rawZSum : list group) :
  forall agg, NoDup (map fst agg) -> NoDup (map fst (agg_total agg rawZSum)).
Proof.
  induction rawZSum as [|f fs IH]; intros m H; cbn [agg_total]; [exact H|].
  destruct (zip5 (g_key f)); apply IH; [|exact H]. now apply keys_set_NoDup.
Qed.

Lemma assoc_get_entry {V : Type} (m : list (jsstring * V)) (k : jsstring) (v : V) :
  NoDup (map fst m) -> In (k, v) m -> assoc_get m k = Some v.
Proof.
  induction m as [|[k0 v0] m IH]; intros H Hin; [destruct Hin|].
  cbn [map fst] in H. inversion H as [|? ? Hk Hm]; subst. cbn [assoc_get].
  destruct Hin as [E|Hin].
  - injection E as -> ->. now destruct (list_eq_dec ascii_dec k k).
  - destruct (list_eq_dec ascii_dec k k0) as [->|N]; [|now apply IH].
    exfalso. apply Hk. apply in_map_iff. now exists (k0, v).
Qed.

(** X14. The Top ZIPs table has one entry for each five-digit ZIP that a
    row of either answer cleans to; its [parcels] is the sum of the
    counts of the rows of the first answer with that ZIP and its [total]
    the sum of the values of the rows of the second, rows with nine-digit
    ZIPs merged into their five-digit ZIP and rows without five digits
    left out. *)
Theorem zip_leaders_sums (rawZ rawZSum : list group) :
  let arr := zip_leaders rawZ rawZSum in
  NoDup (map zl_zip arr) /\
  (forall z, In z (map zl_zip arr)
             <-> exists r, In r (rawZ ++ rawZSum) /\ zip5 (g_key r) = Some z) /\
  (forall e, In e arr ->
             List.length (zl_zip e) = 5 /\
             zl_parcels e = sum_where (has_zip (zl_zip e)) rawZ /\
             zl_total e = sum_where (has_zip (zl_zip e)) rawZSum).
Proof.
  cbv zeta. unfold zip_leaders.
  set (agg := agg_total (agg_parcels [] rawZ) rawZSum).
  assert (Hnd : NoDup (map fst agg))
    by (apply agg_total_NoDup, agg_parcels_NoDup; constructor).
  assert (Hkeys : forall z, In z (map fst agg)
                            <-> exists r, In r (rawZ ++ rawZSum) /\ zip5 (g_key r) = Some z).
  { intros z. unfold agg. rewrite agg_total_keys, agg_parcels_keys. cbn [map In]. split.
    - intros [[[]|(r & Hin & Hz)]|(r & Hin & Hz)]; exists r; rewrite in_app_iff; auto.
    - intros (r & Hin & Hz). apply in_app_iff in Hin as [Hin|Hin]; [left; right | right]; eauto. }
  rewrite map_map. cbn [zl_zip].
  split; [exact Hnd|]. split; [exact Hkeys|].
  intros e He. apply in_map_iff in He as ([z [p t]] & <- & Hin). cbn [zl_zip zl_parcels zl_total fst snd].
  pose proof (assoc_get_entry agg z _ Hnd Hin) as Hg.
  assert (Hget : agg_get agg z = (p, t)).
  { unfold agg_get. now rewrite Hg. }
  clear Hg.
  unfold agg in Hget. rewrite agg_total_get, agg_parcels_get in Hget. cbn in Hget.
  assert (Hz : In z (map fst agg)) by (apply in_map_iff; now exists (z, (p, t))).
  injection Hget as <- <-.
  split; [|split; reflexivity].
  apply Hkeys in Hz as (r & _ & Hz).
  destruct (ZipProps.zip5_some _ _ Hz) as [Hlen _]. exact Hlen.
Qed.

(** *** The owner leaderboard *)

Lemma has_owner_key_true (k : jsstring) (t : group) :
  has_owner_key k t = true <-> owner_key (g_key t) = k.
Proof.
  unfold has_owner_key. destruct (list_eq_dec ascii_dec k (owner_key (g_key t))) as [->|N].
  - tauto.
  - split; [discriminate | congruence].
Qed.

Lemma tally_from_get (rows : list group) :
  forall m k, get_or_zero (tally_from m rows) k
              = get_or_zero m k + sum_where (has_owner_key k) rows.
Proof.
  induction rows as [|t rows IH]; intros m k; cbn [tally_from].
  - unfold sum_where. cbn. lia.
  - rewrite IH, get_or_zero_add, sum_where_cons. unfold has_owner_key at 2.
    destruct (list_eq_dec ascii_dec k (owner_key (g_key t))); lia.
Qed.

Lemma tally_from_keys (rows : list group) :
  forall m k, In k (map fst (tally_from m rows))
              <-> In k (map fst m) \/ exists t, In t rows /\ owner_key (g_key t) = k.
Proof.
  induction rows as [|t rows IH]; intros m k; cbn [tally_from].
  - split; [now left | intros [H|(t & [] & _)]; exact H].
  - rewrite IH. unfold map_add. rewrite keys_set_In. split.
    + intros [[->|H]|(t' & Hin & Hk)]; [right; exists t; split; [now left | reflexivity] | now left |].
      right. exists t'. split; [now right | exact Hk].
    + intros [H|(t' & [<-|Hin] & Hk)]; [left; now right | left; now left |].
      right. now exists t'.
Qed.

Lemma tally_from_NoDup (rows : list group) :
  forall m, NoDup (map fst m) -> NoDup (map fst (tally_from m rows)).
Proof.
  induction rows as [|t rows IH]; intros m H; cbn [tally_from]; [exact H|].
  apply IH. now apply keys_set_NoDup.
Qed.

Lemma find_app_first {T : Type} (p : T -> bool) (a b : list T) :
  find p (a ++ b) = match find p a with Some x => Some x | None => find p b end.
Proof.
  induction a as [|x a IH]; cbn [app find]; [reflexivity|]. now destruct (p x).
Qed.

Lemma display_put_get (m : smap) (k name k' : jsstring) :
  assoc_get (display_put m k name) k'
  = match assoc_get m k' with
    | Some n => Some n
    | None => if list_eq_dec ascii_dec k' k then Some name else None
    end.
Proof.
  unfold display_put. destruct (assoc_get m k) as [n|] eqn:E.
  - destruct (assoc_get m k') as [n'|] eqn:E'; [reflexivity|].
    destruct (list_eq_dec ascii_dec k' k) as [->|N]; [congruence | reflexivity].
  - rewrite assoc_get_set.
    destruct (list_eq_dec ascii_dec k' k) as [->|N]; [now rewrite E|].
    now destruct (assoc_get m k').
Qed.

Lemma display_from_get (rows : list group) :
  forall m k,
    assoc_get (display_from m rows) k
    = match assoc_get m k with
      | Some n => Some n
      | None => option_map (fun t => owner_name (g_key t)) (find (has_owner_key k) rows)
      end.
Proof.
  induction rows as [|t rows IH]; intros m k; cbn [display_from find].
  - now destruct (assoc_get m k).
  - rewrite IH, display_put_get. destruct (assoc_get m k) as [n|]; [reflexivity|].
    unfold has_owner_key at 2.
    now destruct (list_eq_dec ascii_dec k (owner_key (g_key t))).
Qed.

Lemma display_name_shown (tc tv : list group) (k : jsstring) :
  display_name (display_from (display_from [] tc) tv) k = shown_name k (tc ++ tv).
Proof.
  unfold display_name, shown_name. rewrite !display_from_get, find_app_first. cbn [assoc_get].
  destruct (find (has_owner_key k) tc) as [t|]; cbn [option_map]; [reflexivity|].
  now destruct (find (has_owner_key k) tv).
Qed.

Lemma merge_keys (tc tv : list group) :
  map owner_key_of (merge_leaderboards tc tv)
  = dedupe (map fst (tally tc) ++ map fst (tally tv)).
Proof. unfold merge_leaderboards. rewrite map_map. cbn [owner_key_of]. apply map_id. Qed.

Lemma merge_keys_In (tc tv : list group) (k : jsstring) :
  In k (map owner_key_of (merge_leaderboards tc tv))
  <-> exists t, In t (tc ++ tv) /\ owner_key (g_key t) = k.
Proof.
  rewrite merge_keys, dedupe_In, in_app_iff. unfold tally. rewrite !tally_from_keys.
  cbn [map In]. split.
  - intros [[[]|(t & Hin & Hk)]|[[]|(t & Hin & Hk)]]; exists t; rewrite in_app_iff; auto.
  - intros (t & Hin & Hk). apply in_app_iff in Hin as [Hin|Hin]; [left | right]; right; eauto.
Qed.

(** X15. The merged owner leaderboard has one entry for each owner key
    that a row of either answer is grouped under; the entry's parcels
    are the counts of the rows of the first answer under that key added
    up, its total the values of the rows of the second (zero when an
    answer has no row under the key), and the owner shown is the name of
    the first row under the key, the rows of the first answer coming
    first. *)
Theorem merge_leaderboards_sums (topCount topValue : list group) :
  let merged := merge_leaderboards topCount topValue in
  NoDup (map owner_key_of merged) /\
  (forall k, In k (map owner_key_of merged)
             <-> exists t, In t (topCount ++ topValue) /\ owner_key (g_key t) = k) /\
  (forall m, In m merged ->
             parcels m = sum_where (has_owner_key (owner_key_of m)) topCount /\
             total m = sum_where (has_owner_key (owner_key_of m)) topValue /\
             owner m = shown_name (owner_key_of m) (topCount ++ topValue)).
Proof.
  cbv zeta. split; [|split].
  - rewrite merge_keys. apply dedupe_NoDup.
  - apply merge_keys_In.
  - intros m Hm. unfold merge_leaderboards in Hm. apply in_map_iff in Hm as (k & <- & _).
    cbn [parcels total owner owner_key_of]. unfold tally. rewrite !tally_from_get.
    split; [reflexivity|]. split; [reflexivity|]. apply display_name_shown.
Qed.

Lemma sum_map_add {T : Type} (f g : T -> nat) (ks : list T) :
  sum (map (fun k => f k + g k) ks) = sum (map f ks) + sum (map g ks).
Proof. unfold sum. induction ks as [|k ks IH]; cbn; [reflexivity | rewrite IH; lia]. Qed.

Lemma sum_map_zero {T : Type} (f : T -> nat) (ks : list T) :
  (forall k, In k ks -> f k = 0) -> sum (map f ks) = 0.
Proof.
  unfold sum. induction ks as [|k ks IH]; intros H; cbn; [reflexivity|].
  rewrite (H k) by now left. apply IH. intros k' Hk'. apply H. now right.
Qed.

Lemma sum_indicator (ks : list jsstring) (k0 : jsstring) (v : nat) :
  NoDup ks -> In k0 ks ->
  sum (map (fun k => if list_eq_dec ascii_dec k k0 then v else 0) ks) = v.
Proof.
  induction ks as [|k ks IH]; intros Hnd Hin; [destruct Hin|].
  inversion Hnd as [|? ? Hk Hks]; subst.
  change (sum (map ?f (k :: ks))) with (f k + sum (map f ks)). cbv beta.
  destruct (list_eq_dec ascii_dec k k0) as [->|N].
  - rewrite sum_map_zero; [lia|]. intros k Hk'.
    destruct (list_eq_dec ascii_dec k k0) as [->|]; [contradiction | reflexivity].
  - destruct Hin as [E|Hin]; [congruence|]. now rewrite IH.
Qed.

(** Rows grouped by key: when every row's key is among the distinct
    keys [ks], the sums per key add up to the sum of all the rows. *)
Lemma sum_by_key (ks : list jsstring) (rows : list group) :
  NoDup ks ->
  (forall t, In t rows -> In (owner_key (g_key t)) ks) ->
  sum (map (fun k => sum_where (has_owner_key k) rows) ks) = sum (map g_value rows).
Proof.
  intros Hnd. induction rows as [|t rows IH]; intros Hin.
  - apply sum_map_zero. reflexivity.
  - rewrite (map_ext _ (fun k => (if list_eq_dec ascii_dec k (owner_key (g_key t))
                                  then g_value t else 0)
                                 + sum_where (has_owner_key k) rows)).
    2:{ intros k. rewrite sum_where_cons. unfold has_owner_key at 1.
        now destruct (list_eq_dec ascii_dec k (owner_key (g_key t))). }
    rewrite (sum_map_add (fun k => if list_eq_dec ascii_dec k (owner_key (g_key t))
                                   then g_value t else 0)
                         (fun k => sum_where (has_owner_key k) rows)).
    specialize (IH (fun t' Ht' => Hin t' (or_intror Ht'))).
    change (sum (map g_value (t :: rows))) with (g_value t + sum (map g_value rows)).
    rewrite sum_indicator; [|exact Hnd | apply Hin; now left].
    f_equal. exact IH.
Qed.

(** X16. Merging loses nothing: the parcels of the entries of the merged
    leaderboard add up to the counts of all the rows of the first
    answer, and their totals to the values of all the rows of the
    second. *)
Theorem merge_leaderboards_conserves (topCount topValue : list group) :
  let merged := merge_leaderboards topCount topValue in
  sum (map parcels merged) = sum (map g_value topCount) /\
  sum (map total merged) = sum (map g_value topValue).
Proof.
  cbv zeta.
  assert (Hnd : NoDup (dedupe (map fst (tally topCount) ++ map fst (tally topValue))))
    by apply dedupe_NoDup.
  assert (Hall : forall t, In t (topCount ++ topValue) ->
                           In (owner_key (g_key t))
                              (dedupe (map fst (tally topCount) ++ map fst (tally topValue)))).
  { intros t Ht. rewrite <- merge_keys. apply merge_keys_In. now exists t. }
  unfold merge_leaderboards. rewrite !map_map. cbn [parcels total]. unfold tally.
  split.
  - rewrite (map_ext _ (fun k => sum_where (has_owner_key k) topCount))
      by (intros k; now rewrite tally_from_get).
    apply sum_by_key; [exact Hnd|]. intros t Ht. apply Hall, in_or_app. now left.
  - rewrite (map_ext _ (fun k => sum_where (has_owner_key k) topValue))
      by (intros k; now rewrite tally_from_get).
    apply sum_by_key; [exact Hnd|]. intros t Ht. apply Hall, in_or_app. now right.
Qed.

End DataLabProps.

(** ** The waits of fetchJSONWithRetry *)

Module RetryScheduleProps.
Import Str Api RetryProps.

Section Loop.

Context {J : Type}.
Variable embedded_error : J -> option jsstring.
Variable net : network J.
Variable retries : nat.
Variable baseDelayMs : Q.

Local Abbreviation request := (request J embedded_error net).
Local Abbreviation retry_loop := (retry_loop J embedded_error net retries baseDelayMs).
Local Abbreviation next_delay attempt := (delay_ms J net baseDelayMs attempt).

(** The loop counter is the number of waits so far, and the wait after
    the failure of request [i] is the delay computed for attempt [i]. *)
Lemma retry_loop_schedule :
  forall fuel attempt ws r,
    attempt <= retries ->
    retry_loop fuel attempt attempt ws = Some r ->
    exists n,
      attempt + n <= retries /\
      delays J r = ws ++ map (fun i => next_delay i) (seq attempt n) /\
      (attempts J r = S (attempt + n) \/
       (attempts J r = attempt + n /\ 0 < n /\ outcome J r = Throw AbortError /\
        aborted_in_wait J net (attempt + n - 1) = true)).
Proof.
  induction fuel as [|fuel IH]; intros attempt ws r Hle Hrun; [discriminate|].
  cbn [Api.retry_loop] in Hrun.
  destruct (request attempt) as [json|e].
  - injection Hrun as <-. exists 0. cbn. rewrite app_nil_r, Nat.add_0_r.
    split; [lia|]. split; [reflexivity|]. now left.
  - destruct (negb (test_transient (error_text e)) || (retries <=? attempt)
              || aborted_after J net attempt) eqn:Hc.
    + injection Hrun as <-. exists 0. cbn. rewrite app_nil_r, Nat.add_0_r.
      split; [lia|]. split; [reflexivity|]. now left.
    + apply orb_false_iff in Hc as [Hc _]. apply orb_false_iff in Hc as [_ Hc].
      apply Nat.leb_gt in Hc.
      destruct (aborted_in_wait J net attempt) eqn:Hw.
      * injection Hrun as <-. exists 1. cbn [delays attempts outcome seq map].
        split; [lia|]. split; [reflexivity|]. right.
        replace (attempt + 1 - 1) with attempt by lia.
        repeat split; try assumption; lia.
      * apply IH in Hrun as (n & Hn & Hd & Ha); [|lia].
        exists (S n). split; [lia|]. split.
        -- rewrite Hd, <- app_assoc. reflexivity.
        -- replace (attempt + S n) with (S attempt + n) by lia.
           destruct Ha as [Ha|(Ha & Hpos & Ho & Hab)]; [now left|].
           right. repeat split; try assumption; lia.
Qed.

End Loop.

(** X18. The waits of [fetchJSONWithRetry].  Every call ends, and in
    its run there is one wait between two consecutive requests and none
    after the last one, unless the call is cancelled in a wait, which is
    then the last thing it does and ends it with an [AbortError]; there
    are at most [retries] waits; and the wait after the failure of
    request [i] lasts the delay computed for attempt [i]. *)
Theorem fetchJSONWithRetry_backoff_schedule
        (J : Type) (emb : J -> option jsstring) (net : network J) (retries : nat)
        (baseDelayMs : Q) :
  exists r n,
    fetchJSONWithRetry J emb net retries baseDelayMs = Some r /\
    n <= retries /\
    delays J r = map (delay_ms J net baseDelayMs) (seq 0 n) /\
    (attempts J r = S n \/
     (attempts J r = n /\ 0 < n /\ outcome J r = Throw AbortError /\
      aborted_in_wait J net (n - 1) = true)).
Proof.
  destruct (retry_loop_total emb net retries baseDelayMs (S retries) 0 0 [])
    as (r & Hrun & _); [lia|].
  exists r. unfold fetchJSONWithRetry. rewrite Hrun.
  apply retry_loop_schedule in Hrun as (n & Hn & Hd & Ha); [|lia].
  cbn [app Nat.add] in *. exists n. split; [reflexivity|]. split; [exact Hn|].
  split; [exact Hd|]. exact Ha.
Qed.

(** X19. When the signal is aborted while request [k] is in flight, the
    call issues no request after that one and waits no more; if it comes
    to request [k] it ends with the failure of that request's [fetch],
    which is not retried. *)
Theorem fetchJSONWithRetry_cancelled_in_request
        (J : Type) (emb : J -> option jsstring) (net : network J) (retries : nat)
        (baseDelayMs : Q) (k : nat) (r : run J) :
  abort J net = Some (DuringRequest k) ->
  fetchJSONWithRetry J emb net retries baseDelayMs = Some r ->
  attempts J r <= S k /\
  (attempts J r = S k -> outcome J r = Throw fetch_aborted) /\
  List.length (delays J r) < attempts J r.
Proof.
  intros Hab Hrun. unfold fetchJSONWithRetry in Hrun.
  assert (G : forall fuel attempt ws r,
             attempt <= k ->
             retry_loop J emb net retries baseDelayMs fuel attempt attempt ws = Some r ->
             attempts J r <= S k /\
             (attempts J r = S k -> outcome J r = Throw fetch_aborted) /\
             List.length (delays J r) + attempt < attempts J r + List.length ws).
  { clear r Hrun. induction fuel as [|fuel IH]; intros attempt ws r Hle Hr; [discriminate|].
    cbn [Api.retry_loop] in Hr. unfold request in Hr. rewrite Hab in Hr.
    destruct (k <=? attempt) eqn:Ek.
    - apply Nat.leb_le in Ek. assert (attempt = k) by lia. subst attempt.
      change (test_transient (error_text fetch_aborted)) with false in Hr.
      cbn [negb orb] in Hr. injection Hr as <-. cbn. repeat split; lia.
    - apply Nat.leb_gt in Ek.
      destruct (fetchJSON J emb (reply_of J net attempt)) as [json|e].
      + injection Hr as <-. cbn. repeat split; lia.
      + destruct (negb (test_transient (error_text e)) || (retries <=? attempt)
                  || aborted_after J net attempt).
        * injection Hr as <-. cbn. repeat split; lia.
        * unfold aborted_in_wait in Hr. rewrite Hab in Hr.
          apply IH in Hr as (H1 & H2 & H3); [|lia].
          rewrite length_app in H3. cbn in H3. repeat split; try assumption; lia. }
  destruct (G _ _ _ _ (Nat.le_0_l k) Hrun) as (H1 & H2 & H3).
  cbn in H3. repeat split; try assumption; lia.
Qed.

Lemma fetchJSONWithRetry_cancelled_in_request_witness :
  let r := mkRun nat (Throw fetch_aborted) 2 [550%Z] in
  fetchJSONWithRetry nat (fun _ => None) cancelled_request_network 4 (550 # 1) = Some r /\
  attempts nat r <= 2 /\
  (attempts nat r = 2 -> outcome nat r = Throw fetch_aborted) /\
  List.length (delays nat r) < attempts nat r.
Proof.
  cbv zeta. split; [vm_compute; reflexivity|].
  apply (fetchJSONWithRetry_cancelled_in_request
           nat (fun _ => None) cancelled_request_network 4 (550 # 1)%Q 1
           (mkRun nat (Throw fetch_aborted) 2 [550%Z]) eq_refl eq_refl).
Defined.

End RetryScheduleProps.

(** ** Invariants of the export job *)

Module JobProps.
Import Str Utils Api ExportCenter ExportProps.

(** *** Relations kept by every piece of a job *)

Section Keeps.

Context {Attrs : Type}.
Variable T : world Attrs -> world Attrs -> Prop.
Hypothesis T_refl : forall w, T w w.
Hypothesis T_trans : forall a b c, T a b -> T b c -> T a c.

Lemma keeps_ret {A} (a : A) : keeps T (@ret Attrs A a).
Proof. intros w. apply T_refl. Qed.

Lemma keeps_throw {A} (e : js_error) : keeps T (@throw Attrs A e).
Proof. intros w. apply T_refl. Qed.

Lemma keeps_out_of_fuel {A} : keeps T (@out_of_fuel Attrs A).
Proof. intros w. apply T_refl. Qed.

Lemma keeps_bind {A B} (m : M Attrs A) (k : A -> M Attrs B) :
  keeps T m -> (forall a, keeps T (k a)) -> keeps T (bind m k).
Proof.
  intros Hm Hk w. specialize (Hm w). unfold bind.
  destruct (m w) as [[a|e|] w1]; cbn [snd] in *; try exact Hm.
  eapply T_trans; [exact Hm | apply Hk].
Qed.

Lemma keeps_try_catch {A} (m : M Attrs A) (h : js_error -> M Attrs A) :
  keeps T m -> (forall e, keeps T (h e)) -> keeps T (try_catch m h).
Proof.
  intros Hm Hh w. specialize (Hm w). unfold try_catch.
  destruct (m w) as [[a|e|] w1]; cbn [snd] in *; try exact Hm.
  eapply T_trans; [exact Hm | apply Hh].
Qed.

Lemma keeps_try_finally {A} (m : M Attrs A) (f : world Attrs -> world Attrs) :
  keeps T m -> (forall w, T w (f w)) -> keeps T (try_finally m f).
Proof.
  intros Hm Hf w. specialize (Hm w). unfold try_finally.
  destruct (m w) as [[a|e|] w1]; cbn [snd] in *; try exact Hm;
    (eapply T_trans; [exact Hm | apply Hf]).
Qed.

Lemma keeps_signal_aborted (srv : service Attrs) : keeps T (signal_aborted srv).
Proof. intros w. apply T_refl. Qed.

Section Walk.

Variable py_owner_name : Attrs -> option jsstring.
Variable situs_zip : Attrs -> option jsstring.
Variable csv_line : list jsstring -> Row Attrs -> jsstring.
Variable srv : service Attrs.
Variable jb : job.

Local Abbreviation page_loop := (page_loop Attrs py_owner_name situs_zip csv_line srv jb).
Local Abbreviation export_zip := (export_zip Attrs py_owner_name situs_zip csv_line srv jb).
Local Abbreviation export_loop := (export_loop Attrs py_owner_name situs_zip csv_line srv jb).
Local Abbreviation enrich := (enrich Attrs py_owner_name situs_zip).

(** What the relation has to allow: the operations of a job, with the
    arguments the job gives them. *)
Variable good : list (Row Attrs) -> Prop.

Hypothesis H_fetch : forall q, keeps T (fetchJSONWithRetry srv q).
Hypothesis H_post : forall b, good b -> keeps T (postNDJSON srv b).
Hypothesis H_sleep : forall ms, keeps T (sleep srv ms).
Hypothesis H_download :
  exportMode jb = perZip -> forall b f, keeps T (@download Attrs b f).
Hypothesis H_log : forall line, keeps T (@update Attrs (appendLog line)).
Hypothesis H_progress :
  forall z d t, t = 0 \/ d <= t ->
                keeps T (@update Attrs (setPerZipProgress (assoc_set z (d, t)))).
Hypothesis H_rows : forall f, keeps T (@update Attrs (setExportTotalRows f)).
Hypothesis H_expected : forall n, keeps T (@update Attrs (setExportTotalExpected n)).
Hypothesis H_good :
  forall feats batches,
    nonempty (webhookUrl jb) = true ->
    chunkArray
      match ownerScope jb with
      | both => map enrich feats
      | _ => filter (fun r => ownerPasses (ownerScope jb) (py_owner_name (attributes r)))
                    (map enrich feats)
      end (webhookBatchSize jb) = Some batches ->
    Forall good batches.

Lemma keeps_post_batches (batches : list (list (Row Attrs))) :
  Forall good batches -> keeps T (post_batches srv batches).
Proof.
  induction batches as [|b rest IH]; intros H; cbn [post_batches].
  - apply keeps_ret.
  - inversion H; subst. apply keeps_bind; [now apply H_post|]. intros _. now apply IH.
Qed.

Lemma keeps_page_loop (fuel : nat) :
  forall z zipTotal offset processed bs,
    keeps T (page_loop fuel z zipTotal offset processed bs).
Proof.
  induction fuel as [|fuel IH]; intros z zipTotal offset processed bs;
    cbn [ExportCenter.page_loop].
  - apply keeps_out_of_fuel.
  - apply keeps_bind; [apply keeps_signal_aborted|].
    intros [|]; [apply keeps_throw|].
    apply keeps_bind; [apply H_fetch|]. intros res.
    destruct (p_features res) as [|f feats] eqn:Ef; [apply keeps_ret|].
    apply keeps_bind.
    { destruct (nonempty (webhookUrl jb)) eqn:Eu; [|apply keeps_ret].
      destruct (chunkArray _ _) as [batches|] eqn:Ec; [|apply keeps_out_of_fuel].
      apply keeps_post_batches. exact (H_good (f :: feats) batches eq_refl Ec). }
    intros _. apply keeps_bind.
    { apply H_progress. destruct (zipTotal =? 0) eqn:E0.
      - left. now apply Nat.eqb_eq.
      - right. apply Nat.le_min_r. }
    intros _. apply keeps_bind; [apply H_rows|].
    intros _. apply keeps_bind.
    { destruct (0 <? throttleMs jb); [apply H_sleep | apply keeps_ret]. }
    intros _. apply IH.
Qed.

Lemma keeps_export_zip (fuel : nat) (z : ZipRow) (single_b : option CSVBuilder) :
  keeps T (export_zip fuel z single_b).
Proof.
  unfold ExportCenter.export_zip.
  apply keeps_bind; [apply keeps_signal_aborted|].
  intros [|]; [apply keeps_throw|].
  apply keeps_bind; [apply H_log|]. intros _.
  apply keeps_bind; [apply H_progress; right; lia|]. intros _.
  apply keeps_bind.
  { apply keeps_try_catch.
    - apply keeps_bind; [apply H_fetch|]. intros res. apply keeps_ret.
    - intros e. apply keeps_ret. }
  intros zipTotal.
  apply keeps_bind; [apply H_progress; right; lia|]. intros _.
  apply keeps_bind; [apply keeps_page_loop|]. intros [bs processed].
  apply keeps_bind.
  { destruct (exportMode jb) eqn:Em; [apply keeps_ret|].
    destruct (perZipBuilder bs); [now apply H_download | apply keeps_ret]. }
  intros _. apply keeps_bind; [apply H_log|]. intros _. apply keeps_ret.
Qed.

Lemma keeps_export_loop (fuel : nat) (zs : list ZipRow) :
  forall single_b, keeps T (export_loop fuel zs single_b).
Proof.
  induction zs as [|z zs IH]; intros single_b; cbn [ExportCenter.export_loop].
  - apply keeps_ret.
  - apply keeps_bind; [apply keeps_export_zip|]. intros b. apply IH.
Qed.

Lemma keeps_precount_loop (zs : list ZipRow) :
  forall totals, keeps T (precount_loop srv zs totals).
Proof.
  induction zs as [|z zs IH]; intros totals; cbn [precount_loop].
  - apply keeps_ret.
  - apply keeps_bind; [apply H_fetch|]. intros res. apply IH.
Qed.

Lemma keeps_precount : keeps T (precount srv jb).
Proof.
  unfold precount. apply keeps_try_catch.
  - apply keeps_bind; [apply keeps_precount_loop|]. intros totals.
    apply keeps_bind; [apply H_expected|]. intros _. apply H_log.
  - intros e. apply H_log.
Qed.

End Walk.
End Keeps.

(** *** The events of a job *)

Section Events.

Context {Attrs : Type}.
Variable py_owner_name : Attrs -> option jsstring.
Variable situs_zip : Attrs -> option jsstring.
Variable csv_line : list jsstring -> Row Attrs -> jsstring.
Variable srv : service Attrs.
Variable jb : job.

Variable ev_ok : event Attrs -> Prop.
Variable good : list (Row Attrs) -> Prop.

Lemma adds_only_refl (w : world Attrs) : adds_only ev_ok w w.
Proof. exists []. now rewrite app_nil_r. Qed.

Lemma adds_only_trans (a b c : world Attrs) :
  adds_only ev_ok a b -> adds_only ev_ok b c -> adds_only ev_ok a c.
Proof.
  intros (n1 & E1 & H1) (n2 & E2 & H2). exists (n1 ++ n2).
  rewrite E2, E1, app_assoc. split; [reflexivity | now apply Forall_app].
Qed.

Lemma adds_only_silent {A} (m : M Attrs A) :
  (forall w, trace (snd (m w)) = trace w) -> keeps (adds_only ev_ok) m.
Proof. intros H w. exists []. now rewrite app_nil_r, H. Qed.

Lemma adds_only_update (f : rstate -> rstate) : keeps (adds_only ev_ok) (@update Attrs f).
Proof. now apply adds_only_silent. Qed.

Lemma adds_only_fetch (q : query) :
  ev_ok (EvQuery q) -> keeps (adds_only ev_ok) (fetchJSONWithRetry srv q).
Proof.
  intros Hq w. exists [EvQuery q]. split; [|now repeat constructor].
  unfold fetchJSONWithRetry, bind, next_query, await. cbn.
  destruct (match cancel_at srv with Some c => c <=? clock w | None => false end);
    [reflexivity|].
  now destruct (query_result srv (n_queries w)).
Qed.

Lemma adds_only_sleep (ms : nat) :
  ev_ok (EvSleep ms) -> keeps (adds_only ev_ok) (sleep srv ms).
Proof.
  intros Hs w. exists [EvSleep ms]. split; [|now repeat constructor].
  unfold sleep, bind, await. cbn.
  now destruct (match cancel_at srv with Some c => c <=? clock w | None => false end).
Qed.

Lemma adds_only_post (b : list (Row Attrs)) :
  (forall a, ev_ok (EvPost b a)) -> keeps (adds_only ev_ok) (postNDJSON srv b).
Proof.
  intros Hb w. unfold postNDJSON, bind, next_post, await. cbn.
  set (a := answer_of srv (n_posts w) _).
  exists [EvPost b a]. split; [|now repeat constructor].
  destruct a as [e|status]; [reflexivity|]. now destruct (negb (ok status)).
Qed.

Lemma adds_only_download (b : CSVBuilder) (f : jsstring) :
  ev_ok (EvDownload f (parts b)) -> keeps (adds_only ev_ok) (@download Attrs b f).
Proof. intros Hd w. exists [EvDownload f (parts b)]. split; [reflexivity | now repeat constructor]. Qed.

Lemma adds_only_on_error (e : js_error) : keeps (adds_only ev_ok) (@on_error Attrs e).
Proof.
  apply adds_only_silent. intros w. unfold on_error.
  now destruct (list_eq_dec ascii_dec (err_name e) (str "AbortError")).
Qed.

Hypothesis ok_query : forall q, ev_ok (EvQuery q).
Hypothesis ok_sleep : forall ms, ev_ok (EvSleep ms).
Hypothesis ok_post : forall b a, good b -> ev_ok (EvPost b a).
Hypothesis ok_download : exportMode jb = perZip -> forall f c, ev_ok (EvDownload f c).
Hypothesis H_good :
  forall feats batches,
    nonempty (webhookUrl jb) = true ->
    chunkArray
      match ownerScope jb with
      | both => map (enrich Attrs py_owner_name situs_zip) feats
      | _ => filter (fun r => ownerPasses (ownerScope jb) (py_owner_name (attributes r)))
                    (map (enrich Attrs py_owner_name situs_zip) feats)
      end (webhookBatchSize jb) = Some batches ->
    Forall good batches.

Lemma adds_only_export_loop (fuel : nat) (zs : list ZipRow) (single_b : option CSVBuilder) :
  keeps (adds_only ev_ok)
        (export_loop Attrs py_owner_name situs_zip csv_line srv jb fuel zs single_b).
Proof.
  apply (keeps_export_loop (adds_only ev_ok) adds_only_refl adds_only_trans
           py_owner_name situs_zip csv_line srv jb good).
  - intros q. now apply adds_only_fetch.
  - intros b Hb. apply adds_only_post. intros a. now apply ok_post.
  - intros ms. now apply adds_only_sleep.
  - intros Hm b f. apply adds_only_download. now apply ok_download.
  - intros line. apply adds_only_update.
  - intros z d t _. apply adds_only_update.
  - intros f. apply adds_only_update.
  - exact H_good.
Qed.

Lemma adds_only_precount : keeps (adds_only ev_ok) (precount srv jb).
Proof.
  apply (keeps_precount (adds_only ev_ok) adds_only_refl adds_only_trans srv jb).
  - intros q. now apply adds_only_fetch.
  - intros line. apply adds_only_update.
  - intros n. apply adds_only_update.
Qed.

End Events.

(** *** Batches *)

Lemma chunkArray_some {T : Type} (arr : list T) (size : nat) (batches : list (list T)) :
  chunkArray arr size = Some batches ->
  List.concat batches = arr /\
  Forall (fun b => b <> [] /\ List.length b <= size) batches.
Proof.
  unfold chunkArray. destruct arr as [|a arr].
  - intros H. injection H as <-. split; [reflexivity | constructor].
  - destruct size as [|size]; [discriminate|]. intros H.
    assert (E : batches = chunk_from (List.length (a :: arr)) (S size) (a :: arr))
      by congruence.
    clear H. subst batches.
    assert (Hs : 0 < S size) by lia. split.
    + now apply CsvProps.chunk_from_concat.
    + now apply (CsvProps.chunk_from_sizes (S size) Hs).
Qed.

Section Posts.

Context {Attrs : Type}.
Variable py_owner_name : Attrs -> option jsstring.
Variable situs_zip : Attrs -> option jsstring.
Variable csv_line : list jsstring -> Row Attrs -> jsstring.
Variable srv : service Attrs.
Variable jb : job.

Local Abbreviation enrich := (enrich Attrs py_owner_name situs_zip).
Local Abbreviation startExport := (startExport Attrs py_owner_name situs_zip csv_line srv jb).
Local Abbreviation export_all := (export_all Attrs py_owner_name situs_zip csv_line srv jb).
Local Abbreviation export_loop := (export_loop Attrs py_owner_name situs_zip csv_line srv jb).

Lemma mapped_rows_exported (feats : list Attrs) (r : Row Attrs) :
  In r match ownerScope jb with
       | both => map enrich feats
       | _ => filter (fun r => ownerPasses (ownerScope jb) (py_owner_name (attributes r)))
                     (map enrich feats)
       end ->
  exported_row py_owner_name situs_zip jb r.
Proof.
  assert (He : forall r, In r (map enrich feats) -> r = enrich (attributes r)).
  { intros r0 Hr. apply in_map_iff in Hr as (a & <- & _). reflexivity. }
  unfold exported_row. destruct (ownerScope jb) as [|t] eqn:Es.
  - intros Hr. split; [now apply He | reflexivity].
  - intros Hr. apply filter_In in Hr as [Hr Hp]. split; [now apply He | exact Hp].
Qed.

Lemma good_batches (feats : list Attrs) (batches : list (list (Row Attrs))) :
  nonempty (webhookUrl jb) = true ->
  chunkArray
    match ownerScope jb with
    | both => map enrich feats
    | _ => filter (fun r => ownerPasses (ownerScope jb) (py_owner_name (attributes r)))
                  (map enrich feats)
    end (webhookBatchSize jb) = Some batches ->
  Forall (good_batch py_owner_name situs_zip jb) batches.
Proof.
  intros Hu Hc. apply chunkArray_some in Hc as [Hcat Hsize].
  rewrite Forall_forall in *. intros b Hb. destruct (Hsize b Hb) as [Hne Hlen].
  repeat split; try assumption.
  apply Forall_forall. intros r Hr. apply (mapped_rows_exported feats).
  rewrite <- Hcat. apply in_concat. now exists b.
Qed.

Lemma adds_only_startExport (ev_ok : event Attrs -> Prop) (fuel : nat) :
  (forall q, ev_ok (EvQuery q)) ->
  (forall ms, ev_ok (EvSleep ms)) ->
  (forall b a, good_batch py_owner_name situs_zip jb b -> ev_ok (EvPost b a)) ->
  (forall f c, ev_ok (EvDownload f c)) ->
  keeps (adds_only ev_ok) (startExport fuel).
Proof.
  intros Hq Hs Hp Hd.
  pose proof (adds_only_refl (Attrs:=Attrs) ev_ok) as Hrefl.
  pose proof (adds_only_trans (Attrs:=Attrs) ev_ok) as Htrans.
  unfold ExportCenter.startExport. destruct (exportZipList jb) as [|z0 zs] eqn:Ez.
  - apply adds_only_update.
  - apply (keeps_bind _ Htrans); [apply adds_only_update|]. intros _.
    apply (keeps_bind _ Htrans).
    { now apply adds_only_precount. }
    intros _. apply (keeps_try_finally _ Htrans).
    + apply (keeps_try_catch _ Htrans); [|intros e; apply adds_only_on_error].
      unfold ExportCenter.export_all.
      apply (keeps_bind _ Htrans).
      { apply (adds_only_export_loop py_owner_name situs_zip csv_line srv jb ev_ok
                 (good_batch py_owner_name situs_zip jb)); try assumption.
        - intros _. exact Hd.
        - exact good_batches. }
      intros b. apply (keeps_bind _ Htrans); [|intros _; apply adds_only_update].
      destruct (exportMode jb); [|now apply keeps_ret].
      destruct b; [now apply adds_only_download | now apply keeps_ret].
    + intros w. exists []. now rewrite app_nil_r.
Qed.

(** X20. Every batch the job posts to the webhook is a batch of a page's
    rows: it is not empty, has at most [webhookBatchSize] rows, and all
    its rows are rows of the parcels layer with the two computed fields
    that pass the owner scope; and nothing is posted when no webhook URL
    is set. *)
Theorem posts_are_scoped_batches (fuel : nat) (w : world Attrs) :
  exists new,
    trace (snd (startExport fuel w)) = trace w ++ new /\
    forall b a, In (EvPost b a) new ->
                b <> [] /\ List.length b <= webhookBatchSize jb /\
                nonempty (webhookUrl jb) = true /\
                forall r, In r b ->
                          r = enrich (attributes r) /\
                          ownerPasses (ownerScope jb) (py_owner_name (attributes r)) = true.
Proof.
  destruct (adds_only_startExport (post_ok py_owner_name situs_zip jb) fuel) with (w := w)
    as (new & Ht & Hall); try (intros; exact I).
  { intros b a Hb. exact Hb. }
  exists new. split; [exact Ht|]. intros b a Hin.
  rewrite Forall_forall in Hall. specialize (Hall _ Hin).
  destruct Hall as (H1 & H2 & H3 & H4). repeat split; try assumption;
    rewrite Forall_forall in H4; now apply H4.
Qed.

End Posts.

(** *** Clock and error *)

Section Steady.

Context {Attrs : Type}.
Variable py_owner_name : Attrs -> option jsstring.
Variable situs_zip : Attrs -> option jsstring.
Variable csv_line : list jsstring -> Row Attrs -> jsstring.
Variable srv : service Attrs.
Variable jb : job.

Lemma steady_refl (w : world Attrs) : steady w w.
Proof. split; [apply le_n | reflexivity]. Qed.

Lemma steady_trans (a b c : world Attrs) : steady a b -> steady b c -> steady a c.
Proof. intros [H1 E1] [H2 E2]. split; [lia | congruence]. Qed.

Lemma steady_fetch (q : query) : keeps steady (fetchJSONWithRetry srv q).
Proof.
  intros w. unfold fetchJSONWithRetry, bind, next_query, await. cbn.
  destruct (match cancel_at srv with Some c => c <=? clock w | None => false end);
    [split; cbn; [lia | reflexivity]|].
  destruct (query_result srv (n_queries w)); split; cbn; (lia || reflexivity).
Qed.

Lemma steady_sleep (ms : nat) : keeps steady (sleep srv ms).
Proof.
  intros w. unfold sleep, bind, await. cbn.
  destruct (match cancel_at srv with Some c => c <=? clock w | None => false end);
    split; cbn; (lia || reflexivity).
Qed.

Lemma steady_post (b : list (Row Attrs)) : keeps steady (postNDJSON srv b).
Proof.
  intros w. unfold postNDJSON, bind, next_post, await. cbn.
  destruct (answer_of srv (n_posts w) _) as [e|status]; [split; cbn; (lia || reflexivity)|].
  destruct (negb (ok status)); split; cbn; (lia || reflexivity).
Qed.

Lemma steady_download (b : CSVBuilder) (f : jsstring) : keeps steady (@download Attrs b f).
Proof. intros w. split; cbn; (lia || reflexivity). Qed.

Lemma steady_update (f : rstate -> rstate) :
  (forall s, exportError (f s) = exportError s) -> keeps steady (@update Attrs f).
Proof. intros H w. split; [apply le_n | apply H]. Qed.

Lemma steady_export_loop (fuel : nat) (zs : list ZipRow) (single_b : option CSVBuilder) :
  keeps steady (export_loop Attrs py_owner_name situs_zip csv_line srv jb fuel zs single_b).
Proof.
  apply (keeps_export_loop steady steady_refl steady_trans
           py_owner_name situs_zip csv_line srv jb (fun _ => True)).
  - apply steady_fetch.
  - intros b _. apply steady_post.
  - apply steady_sleep.
  - intros _ b f. apply steady_download.
  - intros line. now apply steady_update.
  - intros z d t _. now apply steady_update.
  - intros f. now apply steady_update.
  - intros feats batches _ _. apply Forall_forall. trivial.
Qed.

Lemma steady_precount : keeps steady (precount srv jb).
Proof.
  apply (keeps_precount steady steady_refl steady_trans srv jb).
  - apply steady_fetch.
  - intros line. now apply steady_update.
  - intros n. now apply steady_update.
Qed.

Lemma steady_export_all (fuel : nat) (single_b : option CSVBuilder) :
  keeps steady (export_all Attrs py_owner_name situs_zip csv_line srv jb fuel single_b).
Proof.
  unfold export_all. apply (keeps_bind _ steady_trans); [apply steady_export_loop|].
  intros b. apply (keeps_bind _ steady_trans); [|intros _; now apply steady_update].
  destruct (exportMode jb); [|apply (keeps_ret _ steady_refl)].
  destruct b; [apply steady_download | apply (keeps_ret _ steady_refl)].
Qed.

End Steady.

(** *** The page state *)

Lemma appendLog_length (line : log_line) (s : rstate) :
  List.length (exportLog (appendLog line s)) <= 500.
Proof.
  unfold appendLog, setExportLog. cbn [exportLog].
  rewrite length_skipn. lia.
Qed.

Lemma assoc_set_Forall {V : Type} (P : jsstring * V -> Prop) (k : jsstring) (v : V)
      (m : list (jsstring * V)) :
  P (k, v) -> Forall P m -> Forall P (assoc_set k v m).
Proof.
  intros Hk. induction m as [|[k0 v0] m IH]; intros H; cbn [assoc_set].
  - now repeat constructor.
  - inversion H; subst. destruct (list_eq_dec ascii_dec k k0); constructor; auto.
Qed.

Section Panel.

Context {Attrs : Type}.
Variable py_owner_name : Attrs -> option jsstring.
Variable situs_zip : Attrs -> option jsstring.
Variable csv_line : list jsstring -> Row Attrs -> jsstring.
Variable srv : service Attrs.
Variable jb : job.

Local Abbreviation T := (@ui_keeps Attrs panel_ok).

Lemma panel_refl (w : world Attrs) : T w w.
Proof. intros H. exact H. Qed.

Lemma panel_trans (a b c : world Attrs) : T a b -> T b c -> T a c.
Proof. unfold ui_keeps. auto. Qed.

Lemma panel_same_ui {A} (m : M Attrs A) : (forall w, ui (snd (m w)) = ui w) -> keeps T m.
Proof. intros H w Hp. now rewrite H. Qed.

Lemma panel_fetch (q : query) : keeps T (fetchJSONWithRetry srv q).
Proof.
  apply panel_same_ui. intros w. unfold fetchJSONWithRetry, bind, next_query, await. cbn.
  destruct (match cancel_at srv with Some c => c <=? clock w | None => false end);
    [reflexivity|].
  now destruct (query_result srv (n_queries w)).
Qed.

Lemma panel_sleep (ms : nat) : keeps T (sleep srv ms).
Proof.
  apply panel_same_ui. intros w. unfold sleep, bind, await. cbn.
  now destruct (match cancel_at srv with Some c => c <=? clock w | None => false end).
Qed.

Lemma panel_post (b : list (Row Attrs)) : keeps T (postNDJSON srv b).
Proof.
  apply panel_same_ui. intros w. unfold postNDJSON, bind, next_post, await. cbn.
  destruct (answer_of srv (n_posts w) _) as [e|status]; [reflexivity|].
  now destruct (negb (ok status)).
Qed.

Lemma panel_log (line : log_line) : keeps T (@update Attrs (appendLog line)).
Proof.
  intros w [_ Hp]. split; [apply appendLog_length | exact Hp].
Qed.

Lemma panel_progress (z : jsstring) (d t : nat) :
  t = 0 \/ d <= t -> keeps T (@update Attrs (setPerZipProgress (assoc_set z (d, t)))).
Proof.
  intros Hdt w [Hl Hp]. split; [exact Hl|]. cbn. now apply assoc_set_Forall.
Qed.

Lemma panel_on_error (e : js_error) : keeps T (@on_error Attrs e).
Proof.
  unfold on_error. destruct (list_eq_dec ascii_dec (err_name e) (str "AbortError")).
  - apply panel_log.
  - apply (keeps_bind _ panel_trans); [|intros _; apply panel_log].
    intros w H. exact H.
Qed.

(** X21. After a call of [startExport] on a list of ZIPs that is not
    empty, and after any call made from a page state that is in order,
    the log holds at most 500 lines, and no ZIP is shown with more rows
    done than its total, unless its total is zero. *)
Theorem panel_stays_ok (fuel : nat) (w : world Attrs) :
  exportZipList jb <> [] \/ panel_ok (ui w) ->
  panel_ok (ui (snd (startExport Attrs py_owner_name situs_zip csv_line srv jb fuel w))).
Proof.
  intros H.
  assert (Hloop : forall fuel zs sb,
             keeps T (export_loop Attrs py_owner_name situs_zip csv_line srv jb fuel zs sb)).
  { intros fuel' zs sb.
    apply (keeps_export_loop T panel_refl panel_trans
             py_owner_name situs_zip csv_line srv jb (fun _ => True)).
    - apply panel_fetch.
    - intros b _. apply panel_post.
    - apply panel_sleep.
    - intros _ b f. now apply panel_same_ui.
    - apply panel_log.
    - apply panel_progress.
    - intros f w' Hp. exact Hp.
    - intros feats batches _ _. apply Forall_forall. trivial. }
  assert (Hpre : keeps T (precount srv jb)).
  { apply (keeps_precount T panel_refl panel_trans srv jb).
    - apply panel_fetch.
    - apply panel_log.
    - intros n w' Hp. exact Hp. }
  unfold startExport. destruct (exportZipList jb) as [|z0 zs] eqn:Ez.
  - destruct H as [H|H]; [contradiction | exact H].
  - clear H.
    match goal with |- panel_ok (ui (snd (bind ?m ?k w))) =>
      change (bind m k w) with (k tt (on_ui startExport_enter w)) end.
    cbv beta.
    assert (H1 : panel_ok (ui (on_ui startExport_enter w))).
    { split; cbn; [lia | constructor]. }
    revert H1. generalize (on_ui startExport_enter w). intros w1 H1.
    apply (keeps_bind T panel_trans) with (w := w1); [exact Hpre | | exact H1].
    intros _. apply (keeps_try_finally T panel_trans).
    + apply (keeps_try_catch T panel_trans); [|apply panel_on_error].
      unfold export_all. apply (keeps_bind T panel_trans); [apply Hloop|].
      intros b. apply (keeps_bind T panel_trans); [|intros _; apply panel_log].
      destruct (exportMode jb); [|apply (keeps_ret T panel_refl)].
      destruct b; [now apply panel_same_ui | apply (keeps_ret T panel_refl)].
    + intros w' Hp. exact Hp.
Qed.

End Panel.

Lemma panel_stays_ok_witness :
  exportZipList sample_job <> [] /\
  panel_ok (ui (snd (startExport nat sample_owner sample_zip sample_line sample_service
                                 sample_job 10 initial_world))).
Proof.
  assert (H : exportZipList sample_job <> []) by discriminate.
  split; [exact H|].
  exact (panel_stays_ok sample_owner sample_zip sample_line sample_service sample_job
                        10 initial_world (or_introl H)).
Defined.

(** *** The single file *)

Lemma Forall_not_In {T : Type} (P : T -> Prop) (l : list T) (x : T) :
  Forall P l -> ~ P x -> ~ In x l.
Proof. intros H N Hin. rewrite Forall_forall in H. now apply N, H. Qed.

Section Single.

Context {Attrs : Type}.
Variable py_owner_name : Attrs -> option jsstring.
Variable situs_zip : Attrs -> option jsstring.
Variable csv_line : list jsstring -> Row Attrs -> jsstring.
Variable srv : service Attrs.
Variable jb : job.
Hypothesis Hmode : exportMode jb = single.

Local Abbreviation export_loop := (export_loop Attrs py_owner_name situs_zip csv_line srv jb).
Local Abbreviation export_all := (export_all Attrs py_owner_name situs_zip csv_line srv jb).
Local Abbreviation startExport := (startExport Attrs py_owner_name situs_zip csv_line srv jb).

Lemma single_loop_no_download (fuel : nat) (zs : list ZipRow) (sb : option CSVBuilder) :
  keeps (adds_only not_download) (export_loop fuel zs sb).
Proof.
  apply (adds_only_export_loop py_owner_name situs_zip csv_line srv jb not_download
           (fun _ => True)).
  - intros q. exact I.
  - intros ms. exact I.
  - intros b a _. exact I.
  - intros H. rewrite Hmode in H. discriminate.
  - intros feats batches _ _. apply Forall_forall. trivial.
Qed.

Lemma single_precount_no_download : keeps (adds_only not_download) (precount srv jb).
Proof. apply adds_only_precount. intros q. exact I. Qed.

(** What [export_all] does in single mode: the loop, and after a loop
    that ends normally one delivery and the line "Export complete." *)
Lemma single_export_all (fuel : nat) (sb : option CSVBuilder) (w : world Attrs) :
  exists n3,
    Forall not_download n3 /\
    ((trace (snd (export_all fuel sb w)) = trace w ++ n3) \/
     (exists b l,
         trace (snd (export_all fuel sb w))
         = trace w ++ n3 ++ [EvDownload (filePrefix jb ++ str "_" ++ scope_suffix jb
                                          ++ str "_multi_zips.csv") (parts b)] /\
         fst (export_all fuel sb w) = Done tt /\
         exportLog (ui (snd (export_all fuel sb w))) = l ++ [LogComplete])).
Proof.
  destruct (single_loop_no_download fuel (exportZipList jb) sb w) as (n3 & Ht & Hn).
  exists n3. split; [exact Hn|].
  unfold ExportCenter.export_all, bind.
  destruct (export_loop fuel (exportZipList jb) sb w) as [[b|e|] w3]; cbn [snd] in Ht.
  - rewrite Hmode. destruct b as [b|].
    + right. cbn [download update fst snd trace ui on_ui].
      destruct (appendLog_last LogComplete (ui w3)) as (l & Hl).
      exists b, l. rewrite Ht, <- app_assoc. repeat split. exact Hl.
    + left. exact Ht.
  - left. exact Ht.
  - left. exact Ht.
Qed.

(** X22. In single mode the job delivers at most one file, and only
    when the export is complete: the delivery is then the last thing the
    job does to the outside, the file is named after the prefix and the
    owner scope, the call ends normally with no error shown, and the log
    ends with "Export complete.".  A job that fails or is cancelled
    delivers nothing. *)
Theorem single_file_only_when_complete (fuel : nat) (w : world Attrs) :
  let res := startExport fuel w in
  exists new,
    trace (snd res) = trace w ++ new /\
    forall name content,
      In (EvDownload name content) new ->
      (exists pre, new = pre ++ [EvDownload name content] /\ Forall not_download pre) /\
      name = filePrefix jb ++ str "_" ++ scope_suffix jb ++ str "_multi_zips.csv" /\
      fst res = Done tt /\
      exportError (ui (snd res)) = None /\
      exists l, exportLog (ui (snd res)) = l ++ [LogComplete].
Proof.
  cbv zeta.
  assert (Hno : forall n name content,
             Forall not_download n -> ~ In (@EvDownload Attrs name content) n).
  { intros n name content Hn. apply (Forall_not_In _ _ _ Hn). cbn. tauto. }
  destruct (exportZipList jb) as [|z0 zs] eqn:Ez.
  { exists []. unfold ExportCenter.startExport. rewrite Ez. cbn.
    split; [now rewrite app_nil_r | intros name content []]. }
  rewrite (startExport_run py_owner_name situs_zip csv_line srv jb fuel w)
    by (rewrite Ez; discriminate).
  set (w1 := on_ui startExport_enter w).
  destruct (single_precount_no_download w1) as (n2 & Ht2 & Hn2).
  destruct (steady_precount srv jb w1) as [_ He2].
  destruct (precount srv jb w1) as [[[]|e2|] w2]; cbn [fst snd] in *.
  2:{ exists n2. split; [exact Ht2|]. intros name content Hin. now apply Hno in Hin. }
  2:{ exists n2. split; [exact Ht2|]. intros name content Hin. now apply Hno in Hin. }
  unfold try_finally, try_catch.
  set (sb := match exportMode jb with single => _ | perZip => _ end).
  destruct (single_export_all fuel sb w2) as (n3 & Hn3 & Hcase).
  destruct (steady_export_all py_owner_name situs_zip csv_line srv jb fuel sb w2) as [_ He3].
  assert (Hn23 : Forall not_download (n2 ++ n3)) by now apply Forall_app.
  destruct Hcase as [Ht3|(b & l & Ht3 & Hr3 & Hl3)].
  - exists (n2 ++ n3).
    assert (E3 : trace (snd (export_all fuel sb w2)) = trace w ++ n2 ++ n3).
    { rewrite Ht3, Ht2, <- app_assoc. reflexivity. }
    split.
    + destruct (export_all fuel sb w2) as [[[]|e3|] w3]; cbn [fst snd] in *.
      * exact E3.
      * assert (E4 : trace (snd (on_error e3 w3)) = trace w3).
        { unfold on_error. now destruct (list_eq_dec _ _ _). }
        destruct (on_error e3 w3) as [r4 w4]; cbn [snd] in *.
        destruct r4; cbn; now rewrite E4.
      * exact E3.
    + intros name content Hin. now apply Hno in Hin.
  - set (D := EvDownload (filePrefix jb ++ str "_" ++ scope_suffix jb ++ str "_multi_zips.csv")
                         (parts b)) in *.
    exists (n2 ++ n3 ++ [D]).
    destruct (export_all fuel sb w2) as [r3 w3]; cbn [fst snd] in *. subst r3.
    cbn [fst snd trace ui on_ui startExport_finally setAbortRef setExportRunning
         exportError exportLog].
    split.
    + rewrite Ht3, Ht2, <- !app_assoc. reflexivity.
    + intros name content Hin.
      rewrite app_assoc in Hin. apply in_app_or in Hin as [Hin|Hin];
        [now apply Hno in Hin|].
      destruct Hin as [E|[]]. unfold D in E. injection E as <- <-.
      split; [exists (n2 ++ n3); split; [now rewrite app_assoc | exact Hn23]|].
      split; [reflexivity|]. split; [reflexivity|]. split.
      * rewrite He3, He2. reflexivity.
      * exists l. exact Hl3.
Qed.

End Single.

Lemma single_file_only_when_complete_witness :
  exportMode sample_job = single /\
  let res := startExport nat sample_owner sample_zip sample_line willing_service sample_job
                         10 initial_world in
  exists new,
    trace (snd res) = trace initial_world ++ new /\
    forall name content,
      In (EvDownload name content) new ->
      (exists pre, new = pre ++ [EvDownload name content] /\ Forall not_download pre) /\
      name = filePrefix sample_job ++ str "_" ++ scope_suffix sample_job
             ++ str "_multi_zips.csv" /\
      fst res = Done tt /\
      exportError (ui (snd res)) = None /\
      exists l, exportLog (ui (snd res)) = l ++ [LogComplete].
Proof.
  split; [reflexivity|].
  exact (single_file_only_when_complete sample_owner sample_zip sample_line willing_service
                                        sample_job eq_refl 10 initial_world).
Defined.

(** *** The precount always ends *)

Lemma precount_loop_returns {Attrs : Type} (srv : service Attrs) (zs : list ZipRow) :
  forall totals w, fst (precount_loop srv zs totals w) <> OutOfFuel.
Proof.
  induction zs as [|z zs IH]; intros totals w; cbn [precount_loop]; [discriminate|].
  unfold bind at 1.
  destruct (fetchJSONWithRetry srv (CountQuery (zip z)) w) as [[p|e|] w'] eqn:Ef.
  - apply IH.
  - discriminate.
  - exfalso. revert Ef. unfold fetchJSONWithRetry, bind, next_query, await. cbn.
    destruct (match cancel_at srv with Some c => c <=? clock w | None => false end);
      [discriminate|].
    destruct (query_result srv (n_queries w)); discriminate.
Qed.

Lemma precount_done {Attrs : Type} (srv : service Attrs) (jb : job) (w : world Attrs) :
  fst (precount srv jb w) = Done tt.
Proof.
  pose proof (precount_loop_returns srv (exportZipList jb) [] w) as Hr.
  unfold precount, try_catch, bind.
  destruct (precount_loop srv (exportZipList jb) [] w) as [[totals|e|] w'];
    cbn [fst] in *; [reflexivity | reflexivity | contradiction].
Qed.

(** *** Cancellation *)

Section Cancel.

Context {Attrs : Type}.
Variable py_owner_name : Attrs -> option jsstring.
Variable situs_zip : Attrs -> option jsstring.
Variable csv_line : list jsstring -> Row Attrs -> jsstring.
Variable srv : service Attrs.
Variable jb : job.

Local Abbreviation page_loop := (page_loop Attrs py_owner_name situs_zip csv_line srv jb).
Local Abbreviation export_zip := (export_zip Attrs py_owner_name situs_zip csv_line srv jb).
Local Abbreviation export_loop := (export_loop Attrs py_owner_name situs_zip csv_line srv jb).
Local Abbreviation export_all := (export_all Attrs py_owner_name situs_zip csv_line srv jb).
Local Abbreviation startExport := (startExport Attrs py_owner_name situs_zip csv_line srv jb).
Local Abbreviation aborts := (@aborts Attrs srv).
Local Abbreviation halts := (@halts Attrs srv).
Local Abbreviation refuses := (@refuses Attrs srv).

Lemma is_stop_raise {A B : Type} (e : js_error) :
  @is_stop A (Raise e) -> @is_stop B (Raise e).
Proof. unfold is_stop. intros H. injection H as ->. reflexivity. Qed.

(** A piece that does not await is never cancelled while it runs. *)
Lemma aborts_still {A} (m : M Attrs A) :
  (forall w, clock (snd (m w)) = clock w) -> aborts m.
Proof. intros H w c _ Hle Hlt. rewrite H in Hlt. lia. Qed.

Lemma aborts_ret {A} (a : A) : aborts (@ret Attrs A a).
Proof. now apply aborts_still. Qed.

Lemma aborts_throw {A} (e : js_error) : aborts (@throw Attrs A e).
Proof. now apply aborts_still. Qed.

Lemma aborts_out_of_fuel {A} : aborts (@out_of_fuel Attrs A).
Proof. now apply aborts_still. Qed.

Lemma aborts_update (f : rstate -> rstate) : aborts (@update Attrs f).
Proof. now apply aborts_still. Qed.

Lemma aborts_download (b : CSVBuilder) (f : jsstring) : aborts (@download Attrs b f).
Proof. now apply aborts_still. Qed.

Lemma aborts_signal_aborted : aborts (signal_aborted srv).
Proof. now apply aborts_still. Qed.

(** One awaited operation: cancelled while it runs, it rejects. *)
Lemma await_cancelled (ev : event Attrs) (w : world Attrs) (c : nat) :
  cancel_at srv = Some c -> clock w <= c -> c < S (clock w) ->
  fst (await srv ev w) = Done true.
Proof.
  intros Hc Hle Hlt. unfold await. cbn. rewrite Hc.
  replace (c <=? clock w) with true; [reflexivity|]. symmetry. apply Nat.leb_le. lia.
Qed.

Lemma aborts_fetch (q : query) : aborts (fetchJSONWithRetry srv q).
Proof.
  intros w c Hc Hle Hlt.
  unfold fetchJSONWithRetry, bind, next_query in *. cbn [fst snd] in *.
  pose proof (await_cancelled (EvQuery q)
                (mkWorld Attrs (ui w) (clock w) (S (n_queries w)) (n_posts w) (trace w)) c Hc Hle)
    as Ha.
  unfold await in *. cbn [fst snd clock trace] in *.
  destruct (match cancel_at srv with Some c0 => c0 <=? clock w | None => false end) eqn:E.
  - cbn [fst snd clock trace throw] in *. split; [lia|]. split; [|reflexivity].
    exists (trace w), (EvQuery q). split; [reflexivity | exact I].
  - assert (Hlt' : c < S (clock w)).
    { destruct (query_result srv (n_queries w)); exact Hlt. }
    specialize (Ha Hlt'). discriminate Ha.
Qed.

Lemma aborts_sleep (ms : nat) : aborts (sleep srv ms).
Proof.
  intros w c Hc Hle Hlt. unfold sleep, bind in *.
  pose proof (await_cancelled (EvSleep ms) w c Hc Hle) as Ha.
  unfold await in *. cbn [fst snd clock trace] in *.
  destruct (match cancel_at srv with Some c0 => c0 <=? clock w | None => false end) eqn:E.
  - cbn [fst snd clock trace throw] in *. split; [lia|]. split; [|reflexivity].
    exists (trace w), (EvSleep ms). split; [reflexivity | exact I].
  - specialize (Ha Hlt). discriminate Ha.
Qed.

Lemma aborts_post (b : list (Row Attrs)) : aborts (postNDJSON srv b).
Proof.
  intros w c Hc Hle Hlt. unfold postNDJSON, bind, next_post, await in *.
  cbn [fst snd clock trace n_posts] in *.
  unfold answer_of in *. cbn [clock] in *. rewrite Hc in *.
  destruct (c <=? clock w) eqn:E.
  - cbn [fst snd clock trace throw] in *. split; [lia|]. split; [|reflexivity].
    eexists (trace w), _. split; [reflexivity | exact I].
  - apply Nat.leb_gt in E.
    assert (Hlt' : c < S (clock w)).
    { destruct (post_reply srv (n_posts w)) as [e|status]; [exact Hlt|].
      destruct (negb (ok status)); exact Hlt. }
    lia.
Qed.

Lemma aborts_bind {A B} (m : M Attrs A) (k : A -> M Attrs B) :
  aborts m -> (forall a, aborts (k a)) -> aborts (bind m k).
Proof.
  intros Hm Hk w c Hc Hle Hlt. unfold bind in *.
  specialize (Hm w c Hc Hle).
  destruct (m w) as [[a|e|] w1]; cbn [fst snd] in *.
  - destruct (Nat.lt_ge_cases c (clock w1)) as [L|G].
    + destruct (Hm L) as (_ & _ & Habs). discriminate Habs.
    + now apply Hk.
  - destruct (Hm Hlt) as (H1 & H2 & H3). repeat split; try assumption.
    now apply (is_stop_raise e H3).
  - destruct (Hm Hlt) as (_ & _ & Habs). discriminate Habs.
Qed.

Lemma refuses_bind {A B} (m : M Attrs A) (k : A -> M Attrs B) :
  refuses m -> refuses (bind m k).
Proof.
  intros Hm w c Hc Hlt. unfold bind. specialize (Hm w c Hc Hlt).
  destruct (m w) as [[a|e|] w1]; cbn [fst snd] in *.
  - destruct Hm as (_ & _ & Habs). discriminate Habs.
  - destruct Hm as (H1 & H2 & H3). repeat split; try assumption.
    now apply (is_stop_raise e H3).
  - destruct Hm as (_ & _ & Habs). discriminate Habs.
Qed.

Lemma refuses_after_silent {A B} (m : M Attrs A) (k : A -> M Attrs B) :
  silent m -> (forall a, refuses (k a)) -> refuses (bind m k).
Proof.
  intros Hm Hk w c Hc Hlt. unfold bind. destruct (Hm w) as (H1 & H2 & H3).
  destruct (m w) as [[a|e|] w1]; cbn [fst snd] in *.
  - destruct (Hk a w1 c Hc) as (K1 & K2 & K3); [lia|].
    rewrite K1, K2. repeat split; assumption.
  - destruct H3.
  - destruct H3.
Qed.

Lemma silent_update (f : rstate -> rstate) : silent (@update Attrs f).
Proof. intros w. repeat split. Qed.

Lemma silent_ret {A} (a : A) : silent (@ret Attrs A a).
Proof. intros w. repeat split. Qed.

(** A piece that may carry on after a cancellation, followed by a piece
    that refuses to. *)
Lemma aborts_after_halts {A B} (m : M Attrs A) (k : A -> M Attrs B) :
  halts m -> (forall a, aborts (k a)) -> (forall a, refuses (k a)) -> aborts (bind m k).
Proof.
  intros Hm Hk Hr w c Hc Hle Hlt. unfold bind in *.
  specialize (Hm w c Hc Hle).
  destruct (m w) as [[a|e|] w1]; cbn [fst snd] in *.
  - destruct (Nat.lt_ge_cases c (clock w1)) as [L|G].
    + destruct (Hm L) as (H1 & H2 & _).
      destruct (Hr a w1 c Hc L) as (K1 & K2 & K3).
      split; [congruence|]. split; [|exact K3].
      destruct H2 as (pre & ev & H2 & Hev). exists pre, ev. split; [congruence | exact Hev].
    + now apply Hk.
  - destruct (Hm Hlt) as (H1 & H2 & [H3|[]]). repeat split; try assumption.
    now apply (is_stop_raise e H3).
  - destruct (Hm Hlt) as (_ & _ & [Habs|[]]). discriminate Habs.
Qed.

Lemma halts_try_catch {A} (m : M Attrs A) (h : js_error -> M Attrs A) :
  aborts m -> (forall e, silent (h e)) -> halts (try_catch m h).
Proof.
  intros Hm Hh w c Hc Hle Hlt. unfold try_catch in *.
  specialize (Hm w c Hc Hle).
  destruct (m w) as [[a|e|] w1]; cbn [fst snd] in *.
  - destruct (Hm Hlt) as (_ & _ & Habs). discriminate Habs.
  - destruct (Hh e w1) as (K1 & K2 & K3). rewrite K1 in Hlt.
    destruct (Hm Hlt) as (H1 & H2 & _).
    split; [congruence|]. split; [|now right].
    destruct H2 as (pre & ev & H2 & Hev). exists pre, ev. split; [congruence | exact Hev].
  - destruct (Hm Hlt) as (_ & _ & Habs). discriminate Habs.
Qed.

(** [if (ctrl.signal.aborted) throw ...; m] *)
Lemma guard_aborts {A} (m : M Attrs A) :
  aborts m ->
  aborts (bind (signal_aborted srv) (fun a : bool => if a then throw AbortError else m)).
Proof.
  intros Hm. apply aborts_bind; [apply aborts_signal_aborted|].
  intros [|]; [apply aborts_throw | exact Hm].
Qed.

Lemma guard_refuses {A} (m : M Attrs A) :
  refuses (bind (signal_aborted srv) (fun a : bool => if a then throw AbortError else m)).
Proof.
  intros w c Hc Hlt. unfold bind, signal_aborted. rewrite Hc.
  replace (c <? clock w) with true by (symmetry; now apply Nat.ltb_lt).
  cbn. repeat split.
Qed.

Lemma aborts_post_batches (batches : list (list (Row Attrs))) :
  aborts (post_batches srv batches).
Proof.
  induction batches as [|b rest IH]; cbn [post_batches].
  - apply aborts_ret.
  - apply aborts_bind; [apply aborts_post|]. intros _. exact IH.
Qed.

(** The loop over the pages: cancelled while it runs it throws, whatever
    the number of pages it is allowed ... *)
Lemma page_loop_aborts (fuel : nat) :
  forall z zipTotal offset processed bs,
    aborts (page_loop fuel z zipTotal offset processed bs).
Proof.
  induction fuel as [|fuel IH]; intros z zipTotal offset processed bs;
    cbn [ExportCenter.page_loop].
  - apply aborts_out_of_fuel.
  - apply guard_aborts.
    apply aborts_bind; [apply aborts_fetch|]. intros res.
    destruct (p_features res) as [|f feats]; [apply aborts_ret|].
    apply aborts_bind.
    { destruct (nonempty (webhookUrl jb)); [|apply aborts_ret].
      destruct (chunkArray _ _); [apply aborts_post_batches | apply aborts_out_of_fuel]. }
    intros _. apply aborts_bind; [apply aborts_update|].
    intros _. apply aborts_bind; [apply aborts_update|].
    intros _. apply aborts_bind.
    { destruct (0 <? throttleMs jb); [apply aborts_sleep | apply aborts_ret]. }
    intros _. apply IH.
Qed.

(** ... and started after the cancellation it does nothing, if it is
    allowed one page at least. *)
Lemma page_loop_refuses (fuel : nat) z zipTotal offset processed bs :
  0 < fuel -> refuses (page_loop fuel z zipTotal offset processed bs).
Proof.
  destruct fuel as [|fuel]; [lia|]. intros _. cbn [ExportCenter.page_loop].
  apply guard_refuses.
Qed.

Lemma export_zip_cancel (fuel : nat) (z : ZipRow) (single_b : option CSVBuilder) :
  0 < fuel ->
  aborts (export_zip fuel z single_b) /\ refuses (export_zip fuel z single_b).
Proof.
  intros Hfuel.
  unfold ExportCenter.export_zip. split; [|apply guard_refuses]. apply guard_aborts.
  apply aborts_bind; [apply aborts_update|]. intros _.
  apply aborts_bind; [apply aborts_update|]. intros _.
  apply aborts_after_halts.
  - apply halts_try_catch.
    + apply aborts_bind; [apply aborts_fetch|]. intros res. apply aborts_ret.
    + intros e. apply silent_ret.
  - intros zipTotal. apply aborts_bind; [apply aborts_update|]. intros _.
    apply aborts_bind; [apply page_loop_aborts|]. intros [bs processed].
    apply aborts_bind.
    { destruct (exportMode jb); [apply aborts_ret|].
      destruct (perZipBuilder bs); [apply aborts_download | apply aborts_ret]. }
    intros _. apply aborts_bind; [apply aborts_update|]. intros _. apply aborts_ret.
  - intros zipTotal. apply refuses_after_silent; [apply silent_update|]. intros _.
    apply refuses_bind. now apply page_loop_refuses.
Qed.

Lemma export_loop_aborts (fuel : nat) (zs : list ZipRow) :
  0 < fuel -> forall single_b, aborts (export_loop fuel zs single_b).
Proof.
  intros Hfuel. induction zs as [|z zs IH]; intros single_b; cbn [ExportCenter.export_loop].
  - apply aborts_ret.
  - apply aborts_bind; [now apply export_zip_cancel|]. intros b. apply IH.
Qed.

Lemma export_all_cancel (fuel : nat) (single_b : option CSVBuilder) :
  0 < fuel ->
  aborts (export_all fuel single_b) /\
  (exportZipList jb <> [] -> refuses (export_all fuel single_b)).
Proof.
  intros Hfuel. unfold ExportCenter.export_all. split.
  - apply aborts_bind; [now apply export_loop_aborts|]. intros b.
    apply aborts_bind; [|intros _; apply aborts_update].
    destruct (exportMode jb); [|apply aborts_ret].
    destruct b; [apply aborts_download | apply aborts_ret].
  - intros Hne. apply refuses_bind.
    destruct (exportZipList jb) as [|z zs]; [contradiction|].
    cbn [ExportCenter.export_loop]. apply refuses_bind. now apply export_zip_cancel.
Qed.

Lemma precount_loop_aborts (zs : list ZipRow) :
  forall totals, aborts (precount_loop srv zs totals).
Proof.
  induction zs as [|z zs IH]; intros totals; cbn [precount_loop].
  - apply aborts_ret.
  - apply aborts_bind; [apply aborts_fetch|]. intros res. apply IH.
Qed.

Lemma precount_halts : halts (precount srv jb).
Proof.
  unfold precount. apply halts_try_catch.
  - apply aborts_bind; [apply precount_loop_aborts|]. intros totals.
    apply aborts_bind; [apply aborts_update|]. intros _. apply aborts_update.
  - intros e. apply silent_update.
Qed.

(** X23. Cancel stops the job at the operation in flight: when the user
    presses Cancel while the job awaits its [c]-th operation (a query, a
    POST or a pause), the job awaits nothing and delivers nothing after
    it; [startExport] ends, and ends normally, with "Export cancelled."
    as the last line of the log, no error shown and the job no longer
    running.  (The loop over the pages of a ZIP is allowed [fuel]
    pages; one is enough for this.) *)
Theorem cancel_stops_job (fuel : nat) (w : world Attrs) (c : nat) :
  0 < fuel ->
  exportZipList jb <> [] ->
  cancel_at srv = Some c ->
  clock w <= c ->
  let res := startExport fuel w in
  c < clock (snd res) ->
  fst res = Done tt /\
  clock (snd res) = S c /\
  ends_in_await (snd res) /\
  exportError (ui (snd res)) = None /\
  exportRunning (ui (snd res)) = false /\
  exists l, exportLog (ui (snd res)) = l ++ [LogCancelled].
Proof.
  intros Hfuel Hne Hc Hle res. subst res.
  rewrite (startExport_run py_owner_name situs_zip csv_line srv jb fuel w Hne).
  set (w1 := on_ui startExport_enter w).
  pose proof (precount_halts w1 c Hc Hle) as Hp.
  destruct (steady_precount srv jb w1) as [Hm2 He2].
  pose proof (precount_done srv jb w1) as Hd.
  destruct (precount srv jb w1) as [[[]|e2|] w2]; cbn [fst snd] in *;
    [|discriminate Hd|discriminate Hd].
  unfold try_finally, try_catch.
  set (sb := match exportMode jb with single => _ | perZip => _ end).
  destruct (export_all_cancel fuel sb Hfuel) as [Ha Hr]. specialize (Hr Hne).
  destruct (steady_export_all py_owner_name situs_zip csv_line srv jb fuel sb w2) as [Hm3 He3].
  assert (Hstop : c < clock (snd (export_all fuel sb w2)) ->
                  clock (snd (export_all fuel sb w2)) = S c /\
                  ends_in_await (snd (export_all fuel sb w2)) /\
                  is_stop (fst (export_all fuel sb w2))).
  { intros Hlt. destruct (Nat.lt_ge_cases c (clock w2)) as [L|G].
    - destruct (Hp L) as (P1 & P2 & _).
      destruct (Hr w2 c Hc L) as (R1 & R2 & R3).
      split; [congruence|]. split; [|exact R3].
      destruct P2 as (pre & ev & P2 & Hev). exists pre, ev. split; [congruence | exact Hev].
    - exact (Ha w2 c Hc G Hlt). }
  destruct (export_all fuel sb w2) as [r3 w3]; cbn [fst snd] in *.
  destruct r3 as [[]|e3|].
  - cbn [fst snd clock on_ui]. intros Hlt.
    destruct (Hstop Hlt) as (_ & _ & Habs). discriminate Habs.
  - assert (Hon : clock (snd (on_error e3 w3)) = clock w3 /\
                  trace (snd (on_error e3 w3)) = trace w3 /\
                  fst (on_error e3 w3) = Done tt).
    { unfold on_error. destruct (list_eq_dec _ _ _); repeat split. }
    destruct Hon as (O1 & O2 & O3).
    assert (Hrun : forall e, on_error e w3 = (fst (on_error e w3), snd (on_error e w3)))
      by (intros e; now destruct (on_error e w3)).
    rewrite (Hrun e3), O3. cbn [fst snd clock on_ui]. rewrite O1. intros Hlt.
    destruct (Hstop Hlt) as (S1 & S2 & S3). injection S3 as ->.
    split; [reflexivity|]. split; [exact S1|]. split.
    { destruct S2 as (pre & ev & S2 & Hev). exists pre, ev. cbn. split; [congruence | exact Hev]. }
    unfold on_error. cbn.
    split; [now rewrite He3, He2|]. split; [reflexivity|].
    destruct (appendLog_last LogCancelled (ui w3)) as (l & Hl). exists l. exact Hl.
  - cbn [fst snd clock]. intros Hlt.
    destruct (Hstop Hlt) as (_ & _ & Habs). discriminate Habs.
Qed.

End Cancel.

Lemma cancel_stops_job_witness :
  let res := startExport nat sample_owner sample_zip sample_line cancelling_service sample_job
                         10 initial_world in
  fst res = Done tt /\
  clock (snd res) = 5 /\
  exportError (ui (snd res)) = None /\
  exportRunning (ui (snd res)) = false.
Proof.
  assert (H1 : exportZipList sample_job <> []) by discriminate.
  assert (H2 : 0 <= 4) by lia.
  assert (H3 : 4 < clock (snd (startExport nat sample_owner sample_zip sample_line
                                           cancelling_service sample_job 10 initial_world)))
    by (vm_compute; lia).
  assert (H0 : 0 < 10) by lia.
  destruct (cancel_stops_job sample_owner sample_zip sample_line cancelling_service sample_job
                             10 initial_world 4 H0 H1 eq_refl H2 H3)
    as (R1 & R2 & _ & R4 & R5 & _).
  cbv zeta. repeat split; assumption.
Defined.

End JobProps.

(** *** The content of the single file *)

Module FileProps.
Import Str Utils Api ExportCenter StrFacts ExportProps JobProps.

Section Returns.

Context {Attrs : Type}.

Lemma returns_ret {A} (Q : A -> Prop) (a : A) : Q a -> returns Q (@ret Attrs A a).
Proof. intros H w. exact H. Qed.

Lemma returns_any {A} (m : M Attrs A) : returns (fun _ => True) m.
Proof. intros w. now destruct (fst (m w)). Qed.

Lemma returns_throw {A} (Q : A -> Prop) (e : js_error) : returns Q (@throw Attrs A e).
Proof. intros w. exact I. Qed.

Lemma returns_out_of_fuel {A} (Q : A -> Prop) : returns Q (@out_of_fuel Attrs A).
Proof. intros w. exact I. Qed.

Lemma returns_bind {A B} (P : A -> Prop) (Q : B -> Prop) (m : M Attrs A) (k : A -> M Attrs B) :
  returns P m -> (forall a, P a -> returns Q (k a)) -> returns Q (bind m k).
Proof.
  intros Hm Hk w. unfold bind. specialize (Hm w).
  destruct (m w) as [[a|e|] w']; cbn [fst] in *; [|exact I|exact I].
  apply (Hk a Hm).
Qed.

Lemma returns_then {A B} (Q : B -> Prop) (m : M Attrs A) (k : A -> M Attrs B) :
  (forall a, returns Q (k a)) -> returns Q (bind m k).
Proof. intros Hk. apply (returns_bind (fun _ => True)); [apply returns_any | auto]. Qed.

End Returns.

Section Content.

Context {Attrs : Type}.
Variable py_owner_name : Attrs -> option jsstring.
Variable situs_zip : Attrs -> option jsstring.
Variable csv_line : list jsstring -> Row Attrs -> jsstring.
Variable srv : service Attrs.
Variable jb : job.
Hypothesis Hmode : exportMode jb = single.

Local Abbreviation page_loop := (page_loop Attrs py_owner_name situs_zip csv_line srv jb).
Local Abbreviation export_zip := (export_zip Attrs py_owner_name situs_zip csv_line srv jb).
Local Abbreviation export_loop := (export_loop Attrs py_owner_name situs_zip csv_line srv jb).
Local Abbreviation export_all := (export_all Attrs py_owner_name situs_zip csv_line srv jb).
Local Abbreviation startExport := (startExport Attrs py_owner_name situs_zip csv_line srv jb).
Local Abbreviation scoped := (scoped_builder py_owner_name situs_zip jb csv_line).
Local Abbreviation exported := (exported_row py_owner_name situs_zip jb).

Lemma scoped_new : scoped (Some (newCSVBuilder (singleHeaders jb))).
Proof.
  intros b Hb. injection Hb as <-. exists []. split; [reflexivity | constructor].
Qed.

Lemma scoped_append (bs : builders) (rows : list (Row Attrs)) :
  scoped (singleBuilder bs) -> Forall exported rows ->
  scoped (singleBuilder (append_page Attrs csv_line jb bs rows)).
Proof.
  intros Hs Hr. unfold append_page. rewrite Hmode. cbn [singleBuilder].
  intros b Hb. destruct (singleBuilder bs) as [b0|]; [|discriminate].
  cbn [option_map] in Hb. injection Hb as <-.
  destruct (Hs b0 eq_refl) as (pages & -> & Hp).
  exists (pages ++ [rows]). split.
  - unfold built_from. now rewrite fold_left_app.
  - apply Forall_app. split; [exact Hp | now repeat constructor].
Qed.

Lemma scoped_page_loop (fuel : nat) (z : ZipRow) :
  forall zipTotal offset processed bs,
    scoped (singleBuilder bs) ->
    returns (fun r => scoped (singleBuilder (fst r)))
            (page_loop fuel z zipTotal offset processed bs).
Proof.
  induction fuel as [|fuel IH]; intros zipTotal offset processed bs Hs;
    cbn [ExportCenter.page_loop].
  - apply returns_out_of_fuel.
  - apply returns_then. intros aborted. destruct aborted; [apply returns_throw|].
    apply returns_then. intros res. destruct (p_features res) as [|a feats] eqn:Ef.
    + now apply returns_ret.
    + cbv zeta. apply returns_then. intros _.
      apply returns_then. intros _. apply returns_then. intros _.
      apply returns_then. intros _. apply IH. apply scoped_append; [exact Hs|].
      apply Forall_forall. intros r Hr.
      now apply (mapped_rows_exported py_owner_name situs_zip jb (a :: feats)).
Qed.

Lemma scoped_export_zip (fuel : nat) (z : ZipRow) (sb : option CSVBuilder) :
  scoped sb -> returns scoped (export_zip fuel z sb).
Proof.
  intros Hs. unfold ExportCenter.export_zip.
  apply returns_then. intros aborted. destruct aborted; [apply returns_throw|].
  apply returns_then. intros _. apply returns_then. intros _.
  apply returns_then. intros zipTotal. apply returns_then. intros _.
  apply (returns_bind (fun r => scoped (singleBuilder (fst r)))).
  { now apply scoped_page_loop. }
  intros [bs processed] Hb. cbn [fst] in Hb.
  apply returns_then. intros _. apply returns_then. intros _. now apply returns_ret.
Qed.

Lemma scoped_export_loop (fuel : nat) (zs : list ZipRow) :
  forall sb, scoped sb -> returns scoped (export_loop fuel zs sb).
Proof.
  induction zs as [|z zs IH]; intros sb Hs; cbn [ExportCenter.export_loop].
  - now apply returns_ret.
  - apply (returns_bind scoped); [now apply scoped_export_zip | exact IH].
Qed.

(** The deliveries of [export_all] in single mode. *)
Lemma single_export_all_content (fuel : nat) (sb : option CSVBuilder) (w : world Attrs) :
  scoped sb ->
  exists n3,
    trace (snd (export_all fuel sb w)) = trace w ++ n3 /\
    forall name content,
      In (EvDownload name content) n3 -> exists b, scoped (Some b) /\ content = parts b.
Proof.
  intros Hs.
  destruct (single_loop_no_download py_owner_name situs_zip csv_line srv jb Hmode
              fuel (exportZipList jb) sb w) as (n3 & Ht & Hn).
  pose proof (scoped_export_loop fuel (exportZipList jb) sb Hs w) as Hb.
  assert (Hno : forall name content, ~ In (@EvDownload Attrs name content) n3).
  { intros name content. apply (Forall_not_In _ _ _ Hn). cbn. tauto. }
  unfold ExportCenter.export_all, bind.
  destruct (export_loop fuel (exportZipList jb) sb w) as [[b|e|] w3]; cbn [fst snd] in *.
  - rewrite Hmode. destruct b as [b|].
    + cbn [download update fst snd trace ui on_ui].
      eexists. split; [rewrite Ht, <- app_assoc; reflexivity|].
      intros name content Hin. apply in_app_or in Hin as [Hin|Hin];
        [now apply Hno in Hin|].
      destruct Hin as [E|[]]. injection E as _ <-. now exists b.
    + exists n3. split; [exact Ht|]. intros name content Hin. now apply Hno in Hin.
  - exists n3. split; [exact Ht|]. intros name content Hin. now apply Hno in Hin.
  - exists n3. split; [exact Ht|]. intros name content Hin. now apply Hno in Hin.
Qed.

Lemma on_error_trace (e : js_error) (w : world Attrs) :
  trace (snd (on_error e w)) = trace w.
Proof. unfold on_error. now destruct (list_eq_dec _ _ _). Qed.

(** X24. In single mode the file the job delivers is the header line
    followed by one line for each of its rows, in the builder's format,
    and all these rows are rows of the parcels layer with the two
    computed fields that pass the owner scope. *)
Theorem single_file_rows_in_scope (fuel : nat) (w : world Attrs) :
  exists new,
    trace (snd (startExport fuel w)) = trace w ++ new /\
    forall name content,
      In (EvDownload name content) new ->
      exists rows,
        List.concat content
        = join (str ",") (singleHeaders jb) ++ [newline]
          ++ List.concat (map (fun r => csv_line (singleHeaders jb) r ++ [newline]) rows) /\
        forall r, In r rows ->
                  r = enrich Attrs py_owner_name situs_zip (attributes r) /\
                  ownerPasses (ownerScope jb) (py_owner_name (attributes r)) = true.
Proof.
  assert (Hno : forall n name content,
             Forall not_download n -> ~ In (@EvDownload Attrs name content) n).
  { intros n name content Hn. apply (Forall_not_In _ _ _ Hn). cbn. tauto. }
  destruct (exportZipList jb) as [|z0 zs] eqn:Ez.
  { exists []. unfold ExportCenter.startExport. rewrite Ez. cbn.
    split; [now rewrite app_nil_r | intros name content []]. }
  rewrite (startExport_run py_owner_name situs_zip csv_line srv jb fuel w)
    by (rewrite Ez; discriminate).
  set (w1 := on_ui startExport_enter w).
  destruct (single_precount_no_download srv jb w1) as (n2 & Ht2 & Hn2).
  change (trace w1) with (trace w) in Ht2.
  destruct (precount srv jb w1) as [[[]|e2|] w2]; cbn [fst snd] in *.
  2:{ exists n2. split; [exact Ht2|]. intros name content Hin. now apply Hno in Hin. }
  2:{ exists n2. split; [exact Ht2|]. intros name content Hin. now apply Hno in Hin. }
  rewrite Hmode.
  destruct (single_export_all_content fuel (Some (newCSVBuilder (singleHeaders jb))) w2
              scoped_new) as (n3 & Ht3 & Hc3).
  exists (n2 ++ n3). split.
  - unfold try_finally, try_catch.
    rewrite app_assoc, <- Ht2, <- Ht3.
    destruct (export_all fuel _ w2) as [[[]|e3|] w3]; cbn [fst snd]; try reflexivity.
    pose proof (on_error_trace e3 w3) as E4.
    destruct (on_error e3 w3) as [r4 w4]; cbn [snd] in *.
    destruct r4; cbn; exact E4.
  - intros name content Hin. apply in_app_or in Hin as [Hin|Hin];
      [now apply Hno in Hin|].
    destruct (Hc3 name content Hin) as (b & Hb & ->).
    destruct (Hb b eq_refl) as (pages & -> & Hp).
    exists (List.concat pages). split.
    + unfold built_from.
      destruct (CsvProps.pages_content csv_line pages (newCSVBuilder (singleHeaders jb)))
        as [_ H].
      rewrite H. cbn [newCSVBuilder parts headers List.concat].
      now rewrite app_nil_r, <- app_assoc.
    + intros r Hr. apply in_concat in Hr as (p & Hp1 & Hp2).
      rewrite Forall_forall in Hp. specialize (Hp p Hp1).
      rewrite Forall_forall in Hp. exact (Hp r Hp2).
Qed.

End Content.

Lemma single_file_rows_in_scope_witness :
  exportMode sample_job = single /\
  exists new,
    trace (snd (startExport nat sample_owner sample_zip sample_line willing_service
                            sample_job 10 initial_world))
    = trace initial_world ++ new /\
    forall name content,
      In (EvDownload name content) new ->
      exists rows,
        List.concat content
        = join (str ",") (singleHeaders sample_job) ++ [newline]
          ++ List.concat (map (fun r => sample_line (singleHeaders sample_job) r ++ [newline])
                              rows) /\
        forall r, In r rows ->
                  r = enrich nat sample_owner sample_zip (attributes r) /\
                  ownerPasses (ownerScope sample_job) (sample_owner (attributes r)) = true.
Proof.
  split; [reflexivity|].
  exact (single_file_rows_in_scope sample_owner sample_zip sample_line willing_service
                                   sample_job eq_refl 10 initial_world).
Defined.

End FileProps.

(** *** The precount *)

Module PrecountProps.
Import Str Utils Api ExportCenter DataLab StrFacts ExportProps JobProps.

Lemma assoc_set_fresh {V : Type} (k : jsstring) (v : V) (m : list (jsstring * V)) :
  ~ In k (map fst m) -> assoc_set k v m = m ++ [(k, v)].
Proof.
  induction m as [|[k0 v0] m IH]; intros Hk; cbn [assoc_set app]; [reflexivity|].
  cbn in Hk. destruct (list_eq_dec ascii_dec k k0) as [E|_].
  - exfalso. apply Hk. now left.
  - rewrite IH; [reflexivity|]. intros Hin. apply Hk. now right.
Qed.

Section Precount.

Context {Attrs : Type}.
Variable srv : service Attrs.
Variable jb : job.

Local Abbreviation count_queries :=
  (map (fun z => @EvQuery Attrs (CountQuery (zip z)))).
Local Abbreviation values_sum :=
  (fun totals : list (jsstring * nat) => fold_left (fun a kv => a + snd kv) totals 0).

Lemma precount_loop_counts (zs : list ZipRow) :
  forall totals w,
    cancel_at srv = None ->
    (forall i, i < List.length zs ->
               exists p, query_result srv (n_queries w + i) = Return p) ->
    NoDup (map zip zs) ->
    (forall k, In k (map zip zs) -> ~ In k (map fst totals)) ->
    exists totals' w',
      precount_loop srv zs totals w = (Done totals', w') /\
      ui w' = ui w /\
      trace w' = trace w ++ count_queries zs /\
      values_sum totals'
      = values_sum totals
        + sum (map (fun i => count_of (query_result srv (n_queries w + i)))
                   (seq 0 (List.length zs))).
Proof.
  induction zs as [|z zs IH]; intros totals w Hc Hq Hnd Hfresh.
  - exists totals, w. cbn. rewrite app_nil_r, Nat.add_0_r. repeat split.
  - cbn [precount_loop]. unfold bind at 1.
    unfold fetchJSONWithRetry, bind, next_query, await. cbn [fst snd clock n_queries].
    rewrite Hc.
    destruct (Hq 0) as (p & Hp); [cbn; lia|]. rewrite Nat.add_0_r in Hp.
    rewrite Hp. cbn [ret].
    inversion Hnd as [|k ks Hk Hnd']; subst.
    rewrite assoc_set_fresh by (apply Hfresh; now left).
    match goal with |- context [precount_loop srv zs ?t ?w1] =>
      destruct (IH t w1 Hc) as (totals' & w' & Hrun & Hui & Htr & Hsum) end.
    + intros i Hi. cbn [n_queries]. destruct (Hq (S i)) as (q & Hq'); [cbn; lia|].
      exists q. rewrite <- Hq'. f_equal. lia.
    + exact Hnd'.
    + intros k Hin. rewrite map_app, in_app_iff. cbn. intros [H|[H|[]]].
      * revert H. apply Hfresh. now right.
      * apply Hk. now rewrite H.
    + exists totals', w'. split; [exact Hrun|]. split; [exact Hui|]. split.
      * rewrite Htr. cbn [trace map]. now rewrite <- app_assoc.
      * rewrite Hsum. rewrite fold_left_app. cbn [fold_left snd n_queries List.length seq map].
        rewrite <- seq_shift, map_map. unfold sum. cbn [fold_right].
        rewrite Nat.add_0_r, Hp. cbn [count_of].
        rewrite <- Nat.add_assoc. do 3 f_equal. apply map_ext. intros i. do 2 f_equal. lia.
Qed.

Lemma precount_loop_fails (zs : list ZipRow) :
  forall totals w i,
    i < List.length zs ->
    (exists e, query_result srv (n_queries w + i) = Throw e) ->
    exists e w',
      precount_loop srv zs totals w = (Raise e, w') /\ ui w' = ui w.
Proof.
  induction zs as [|z zs IH]; intros totals w i Hi (e & He); [cbn in Hi; lia|].
  cbn [precount_loop]. unfold bind at 1.
  unfold fetchJSONWithRetry, bind, next_query, await. cbn [fst snd clock n_queries].
  destruct (match cancel_at srv with Some c => c <=? clock w | None => false end).
  { cbn. eexists _, _. split; reflexivity. }
  destruct (query_result srv (n_queries w)) as [p|e0] eqn:Ep.
  - cbn [ret]. destruct i as [|i].
    { rewrite Nat.add_0_r in He. congruence. }
    match goal with |- context [precount_loop srv zs ?t ?w1] =>
      destruct (IH t w1 i) as (e1 & w' & Hrun & Hui) end.
    + cbn in Hi. lia.
    + exists e. rewrite <- He. cbn [n_queries]. f_equal. lia.
    + exists e1, w'. split; [exact Hrun | exact Hui].
  - cbn. eexists _, _. split; reflexivity.
Qed.

(** X25. When the ZIPs of the job are distinct, nobody cancels and the
    layer answers every count query, the precount sends one count query
    per ZIP, in the order of the list, shows the sum of the counts
    answered as the expected total and logs it with the number of ZIPs. *)
Theorem precount_estimate (w : world Attrs) :
  cancel_at srv = None ->
  NoDup (map zip (exportZipList jb)) ->
  (forall i, i < List.length (exportZipList jb) ->
             exists p, query_result srv (n_queries w + i) = Return p) ->
  let res := precount srv jb w in
  let expected :=
    sum (map (fun i => count_of (query_result srv (n_queries w + i)))
             (seq 0 (List.length (exportZipList jb)))) in
  fst res = Done tt /\
  trace (snd res) = trace w ++ count_queries (exportZipList jb) /\
  exportTotalExpected (ui (snd res)) = Some expected /\
  exists l,
    exportLog (ui (snd res))
    = l ++ [LogEstimated (List.length (exportZipList jb)) expected].
Proof.
  intros Hc Hnd Hq. cbv zeta.
  destruct (precount_loop_counts (exportZipList jb) [] w Hc Hq Hnd)
    as (totals & w' & Hrun & Hui & Htr & Hsum); [intros k _ []|].
  cbn [fold_left] in Hsum. rewrite Nat.add_0_l in Hsum.
  unfold precount, try_catch, bind. rewrite Hrun.
  cbn [update fst snd on_ui ui trace]. rewrite Hsum.
  split; [reflexivity|]. split; [exact Htr|]. split; [reflexivity|].
  apply appendLog_last.
Qed.

(** X26. The precount never stops the export: it always ends normally.
    When the layer fails to answer one of its count queries, no expected
    total is shown in place of the old one and the log ends with the line
    that says the counts could not be precomputed. *)
Theorem precount_failure_not_fatal (w : world Attrs) :
  let res := precount srv jb w in
  fst res = Done tt /\
  forall i e,
    i < List.length (exportZipList jb) ->
    query_result srv (n_queries w + i) = Throw e ->
    exportTotalExpected (ui (snd res)) = exportTotalExpected (ui w) /\
    exists l, exportLog (ui (snd res)) = l ++ [LogNoPrecount].
Proof.
  cbv zeta. split; [apply precount_done|].
  intros i e Hi He.
    destruct (precount_loop_fails (exportZipList jb) [] w i Hi (ex_intro _ e He))
      as (e1 & w' & Hrun & Hui).
    unfold precount, try_catch, bind. rewrite Hrun.
    cbn [update fst snd on_ui ui]. rewrite <- Hui. split; [reflexivity|].
    apply appendLog_last.
Qed.

End Precount.

Lemma precount_estimate_witness :
  let res := precount willing_service sample_job (@initial_world nat) in
  fst res = Done tt /\
  trace (snd res)
  = [EvQuery (CountQuery (str "78701")); EvQuery (CountQuery (str "78702"))] /\
  exportTotalExpected (ui (snd res)) = Some 6 /\
  exists l, exportLog (ui (snd res)) = l ++ [LogEstimated 2 6].
Proof.
  refine (precount_estimate willing_service sample_job initial_world eq_refl _ _).
  - repeat constructor; cbn; intuition discriminate.
  - intros i _. eexists. reflexivity.
Defined.

Lemma precount_failure_not_fatal_witness :
  let res := precount failing_service sample_job (@initial_world nat) in
  fst res = Done tt /\
  exportTotalExpected (ui (snd res)) = None /\
  exists l, exportLog (ui (snd res)) = l ++ [LogNoPrecount].
Proof.
  pose proof (precount_failure_not_fatal failing_service sample_job initial_world) as [H1 H2].
  split; [exact H1|].
  exact (H2 1 (Error (str "HTTP 500")) (le_n 2) eq_refl).
Defined.

End PrecountProps.
